(** * FixReverter measurer: log parsing, crash classification and
      combinatorial crash minimisation

    A shallow embedding of
    [experiment/measurer/fixreverter_run_crashes.py] and
    [experiment/measurer/fixreverter_run_coverage.py].

    Python values are modelled as follows.
    - [str] is [string] (a sequence of 8-bit characters; the log lines
      the code looks for are ASCII).
    - [set] of integers is [gset Z]; the order in which Python iterates
      over a set is not fixed by the language, so it is a parameter
      [set_iter] of the development, constrained to enumerate the
      elements of the set once each.
    - a tuple of integers is [list Z]; a [dict] keyed by strings is
      [gmap string _].
    - an uncaught exception is the [Raise] constructor of [py].
    - the child process started by [new_process.execute] is a function
      from the call's arguments to its captured result, and every call
      is appended to a trace that the computation threads along.  A
      process that cannot be started at all makes [new_process.execute]
      raise; this is left out: here every call has a result, and the
      properties below are about such runs. *)

From Stdlib Require Import ZArith Ascii String List.
From stdpp Require Import base tactics option list sorting sets gmap
  strings pretty.

Local Open Scope string_scope.
Local Open Scope Z_scope.
Local Open Scope list_scope.
#[local] Set Warnings "-clear-no-such-hyp".

(** ** Python results *)

(** The two [ValueError]s of [int]: the literal is not an integer,
    or it has more digits ([digits] of them) than the interpreter
    converts. *)
Inductive exn : Type :=
| ValueError (literal : string)
| ValueErrorDigits (digits : Z).

Inductive py (A : Type) : Type :=
| Ok (a : A)
| Raise (e : exn).
Arguments Ok {A} a.
Arguments Raise {A} e.

Definition py_bind {A B} (m : py A) (k : A → py B) : py B :=
  match m with
  | Ok a => k a
  | Raise e => Raise e
  end.

(** ** Python string primitives *)

Module PyStr.

(** [needle in hay] *)
Fixpoint contains (needle hay : string) : bool :=
  String.prefix needle hay ||
  match hay with
  | EmptyString => false
  | String _ hay' => contains needle hay'
  end.

(** [s.split(sep)] for a one-character separator: the result always
    has at least one field, and adjacent separators give empty
    fields. *)
Fixpoint split (sep : ascii) (s : string) : list string :=
  match s with
  | EmptyString => [EmptyString]
  | String a s' =>
      if Ascii.eqb a sep then EmptyString :: split sep s'
      else match split sep s' with
           | field :: fields => String a field :: fields
           | [] => [String a EmptyString]
           end
  end.

(** [fields[-1]] of a non-empty list of fields. *)
Definition last_field (fields : list string) : string :=
  List.last fields EmptyString.

(** [s.startswith(p)] *)
Definition startswith (p s : string) : bool := String.prefix p s.

(** [sep.join(parts)] *)
Fixpoint join (sep : string) (parts : list string) : string :=
  match parts with
  | [] => EmptyString
  | [p] => p
  | p :: ps => p +:+ sep +:+ join sep ps
  end.

(** [str(i)] for an integer of at most [int_max_str_digits] (below)
    digits, as are the integers that [int] returns; Python refuses to
    write a longer one. *)
Definition str (i : Z) : string := pretty i.

(** *** [int(s)] in base ten

    Surrounding ASCII white space is dropped, one sign is allowed, and
    the digits may be grouped by single underscores.  Anything else
    raises [ValueError], and so does a literal of more than
    [int_max_str_digits] digits.  Strings are sequences of 8-bit
    characters here, so that the decimal digits and the white space of
    other scripts, which Python also accepts, are outside the model. *)

Definition is_py_space (a : ascii) : bool :=
  let n := nat_of_ascii a in
  (Nat.eqb n 32 || (Nat.leb 9 n && Nat.leb n 13))%bool.

Definition digit_of (a : ascii) : option Z :=
  let n := Z.of_nat (nat_of_ascii a) in
  if ((48 <=? n) && (n <=? 57))%bool then Some (n - 48) else None.

Fixpoint lstrip (l : list ascii) : list ascii :=
  match l with
  | a :: l' => if is_py_space a then lstrip l' else l
  | [] => []
  end.

Definition strip (l : list ascii) : list ascii :=
  rev (lstrip (rev (lstrip l))).

(** [digits acc after_digit l]: reads the remaining characters;
    [after_digit] records that the previous character was a digit, so
    that an underscore is accepted only between two digits. *)
Fixpoint digits (acc : Z) (after_digit : bool) (l : list ascii)
  : option Z :=
  match l with
  | [] => if after_digit then Some acc else None
  | a :: l' =>
      match digit_of a with
      | Some d => digits (10 * acc + d) true l'
      | None =>
          if (Ascii.eqb a "_" && after_digit)%bool
          then digits acc false l'
          else None
      end
  end.

Definition int_of_chars (l : list ascii) : option Z :=
  match strip l with
  | "-"%char :: l' => Z.opp <$> digits 0 false l'
  | "+"%char :: l' => digits 0 false l'
  | l' => digits 0 false l'
  end.

(** [int(s)] with the bound on the number of digits switched off
    ([sys.set_int_max_str_digits(0)]). *)
Definition int_literal (s : string) : py Z :=
  match int_of_chars (list_ascii_of_string s) with
  | Some z => Ok z
  | None => Raise (ValueError s)
  end.

(** [sys.get_int_max_str_digits()]; the code leaves it at its
    default. *)
Definition int_max_str_digits : Z := 4300.

(** The scan that precedes the conversion.  [digit_run count
    after_underscore l] follows the digits and underscores [l] starts
    with, and gives the number of digits met, added to [count]; it
    gives [None] when two underscores follow each other or the run
    ends on one.  Started with [after_underscore] set, it refuses a
    leading underscore as well.  Leading zeros are counted,
    underscores and the sign are not. *)
Fixpoint digit_run (count : Z) (after_underscore : bool) (l : list ascii)
  : option Z :=
  match l with
  | [] => if after_underscore then None else Some count
  | a :: l' =>
      match digit_of a with
      | Some _ => digit_run (count + 1) false l'
      | None =>
          if Ascii.eqb a "_"
          then if after_underscore then None else digit_run count true l'
          else if after_underscore then None else Some count
      end
  end.

Definition unsigned (l : list ascii) : list ascii :=
  match l with
  | "-"%char :: l' => l'
  | "+"%char :: l' => l'
  | l' => l'
  end.

(** [int(s)]: a well-formed run of more than [int_max_str_digits]
    digits is refused before anything that follows it is looked at. *)
Definition int (s : string) : py Z :=
  match digit_run 0 true (unsigned (strip (list_ascii_of_string s))) with
  | Some n =>
      if int_max_str_digits <? n then Raise (ValueErrorDigits n)
      else int_literal s
  | None => int_literal s
  end.

End PyStr.

(** ** POSIX path helpers ([os.path]) *)

Module OsPath.

Definition slash : ascii := "/"%char.

(** [os.path.basename(p)]: what follows the last slash. *)
Definition basename (p : string) : string :=
  PyStr.last_field (PyStr.split slash p).

Fixpoint rstrip_slashes_rev (l : list ascii) : list ascii :=
  match l with
  | a :: l' => if Ascii.eqb a slash then rstrip_slashes_rev l' else l
  | [] => []
  end.

(** [os.path.dirname(p)]: what precedes the base name, without its
    trailing slashes unless it consists of slashes only. *)
Definition dirname (p : string) : string :=
  let head :=
    String.substring 0 (String.length p - String.length (basename p)) p in
  match rstrip_slashes_rev (rev (list_ascii_of_string head)) with
  | [] => head
  | l => string_of_list_ascii (rev l)
  end.

(** [os.path.join(a, b)] *)
Definition join (a b : string) : string :=
  if PyStr.startswith "/" b then b
  else match rev (list_ascii_of_string a) with
       | [] => b
       | c :: _ => if Ascii.eqb c slash then a +:+ b else a +:+ "/" +:+ b
       end.

End OsPath.

(** ** [fixreverter_run_coverage.py] *)

Module RunCoverage.

Record FixReverterCov : Type := mkFixReverterCov {
  reaches : gset Z;
  triggers : gset Z
}.

(** The body of the [for line in lines] loop, with the two local sets
    as loop state. *)
Fixpoint parse_lines (lines : list string) (reaches triggers : gset Z)
  : py FixReverterCov :=
  match lines with
  | [] => Ok (mkFixReverterCov reaches triggers)
  | line :: lines' =>
      if PyStr.contains "triggered bug index" line then
        py_bind (PyStr.int (PyStr.last_field (PyStr.split " " line)))
          (λ injectionID,
             parse_lines lines' ({[injectionID]} ∪ reaches)
                                ({[injectionID]} ∪ triggers))
      else if PyStr.contains "reached bug index" line then
        py_bind (PyStr.int (PyStr.last_field (PyStr.split " " line)))
          (λ injectionID,
             parse_lines lines' ({[injectionID]} ∪ reaches) triggers)
      else parse_lines lines' reaches triggers
  end.

Definition parseFixReverterLog (output : string) : py FixReverterCov :=
  let lines := PyStr.split "010" output in
  parse_lines lines ∅ ∅.

End RunCoverage.

(** ** The child process and the external collaborators *)

(** The value returned by [new_process.execute]. *)
Record ProcessResult : Type := mkProcessResult {
  retcode : Z;
  output : string;
  timed_out : bool
}.

(** One call of [new_process.execute], with the arguments it was given. *)
Record Call : Type := mkCall {
  call_command : list string;
  call_env : gmap string string;
  call_cwd : string;
  call_expect_zero : bool;
  call_kill_children : bool;
  call_timeout : Z
}.

(** What [stacktraces.StackParser(...).parse(output)] reports; only the
    two fields that [isCrash] reads are kept.  Either may be [None] in
    Python, which is [None] here. *)
Record CrashInfo : Type := mkCrashInfo {
  crash_type : option string;
  crash_state : option string
}.

(** Everything the module takes from outside its own text:
    - [UNIT_TIMEOUT] and [RSS_LIMIT_MB], the constants of [run_coverage];
    - [os_environ], the process environment, and
      [set_sanitizer_options], what [sanitizer.set_sanitizer_options]
      makes of an environment dictionary;
    - [new_process_run], the result of the child process for a call
      (the process is taken to start);
    - [stack_parser_parse fuzz_target output], the result of
      [StackParser(fuzz_target=fuzz_target, symbolized=True,
      detect_ooms_and_hangs=True, include_ubsan=True).parse(output)];
    - [os_walk], the [(root, filenames)] of the triples [os.walk]
      yields, in its order, and [os_path_relpath];
    - [set_iter], the order in which a set is iterated over. *)
Record Host : Type := mkHost {
  UNIT_TIMEOUT : Z;
  RSS_LIMIT_MB : Z;
  os_environ : gmap string string;
  set_sanitizer_options : gmap string string → gmap string string;
  new_process_run : Call → ProcessResult;
  stack_parser_parse : string → string → CrashInfo;
  os_walk : string → list (string * list string);
  os_path_relpath : string → string → string;
  set_iter : gset Z → list Z
}.

(** A set is iterated over once per element. *)
Definition set_iter_ok (h : Host) : Prop :=
  ∀ X : gset Z, set_iter h X ≡ₚ elements X.

(** ** Computations that start child processes

    A computation takes the trace of the calls made so far and gives
    back its outcome with the extended trace. *)

Definition M (A : Type) : Type := list Call → py A * list Call.

Definition ret {A} (a : A) : M A := λ tr, (Ok a, tr).

Definition bind {A B} (m : M A) (k : A → M B) : M B :=
  λ tr, match m tr with
        | (Ok a, tr') => k a tr'
        | (Raise e, tr') => (Raise e, tr')
        end.

Definition lift {A} (r : py A) : M A := λ tr, (r, tr).

Notation "'let!' x ':=' m 'in' k" := (bind m (λ x, k))
  (at level 10, x name, m at level 100, k at level 200).

(** [for x in xs: s = body x s] *)
Fixpoint for_in {A S} (xs : list A) (body : A → S → M S) (s : S) : M S :=
  match xs with
  | [] => ret s
  | x :: xs' => let! s' := body x s in for_in xs' body s'
  end.

(** [itertools.combinations(pool, n)]: the [n]-element selections of
    [pool], by increasing positions. *)
Fixpoint combinations {A} (pool : list A) (n : nat) : list (list A) :=
  match n, pool with
  | O, _ => [[]]
  | S _, [] => []
  | S n', x :: pool' =>
      map (cons x) (combinations pool' n') ++ combinations pool' n
  end.

(** ** [fixreverter_run_crashes.py] *)

Module RunCrashes.

Record Crash : Type := mkCrash {
  crash_testcase : string;
  triggers : list Z
}.

Fixpoint parse_lines (lines : list string) (triggers : gset Z)
  : py (gset Z) :=
  match lines with
  | [] => Ok triggers
  | line :: lines' =>
      if PyStr.contains "triggered bug index" line then
        py_bind (PyStr.int (PyStr.last_field (PyStr.split " " line)))
          (λ injectionID, parse_lines lines' ({[injectionID]} ∪ triggers))
      else parse_lines lines' triggers
  end.

Definition parseFixReverterLog (output : string) : py (gset Z) :=
  let lines := PyStr.split "010" output in
  parse_lines lines ∅.

Definition _get_crash_key (crash_result : Crash) : string :=
  PyStr.join "+" (map PyStr.str (merge_sort Z.le (triggers crash_result))).

(** Python truth value of an optional string. *)
Definition truthy (s : option string) : bool :=
  match s with
  | None | Some EmptyString => false
  | Some _ => true
  end.

Section WithHost.
Context (h : Host).

Definition isCrash (result : ProcessResult) (app_binary : string)
  : bool :=
  if negb (truthy (Some (output result))) then false
  else
    let fuzz_target := OsPath.basename app_binary in
    let crash_result :=
      stack_parser_parse h fuzz_target (output result) in
    if negb (truthy (crash_state crash_result)) then false
    else if bool_decide (crash_type crash_result = Some "Timeout"
                         ∨ crash_type crash_result = Some "Out-of-memory")
    then false
    else true.

Definition execute (command : list string) (env : gmap string string)
  (cwd : string) (timeout : Z) : M ProcessResult :=
  λ tr,
    let c := mkCall command env cwd false true timeout in
    (Ok (new_process_run h c), (tr ++ [c])%list).

(** [set(currset).issuperset(crash)] *)
Definition issuperset (currset crash : list Z) : bool :=
  forallb (λ i, bool_decide (i ∈ currset)) crash.

(** The [FIXREVERTER] directive for a candidate. *)
Definition directive (currset : list Z) : string :=
  "on " +:+ PyStr.join " " (map PyStr.str currset).

(** One turn of the inner loop; the loop state is the environment
    dictionary and the list [crashes]. *)
Definition try_candidate (app_binary : string) (command : list string)
  (app_binary_dir : string) (currset : list Z)
  (st : gmap string string * list (list Z))
  : M (gmap string string * list (list Z)) :=
  let '(env, crashes) := st in
  let isSuper := existsb (issuperset currset) crashes in
  if isSuper then ret (env, crashes)
  else
    let env := <["FIXREVERTER" := directive currset]> env in
    let! currsetResult :=
      execute command env app_binary_dir (UNIT_TIMEOUT h + 5) in
    if isCrash currsetResult app_binary
    then ret (env, (crashes ++ [currset])%list)
    else ret (env, crashes).

Definition process_crash
  (app_binary crash_testcase_path crashes_dir : string)
  : M (list (list Z)) :=
  let crash_filename := OsPath.basename crash_testcase_path in
  if (PyStr.startswith "oom-" crash_filename
      || PyStr.startswith "timeout-" crash_filename)%bool
  then ret []
  else
    let env := set_sanitizer_options h (os_environ h) in
    let command :=
      [app_binary;
       "-timeout=" +:+ PyStr.str (UNIT_TIMEOUT h);
       "-rss_limit_mb=" +:+ PyStr.str (RSS_LIMIT_MB h);
       crash_testcase_path] in
    let app_binary_dir := OsPath.dirname app_binary in
    let! result :=
      execute command env app_binary_dir (UNIT_TIMEOUT h + 5) in
    if negb (isCrash result app_binary) then ret []
    else
      let! triggers := lift (parseFixReverterLog (output result)) in
      if bool_decide (size triggers = 0%nat) then ret []
      else
        let! st :=
          for_in (seq 1 (size triggers))
            (λ n, for_in (combinations (set_iter h triggers) n)
                    (try_candidate app_binary command app_binary_dir))
            (env, []) in
        ret (snd st).

Definition do_crashes_run (app_binary crashes_dir : string)
  : M (gmap string Crash) :=
  for_in (os_walk h crashes_dir)
    (λ '(root, filenames),
       for_in filenames
         (λ filename crashes,
            let crash_testcase_path := OsPath.join root filename in
            let! crashesets :=
              process_crash app_binary crash_testcase_path crashes_dir in
            for_in crashesets
              (λ crashset crashes,
                 let crash :=
                   mkCrash
                     (os_path_relpath h crash_testcase_path crashes_dir)
                     crashset in
                 ret (<[_get_crash_key crash := crash]> crashes))
              crashes))
    ∅.

End WithHost.

End RunCrashes.

(** * Properties *)

(** ** Sanity checks of the primitives on concrete values *)

Example split_lines :
  PyStr.split "010"%char ("a" +:+ String "010"%char ("" +:+ String "010"%char "b"))
  = ["a"; ""; "b"].
Proof. reflexivity. Qed.
Example int_plain : PyStr.int "42" = Ok 42.
Proof. reflexivity. Qed.
Example int_cr : PyStr.int (String "4" (String "013"%char "")) = Ok 4.
Proof. reflexivity. Qed.
Example int_neg : PyStr.int "-07" = Ok (-7).
Proof. reflexivity. Qed.
Example int_underscore : PyStr.int "1_000" = Ok 1000.
Proof. reflexivity. Qed.
Example int_bad_underscore : PyStr.int "1__0" = Raise (ValueError "1__0").
Proof. reflexivity. Qed.
Example int_empty : PyStr.int "" = Raise (ValueError "").
Proof. reflexivity. Qed.
Example int_word : PyStr.int "index" = Raise (ValueError "index").
Proof. reflexivity. Qed.
Example str_neg : PyStr.str (-12) = "-12".
Proof. reflexivity. Qed.
Example join3 : PyStr.join "+" ["1"; "2"; "3"] = "1+2+3".
Proof. reflexivity. Qed.
Example combinations_4_2 :
  combinations [1; 2; 3; 4] 2
  = [[1; 2]; [1; 3]; [1; 4]; [2; 3]; [2; 4]; [3; 4]].
Proof. reflexivity. Qed.
Example dirname_nested : OsPath.dirname "/out/bin//fuzz_target" = "/out/bin".
Proof. reflexivity. Qed.
Example basename_nested : OsPath.basename "/out/crashes/oom-1f" = "oom-1f".
Proof. reflexivity. Qed.

(** ** The log parsers *)

(** The three tests the parsers make on a line. *)
Definition mentions_triggered (line : string) : bool :=
  PyStr.contains "triggered bug index" line.
Definition mentions_reached (line : string) : bool :=
  PyStr.contains "reached bug index" line.
Definition trailing_id (line : string) : py Z :=
  PyStr.int (PyStr.last_field (PyStr.split " " line)).

Definition newline : ascii := "010"%char.
Definition lines_of (ls : list string) : string :=
  PyStr.join (String newline "") ls.

(** Splits a membership equivalence for the lines [line :: lines] into
    the head line and the others. *)
Ltac line_cases line :=
  let H := fresh in
  let l := fresh "l" in
  split;
  [ intros [H|(l & ? & ? & ?)];
    [ try destruct H as [->|?];
      first [ by auto | by (right; exists line; auto 6) ]
    | by (right; exists l; auto 6) ]
  | intros [?|(l & [->|?] & ? & ?)];
    [ by auto
    | first [ by (left; left; congruence) | by (exfalso; tauto) ]
    | by (right; exists l; auto 6) ] ].

Section CoverageParser.
Import RunCoverage.

(** A line the coverage parser reads an ID from. *)
Definition cov_matches (line : string) : bool :=
  mentions_triggered line || mentions_reached line.

Lemma cov_parse_lines_ok lines : ∀ R T,
  Forall (λ line, cov_matches line → ∃ i, trailing_id line = Ok i) lines →
  ∃ cov, parse_lines lines R T = Ok cov
    ∧ (∀ i, i ∈ triggers cov ↔
         i ∈ T ∨ ∃ line, line ∈ lines ∧ mentions_triggered line
                         ∧ trailing_id line = Ok i)
    ∧ (∀ i, i ∈ reaches cov ↔
         i ∈ R ∨ ∃ line, line ∈ lines ∧ cov_matches line
                         ∧ trailing_id line = Ok i).
Proof.
  induction lines as [|line lines IH]; intros R T Hwf.
  { eexists; split; [reflexivity|]. simpl.
    split; intros i; split; try tauto; intros [?|(? & Hin & _)]; try done;
      by apply elem_of_nil in Hin. }
  apply Forall_cons in Hwf as [Hline Hwf]. simpl.
  unfold cov_matches, mentions_triggered, mentions_reached, trailing_id
    in *.
  destruct (PyStr.contains "triggered bug index" line) eqn:Ht;
    [apply Is_true_true_2 in Ht
    |apply Is_true_false_2 in Ht;
     destruct (PyStr.contains "reached bug index" line) eqn:Hr;
     [apply Is_true_true_2 in Hr|apply Is_true_false_2 in Hr]].
  - destruct Hline as [j Hj]; [done|]. rewrite Hj. simpl.
    destruct (IH ({[j]} ∪ R) ({[j]} ∪ T) Hwf) as (cov & -> & HT & HR).
    exists cov. split; [done|]. clear IH Hwf.
    split; intros i; [rewrite HT|rewrite HR];
      rewrite elem_of_union, elem_of_singleton;
      setoid_rewrite elem_of_cons; try setoid_rewrite orb_True;
      line_cases line.
  - destruct Hline as [j Hj]; [done|]. rewrite Hj. simpl.
    destruct (IH ({[j]} ∪ R) T Hwf) as (cov & -> & HT & HR).
    exists cov. split; [done|]. clear IH Hwf.
    split; intros i; [rewrite HT|rewrite HR];
      rewrite ?elem_of_union, ?elem_of_singleton;
      setoid_rewrite elem_of_cons; try setoid_rewrite orb_True;
      line_cases line.
  - destruct (IH R T Hwf) as (cov & -> & HT & HR).
    exists cov. split; [done|]. clear IH Hwf Hline.
    split; intros i; [rewrite HT|rewrite HR];
      setoid_rewrite elem_of_cons; try setoid_rewrite orb_True;
      line_cases line.
Qed.

Lemma cov_parse_lines_raise lines : ∀ R T,
  Exists (λ line, cov_matches line ∧ ∃ e, trailing_id line = Raise e) lines →
  ∃ e, parse_lines lines R T = Raise e.
Proof.
  induction lines as [|line lines IH]; intros R T Hex.
  { by apply Exists_nil in Hex. }
  simpl. unfold cov_matches, mentions_triggered, mentions_reached,
    trailing_id in *.
  apply Exists_cons in Hex as [(Hm & e & He)|Hex].
  - rewrite He.
    destruct (PyStr.contains "triggered bug index" line); [by eexists|].
    destruct (PyStr.contains "reached bug index" line); [by eexists|done].
  - destruct (PyStr.contains "triggered bug index" line).
    { destruct (PyStr.int _); simpl; [by apply IH | by eexists]. }
    destruct (PyStr.contains "reached bug index" line); [|by apply IH].
    destruct (PyStr.int _); simpl; [by apply IH | by eexists].
Qed.

Lemma cov_parse_lines_ok_inv lines : ∀ R T cov,
  parse_lines lines R T = Ok cov →
  Forall (λ line, cov_matches line → ∃ i, trailing_id line = Ok i) lines.
Proof.
  induction lines as [|line lines IH]; intros R T cov Hok; [done|].
  simpl in Hok. unfold cov_matches, mentions_triggered, mentions_reached,
    trailing_id in *.
  apply Forall_cons.
  destruct (PyStr.contains "triggered bug index" line); simpl.
  { destruct (PyStr.int _); simpl in Hok; [eauto|done]. }
  destruct (PyStr.contains "reached bug index" line); simpl.
  { destruct (PyStr.int _); simpl in Hok; [eauto|done]. }
  split; [done|eauto].
Qed.

(** C5. On every output text the coverage parser returns exactly when
    each line mentioning a triggered or a reached bug index ends in an
    integer.  What it returns has, in [triggers], the IDs of the lines
    mentioning a triggered index and nothing else, and in [reaches] the
    IDs of those lines and of the lines mentioning only a reached
    index; hence [reaches] includes [triggers].  When no line mentions
    either, it returns two empty sets. *)
Theorem coverage_parse_sets (output : string) :
  let lines := PyStr.split newline output in
  ((∀ line, line ∈ lines → cov_matches line →
      ∃ i, trailing_id line = Ok i)
   ↔ ∃ cov, parseFixReverterLog output = Ok cov)
  ∧ (∀ cov, parseFixReverterLog output = Ok cov →
       (∀ i, i ∈ triggers cov ↔
          ∃ line, line ∈ lines ∧ mentions_triggered line
                  ∧ trailing_id line = Ok i)
       ∧ (∀ i, i ∈ reaches cov ↔
            ∃ line, line ∈ lines
                    ∧ (mentions_triggered line
                       ∨ (¬ mentions_triggered line
                          ∧ mentions_reached line))
                    ∧ trailing_id line = Ok i)
       ∧ triggers cov ⊆ reaches cov)
  ∧ ((∀ line, line ∈ lines → ¬ cov_matches line) →
     parseFixReverterLog output = Ok (mkFixReverterCov ∅ ∅)).
Proof.
  intros lines. unfold parseFixReverterLog. fold newline. fold lines.
  split; [split|split].
  - intros Hwf. apply Forall_forall in Hwf.
    destruct (cov_parse_lines_ok lines ∅ ∅ Hwf) as (cov & ? & _). eauto.
  - intros [cov Hcov].
    pose proof (cov_parse_lines_ok_inv _ _ _ _ Hcov) as Hwf.
    exact (proj1 (Forall_forall _ _) Hwf).
  - intros cov Hcov.
    pose proof (cov_parse_lines_ok_inv _ _ _ _ Hcov) as Hwf.
    destruct (cov_parse_lines_ok lines ∅ ∅ Hwf) as (cov' & Hcov' & HT & HR).
    rewrite Hcov in Hcov'. injection Hcov' as <-.
    assert (HT' : ∀ i, i ∈ triggers cov ↔
              ∃ line, line ∈ lines ∧ mentions_triggered line
                      ∧ trailing_id line = Ok i).
    { intros i. rewrite HT.
      split; [intros [H|H]; [set_solver|done]|by right]. }
    assert (HR' : ∀ i, i ∈ reaches cov ↔
              ∃ line, line ∈ lines ∧ cov_matches line
                      ∧ trailing_id line = Ok i).
    { intros i. rewrite HR.
      split; [intros [H|H]; [set_solver|done]|by right]. }
    split; [done|]. split.
    + intros i. rewrite HR'. unfold cov_matches.
      split; intros (line & Hin & Hm & Hid); exists line;
        (split; [done|]); (split; [|done]).
      * apply orb_True in Hm.
        destruct (mentions_triggered line); simpl; tauto.
      * apply orb_True. tauto.
    + intros i. rewrite HT', HR'. unfold cov_matches.
      intros (line & ? & ? & ?). exists line. rewrite orb_True. auto.
  - intros Hnone.
    assert (Hwf : Forall (λ line, cov_matches line →
                            ∃ i, trailing_id line = Ok i) lines).
    { apply Forall_forall. intros line Hin Hm. by destruct (Hnone line). }
    destruct (cov_parse_lines_ok lines ∅ ∅ Hwf) as (cov & -> & HT & HR).
    f_equal. destruct cov as [R T]. simpl in *. f_equal.
    + apply set_eq. intros i. rewrite HR. split; [|set_solver].
      intros [H|(line & Hin & Hm & _)]; [done|]. by destruct (Hnone line).
    + apply set_eq. intros i. rewrite HT. split; [|set_solver].
      intros [H|(line & Hin & Hm & _)]; [done|].
      destruct (Hnone line Hin). unfold cov_matches. apply orb_True. auto.
Qed.

End CoverageParser.

(** The examples of the specification, on the coverage parser. *)
Definition example1_output : string :=
  lines_of ["foo: triggered bug index 4"; "bar: reached bug index 4"].
Definition example2_output : string :=
  lines_of ["bar: reached bug index 7"].

Example coverage_example1 :
  RunCoverage.parseFixReverterLog example1_output
  = Ok (RunCoverage.mkFixReverterCov {[4]} {[4]}).
Proof. vm_compute. reflexivity. Qed.
Example coverage_example2 :
  RunCoverage.parseFixReverterLog example2_output
  = Ok (RunCoverage.mkFixReverterCov {[7]} ∅).
Proof. vm_compute. reflexivity. Qed.

Lemma coverage_parse_sets_witness :
  (∃ cov, RunCoverage.parseFixReverterLog example1_output = Ok cov)
  ∧ RunCoverage.triggers (RunCoverage.mkFixReverterCov {[4]} {[4]})
    ⊆ RunCoverage.reaches (RunCoverage.mkFixReverterCov {[4]} {[4]})
  ∧ RunCoverage.parseFixReverterLog "no event here"
    = Ok (RunCoverage.mkFixReverterCov ∅ ∅).
Proof.
  destruct (coverage_parse_sets example1_output) as (Hret & Hsets & _).
  split; [|split].
  - apply Hret. intros line Hin _.
    change (PyStr.split newline example1_output)
      with ["foo: triggered bug index 4"; "bar: reached bug index 4"] in Hin.
    rewrite !elem_of_cons in Hin.
    destruct Hin as [-> | [-> | Hin]];
      [exists 4; reflexivity..|by apply elem_of_nil in Hin].
  - apply Hsets. vm_compute. reflexivity.
  - destruct (coverage_parse_sets "no event here") as (_ & _ & Hnone).
    apply Hnone. intros line Hin.
    apply list_elem_of_singleton in Hin as ->. vm_compute. tauto.
Defined.

Section CrashParser.
Import RunCrashes.

Lemma crash_parse_lines_ok lines : ∀ T,
  Forall (λ line, mentions_triggered line → ∃ i, trailing_id line = Ok i)
    lines →
  ∃ T', parse_lines lines T = Ok T'
    ∧ ∀ i, i ∈ T' ↔
        i ∈ T ∨ ∃ line, line ∈ lines ∧ mentions_triggered line
                        ∧ trailing_id line = Ok i.
Proof.
  induction lines as [|line lines IH]; intros T Hwf.
  { eexists; split; [reflexivity|]. intros i.
    split; [tauto|]. intros [?|(? & Hin & _)]; [done|].
    by apply elem_of_nil in Hin. }
  apply Forall_cons in Hwf as [Hline Hwf]. simpl.
  unfold mentions_triggered, trailing_id in *.
  destruct (PyStr.contains "triggered bug index" line) eqn:Ht;
    [apply Is_true_true_2 in Ht|apply Is_true_false_2 in Ht].
  - destruct Hline as [j Hj]; [done|]. rewrite Hj. simpl.
    destruct (IH ({[j]} ∪ T) Hwf) as (T' & -> & HT).
    exists T'. split; [done|]. clear IH Hwf.
    intros i. rewrite HT, elem_of_union, elem_of_singleton.
    setoid_rewrite elem_of_cons. line_cases line.
  - destruct (IH T Hwf) as (T' & -> & HT).
    exists T'. split; [done|]. clear IH Hwf Hline.
    intros i. rewrite HT. setoid_rewrite elem_of_cons. line_cases line.
Qed.

Lemma crash_parse_lines_ok_inv lines : ∀ T T',
  parse_lines lines T = Ok T' →
  Forall (λ line, mentions_triggered line → ∃ i, trailing_id line = Ok i)
    lines.
Proof.
  induction lines as [|line lines IH]; intros T T' Hok; [done|].
  simpl in Hok. unfold mentions_triggered, trailing_id in *.
  apply Forall_cons.
  destruct (PyStr.contains "triggered bug index" line); simpl.
  { destruct (PyStr.int _); simpl in Hok; [eauto|done]. }
  split; [done|eauto].
Qed.

Lemma crash_parse_lines_raise lines : ∀ T,
  Exists (λ line, mentions_triggered line ∧ ∃ e, trailing_id line = Raise e)
    lines →
  ∃ e, parse_lines lines T = Raise e.
Proof.
  induction lines as [|line lines IH]; intros T Hex.
  { by apply Exists_nil in Hex. }
  simpl. unfold mentions_triggered, trailing_id in *.
  apply Exists_cons in Hex as [(Hm & e & He)|Hex].
  - rewrite He.
    destruct (PyStr.contains "triggered bug index" line); [by eexists|done].
  - destruct (PyStr.contains "triggered bug index" line); [|by apply IH].
    destruct (PyStr.int _); simpl; [by apply IH | by eexists].
Qed.

(** Lines that do not mention a triggered index can be dropped from the
    input of the loop without changing its outcome. *)
Lemma crash_parse_lines_filter lines : ∀ T,
  parse_lines lines T = parse_lines (List.filter mentions_triggered lines) T.
Proof.
  induction lines as [|line lines IH]; intros T; [done|].
  simpl. unfold mentions_triggered in *.
  destruct (PyStr.contains "triggered bug index" line) eqn:Ht; simpl.
  - rewrite Ht. destruct (PyStr.int _); simpl; [apply IH|done].
  - apply IH.
Qed.

End CrashParser.

(** C6 (as amended). A line that the parser reads an ID from and whose
    trailing token is not an integer makes the whole call raise
    [ValueError]: nothing is returned, whatever the other lines hold.
    The coverage parser reads IDs from the lines mentioning a triggered
    or a reached index, the crashes parser from those mentioning a
    triggered index. *)
Theorem parse_malformed_line_raises (output : string) :
  let lines := PyStr.split newline output in
  ((∃ line, line ∈ lines ∧ cov_matches line
            ∧ ∃ e, trailing_id line = Raise e) →
   ∃ e, RunCoverage.parseFixReverterLog output = Raise e)
  ∧ ((∃ line, line ∈ lines ∧ mentions_triggered line
              ∧ ∃ e, trailing_id line = Raise e) →
     ∃ e, RunCrashes.parseFixReverterLog output = Raise e).
Proof.
  intros lines. split; intros (line & Hin & Hm & He).
  - apply cov_parse_lines_raise, Exists_exists. eauto.
  - apply crash_parse_lines_raise, Exists_exists. eauto.
Qed.

Definition malformed_output : string :=
  lines_of ["a: triggered bug index 4"; "b: triggered bug index 0x5"].

Lemma parse_malformed_line_raises_witness :
  (∃ e, RunCoverage.parseFixReverterLog malformed_output = Raise e)
  ∧ (∃ e, RunCrashes.parseFixReverterLog malformed_output = Raise e).
Proof.
  destruct (parse_malformed_line_raises malformed_output) as [Hcov Hcr].
  split; [apply Hcov|apply Hcr];
    (exists "b: triggered bug index 0x5";
     split; [vm_compute; set_solver|];
     split; [vm_compute; exact I|]; eexists; vm_compute; reflexivity).
Defined.

(** C6, as stated, fails: the first line of [malformed_output] is well
    formed and carries the ID 4, the second has a trailing token that is
    not an integer, and neither parser returns a set holding 4. *)
Lemma parse_malformed_line_aborts :
  trailing_id "a: triggered bug index 4" = Ok 4
  ∧ mentions_triggered "b: triggered bug index 0x5" = true
  ∧ trailing_id "b: triggered bug index 0x5" = Raise (ValueError "0x5")
  ∧ ¬ (∃ cov, RunCoverage.parseFixReverterLog malformed_output = Ok cov
              ∧ 4 ∈ RunCoverage.triggers cov)
  ∧ ¬ (∃ T, RunCrashes.parseFixReverterLog malformed_output = Ok T ∧ 4 ∈ T).
Proof.
  split; [reflexivity|]. split; [reflexivity|]. split; [reflexivity|].
  split.
  - intros (cov & Hcov & _). vm_compute in Hcov. discriminate.
  - intros (T & HT & _). vm_compute in HT. discriminate.
Qed.

(** ** The outcome classifier *)

Section Classifier.
Import RunCrashes.
Context (h : Host).

(** C7. [isCrash] is false on an empty captured output, false when the
    stack-trace classifier reports an empty or absent crash state,
    false when it reports the crash type [Timeout] or [Out-of-memory],
    and true in every other case. *)
Theorem isCrash_cases (result : ProcessResult) (app_binary : string) :
  let info :=
    stack_parser_parse h (OsPath.basename app_binary) (output result) in
  (output result = "" → isCrash h result app_binary = false)
  ∧ (crash_state info = None ∨ crash_state info = Some "" →
     isCrash h result app_binary = false)
  ∧ (crash_type info = Some "Timeout"
     ∨ crash_type info = Some "Out-of-memory" →
     isCrash h result app_binary = false)
  ∧ (output result ≠ "" →
     crash_state info ≠ None → crash_state info ≠ Some "" →
     crash_type info ≠ Some "Timeout" →
     crash_type info ≠ Some "Out-of-memory" →
     isCrash h result app_binary = true).
Proof.
  intros info. unfold isCrash. fold info.
  destruct (output result) as [|a o] eqn:Ho; simpl.
  { repeat split; try done. }
  split; [done|].
  destruct (crash_state info) as [[|b st]|] eqn:Hst; simpl.
  - repeat split; try done.
  - split; [intros [?|?]; done|].
    case_bool_decide as Hty.
    + split; [done|]. intros _ _ _ ? ?. tauto.
    + split; [tauto|done].
  - repeat split; try done.
Qed.

End Classifier.

(** ** The crash key *)

Section CrashKey.
Import RunCrashes.

Lemma merge_sort_permutation_eq (l1 l2 : list Z) :
  l1 ≡ₚ l2 → merge_sort Z.le l1 = merge_sort Z.le l2.
Proof.
  intros Hperm.
  apply (StronglySorted_unique Z.le); try apply StronglySorted_merge_sort;
    try apply _.
  by rewrite !merge_sort_Permutation.
Qed.

(** C8. The key is the IDs in ascending order joined by [+]; two
    trigger sets with the same elements, in whatever order they are
    presented and whatever the testcase, have the same key; and the
    key of 3,1,2 is that of 1,2,3, namely [1+2+3]. *)
Theorem crash_key_sorted_join (crash crash' : Crash) :
  (∃ ids, ids ≡ₚ triggers crash ∧ StronglySorted Z.le ids
          ∧ _get_crash_key crash = PyStr.join "+" (map PyStr.str ids))
  ∧ (triggers crash ≡ₚ triggers crash' →
     _get_crash_key crash = _get_crash_key crash')
  ∧ (NoDup (triggers crash) → NoDup (triggers crash') →
     (∀ i, i ∈ triggers crash ↔ i ∈ triggers crash') →
     _get_crash_key crash = _get_crash_key crash')
  ∧ _get_crash_key (mkCrash (crash_testcase crash) [3; 1; 2]) = "1+2+3"
  ∧ _get_crash_key (mkCrash (crash_testcase crash') [1; 2; 3]) = "1+2+3".
Proof.
  assert (Hperm : triggers crash ≡ₚ triggers crash' →
                  _get_crash_key crash = _get_crash_key crash').
  { intros Hp. unfold _get_crash_key.
    by rewrite (merge_sort_permutation_eq _ _ Hp). }
  split; [|split; [done|split; [|split; reflexivity]]].
  - exists (merge_sort Z.le (triggers crash)).
    split; [apply merge_sort_Permutation|].
    split; [apply StronglySorted_merge_sort; apply _|done].
  - intros Hnd Hnd' Hiff. by apply Hperm, NoDup_Permutation.
Qed.

Lemma crash_key_sorted_join_witness :
  _get_crash_key (mkCrash "crash-a" [3; 1; 2])
  = _get_crash_key (mkCrash "crash-b" [2; 3; 1])
  ∧ _get_crash_key (mkCrash "crash-a" [3; 1; 3])
    = _get_crash_key (mkCrash "crash-a" [3; 3; 1]).
Proof.
  split.
  - destruct (crash_key_sorted_join (mkCrash "crash-a" [3; 1; 2])
                (mkCrash "crash-b" [2; 3; 1])) as (_ & _ & Hset & _).
    apply Hset; simpl.
    + repeat constructor; set_solver.
    + repeat constructor; set_solver.
    + intros i. set_solver.
  - destruct (crash_key_sorted_join (mkCrash "crash-a" [3; 1; 3])
                (mkCrash "crash-a" [3; 3; 1])) as (_ & Hperm & _).
    apply Hperm. simpl. apply perm_skip, perm_swap.
Defined.

End CrashKey.

(** ** Selections of a pool *)

Section Combinations.
Context {A : Type}.
Implicit Types (pool c : list A) (n : nat).

Lemma elem_of_combinations pool : ∀ n c,
  c ∈ combinations pool n ↔ c `sublist_of` pool ∧ length c = n.
Proof.
  induction pool as [|x pool IH]; intros [|n] c; simpl.
  - rewrite list_elem_of_singleton, sublist_nil_r.
    split; [by intros ->|tauto].
  - rewrite elem_of_nil, sublist_nil_r.
    split; [done|]. by intros [-> ?].
  - rewrite list_elem_of_singleton. split.
    + intros ->. split; [apply sublist_nil_l|done].
    + intros [_ Hlen]. by destruct c.
  - rewrite elem_of_app, sublist_cons_r, !list_elem_of_In, in_map_iff.
    setoid_rewrite <- list_elem_of_In. setoid_rewrite IH. split.
    + intros [(c' & <- & Hsub & Hlen)|[Hsub Hlen]].
      * split; [right; eauto|simpl; lia].
      * tauto.
    + intros [[Hsub|(c' & -> & Hsub)] Hlen].
      * tauto.
      * left. exists c'. simpl in Hlen. split; [done|]. split; [done|lia].
Qed.

(** Two selections of a duplicate-free pool with the same elements are
    the same selection. *)
Lemma sublist_same_elements pool : ∀ c1 c2,
  NoDup pool → c1 `sublist_of` pool → c2 `sublist_of` pool →
  (∀ x, x ∈ c1 ↔ x ∈ c2) → c1 = c2.
Proof.
  induction pool as [|x pool IH]; intros c1 c2 Hnd H1 H2 Heq.
  { apply sublist_nil_r in H1, H2. congruence. }
  apply NoDup_cons in Hnd as [Hx Hnd].
  apply sublist_cons_r in H1 as [H1|(c1' & -> & H1)];
    apply sublist_cons_r in H2 as [H2|(c2' & -> & H2)].
  - by apply IH.
  - destruct Hx. apply (elem_of_sublist c1); [|done].
    apply Heq. by left.
  - destruct Hx. apply (elem_of_sublist c2); [|done].
    apply Heq. by left.
  - f_equal. apply IH; try done. intros y.
    assert (Hy : ∀ c, c `sublist_of` pool → y ∈ c → y ≠ x).
    { intros c Hc Hin ->. destruct Hx. by eapply elem_of_sublist. }
    specialize (Heq y). rewrite !elem_of_cons in Heq.
    split; intros Hin.
    + destruct (proj1 Heq) as [->|?]; [by right| |done].
      by destruct (Hy c1').
    + destruct (proj2 Heq) as [->|?]; [by right| |done].
      by destruct (Hy c2').
Qed.

End Combinations.

(** Inclusion of a duplicate-free tuple in a tuple that is not longer
    makes the two have the same elements. *)
Lemma incl_no_longer {A} (c s : list A) :
  NoDup c → c ⊆ s → (length s ≤ length c)%nat → s ⊆ c.
Proof.
  intros Hnd Hsub Hlen.
  assert (Hperm : c ≡ₚ s).
  { apply submseteq_length_Permutation; [|done]. by apply NoDup_submseteq. }
  intros x Hx. by rewrite Hperm.
Qed.

(** ** The directive names its candidate *)

Section Directive.

Definition no_space (s : string) : Prop :=
  " "%char ∉ list_ascii_of_string s.

Lemma no_space_cons (a : ascii) (s : string) :
  no_space (String a s) ↔ a ≠ " "%char ∧ no_space s.
Proof.
  unfold no_space. simpl. rewrite not_elem_of_cons. naive_solver.
Qed.

Lemma pretty_N_char_no_space (x : N) : pretty_N_char x ≠ " "%char.
Proof. unfold pretty_N_char. by repeat case_match. Qed.

Lemma pretty_N_go_shape (x : N) : ∀ s,
  no_space s → (s ≠ "" ∨ (0 < x)%N) →
  pretty_N_go x s ≠ "" ∧ no_space (pretty_N_go x s).
Proof.
  induction (N.lt_wf_0 x) as [x _ IH]; intros s Hs Hne.
  assert (x = 0 ∨ 0 < x)%N as [->|Hx] by lia.
  { rewrite pretty_N_go_0. destruct Hne; [done|lia]. }
  rewrite pretty_N_go_step by done. apply IH.
  - by apply N.div_lt.
  - apply no_space_cons. split; [apply pretty_N_char_no_space|done].
  - by left.
Qed.

Lemma str_shape (z : Z) : PyStr.str z ≠ "" ∧ no_space (PyStr.str z).
Proof.
  assert (HN : ∀ p : positive,
             pretty (N.pos p) ≠ "" ∧ no_space (pretty (N.pos p))).
  { intros p. unfold pretty, pretty_N. case_decide; [done|].
    apply pretty_N_go_shape; [|right; lia].
    unfold no_space. simpl. apply not_elem_of_nil. }
  unfold PyStr.str, pretty, pretty_Z. destruct z as [|p|p].
  - split; [done|]. unfold no_space. simpl. set_solver.
  - apply HN.
  - destruct (HN p) as [_ Hp]. split; [done|].
    change ("-" +:+ pretty p) with (String "-" (pretty (N.pos p))).
    apply no_space_cons. split; [done|]. apply Hp.
Qed.

Lemma split_no_space (s : string) :
  no_space s → PyStr.split " " s = [s].
Proof.
  induction s as [|a s IH]; intros Hs; [done|].
  apply no_space_cons in Hs as [Ha Hs]. simpl.
  destruct (Ascii.eqb_spec a " "); [done|]. by rewrite IH.
Qed.

Lemma split_app_space (p rest : string) :
  no_space p →
  PyStr.split " " (p +:+ " " +:+ rest) = p :: PyStr.split " " rest.
Proof.
  induction p as [|a p IH]; intros Hp; [done|].
  apply no_space_cons in Hp as [Ha Hp]. simpl.
  destruct (Ascii.eqb_spec a " "); [done|]. by rewrite IH.
Qed.

Lemma split_join_space (parts : list string) :
  parts ≠ [] → Forall no_space parts →
  PyStr.split " " (PyStr.join " " parts) = parts.
Proof.
  induction parts as [|p parts IH]; intros Hne Hall; [done|].
  apply Forall_cons in Hall as [Hp Hall].
  destruct parts as [|q parts]; [by apply split_no_space|].
  change (PyStr.join " " (p :: q :: parts))
    with (p +:+ " " +:+ PyStr.join " " (q :: parts)).
  rewrite split_app_space by done. f_equal. by apply IH.
Qed.

Lemma join_nonempty (parts : list string) :
  parts ≠ [] → Forall (λ p, p ≠ "") parts → PyStr.join " " parts ≠ "".
Proof.
  destruct parts as [|p parts]; [done|]. intros _ Hall.
  apply Forall_cons in Hall as [Hp _].
  destruct p as [|a p]; [done|]. by destruct parts.
Qed.

Lemma map_str_inj (c1 c2 : list Z) :
  map PyStr.str c1 = map PyStr.str c2 → c1 = c2.
Proof.
  revert c2. induction c1 as [|i c1 IH]; intros [|j c2] Heq;
    simpl in Heq; try done.
  injection Heq as Hi Hrest.
  f_equal; [by apply (inj pretty)|by apply IH].
Qed.

Lemma directive_inj (c1 c2 : list Z) :
  RunCrashes.directive c1 = RunCrashes.directive c2 → c1 = c2.
Proof.
  unfold RunCrashes.directive. intros Heq. simplify_eq/=.
  assert (Hshape : ∀ c, Forall no_space (map PyStr.str c)
                      ∧ Forall (λ p, p ≠ "") (map PyStr.str c)).
  { intros c. split; apply Forall_forall; intros p Hp;
      apply list_elem_of_In, in_map_iff in Hp as (i & <- & _);
      apply str_shape. }
  destruct c1 as [|i c1], c2 as [|j c2]; [done| | |].
  - symmetry in Heq. by apply join_nonempty in Heq; [|done|apply Hshape].
  - by apply join_nonempty in Heq; [|done|apply Hshape].
  - apply map_str_inj.
    rewrite <- (split_join_space (map PyStr.str (i :: c1)));
      [|done|apply Hshape].
    rewrite <- (split_join_space (map PyStr.str (j :: c2)));
      [|done|apply Hshape].
    by rewrite Heq.
Qed.

End Directive.

(** ** The combinatorial minimiser *)

Section Minimizer.
Import RunCrashes.
Context (h : Host) (app_binary crash_testcase_path crashes_dir : string).

(** The pieces [process_crash] builds before its first call. *)
Definition skipped : bool :=
  (PyStr.startswith "oom-" (OsPath.basename crash_testcase_path)
   || PyStr.startswith "timeout-" (OsPath.basename crash_testcase_path))%bool.
Definition base_env : gmap string string :=
  set_sanitizer_options h (os_environ h).
Definition command : list string :=
  [app_binary;
   "-timeout=" +:+ PyStr.str (UNIT_TIMEOUT h);
   "-rss_limit_mb=" +:+ PyStr.str (RSS_LIMIT_MB h);
   crash_testcase_path].

(** The baseline call, and the call made for a candidate. *)
Definition baseline_call : Call :=
  mkCall command base_env (OsPath.dirname app_binary) false true
    (UNIT_TIMEOUT h + 5).
Definition trial_call (currset : list Z) : Call :=
  mkCall command (<["FIXREVERTER" := directive currset]> base_env)
    (OsPath.dirname app_binary) false true (UNIT_TIMEOUT h + 5).

(** The classification of the run made for a candidate. *)
Definition crashing (currset : list Z) : bool :=
  isCrash h (new_process_run h (trial_call currset)) app_binary.

(** The candidates in the order of the two nested loops. *)
Definition candidates (triggers : gset Z) : list (list Z) :=
  concat (map (combinations (set_iter h triggers)) (seq 1 (size triggers))).

(** The list [crashes] after the loop has gone through [cands], and
    the candidates it has run on the way. *)
Definition record_outcome (c : list Z) (crashes : list (list Z))
  : list (list Z) :=
  if crashing c then crashes ++ [c] else crashes.

Fixpoint confirmed (cands crashes : list (list Z)) : list (list Z) :=
  match cands with
  | [] => crashes
  | c :: cands' =>
      if existsb (issuperset c) crashes then confirmed cands' crashes
      else confirmed cands' (record_outcome c crashes)
  end.

Fixpoint tried (cands crashes : list (list Z)) : list (list Z) :=
  match cands with
  | [] => []
  | c :: cands' =>
      if existsb (issuperset c) crashes then tried cands' crashes
      else c :: tried cands' (record_outcome c crashes)
  end.

Lemma issuperset_spec (c s : list Z) : issuperset c s = true ↔ s ⊆ c.
Proof.
  unfold issuperset. rewrite forallb_forall. split.
  - intros H x Hx. apply list_elem_of_In, H in Hx.
    by apply bool_decide_eq_true in Hx.
  - intros H x Hx. apply bool_decide_eq_true, H. by apply list_elem_of_In.
Qed.

Lemma pruned_spec (c : list Z) (crashes : list (list Z)) :
  existsb (issuperset c) crashes = true ↔ ∃ s, s ∈ crashes ∧ s ⊆ c.
Proof.
  rewrite existsb_exists. setoid_rewrite issuperset_spec.
  by setoid_rewrite list_elem_of_In.
Qed.

Lemma confirmed_app (xs ys crashes : list (list Z)) :
  confirmed (xs ++ ys) crashes = confirmed ys (confirmed xs crashes).
Proof.
  revert crashes. induction xs as [|c xs IH]; intros crashes; [done|].
  simpl. destruct (existsb _ crashes); apply IH.
Qed.

Lemma tried_app (xs ys crashes : list (list Z)) :
  tried (xs ++ ys) crashes
  = tried xs crashes ++ tried ys (confirmed xs crashes).
Proof.
  revert crashes. induction xs as [|c xs IH]; intros crashes; [done|].
  simpl. destruct (existsb _ crashes); simpl; by rewrite IH.
Qed.

(** The environment dictionary differs from the initial one at most in
    the [FIXREVERTER] entry, which every turn overwrites. *)
Definition env_ok (env : gmap string string) : Prop :=
  ∀ v, <["FIXREVERTER" := v]> env = <["FIXREVERTER" := v]> base_env.

Lemma for_in_cons {A S} (x : A) (xs : list A) (body : A → S → M S)
    (s : S) (tr : list Call) :
  for_in (x :: xs) body s tr
  = match body x s tr with
    | (Ok s', tr') => for_in xs body s' tr'
    | (Raise e, tr') => (Raise e, tr')
    end.
Proof. reflexivity. Qed.

Lemma try_candidate_run (c : list Z) env crashes tr :
  env_ok env →
  try_candidate h app_binary command (OsPath.dirname app_binary) c
    (env, crashes) tr
  = if existsb (issuperset c) crashes then (Ok (env, crashes), tr)
    else (Ok (<["FIXREVERTER" := directive c]> base_env,
              record_outcome c crashes),
          tr ++ [trial_call c]).
Proof.
  intros Henv. unfold try_candidate.
  destruct (existsb (issuperset c) crashes); [done|].
  unfold execute, bind, ret. rewrite (Henv (directive c)).
  fold (trial_call c). unfold record_outcome, crashing.
  by destruct (isCrash h (new_process_run h (trial_call c)) app_binary).
Qed.

Lemma inner_loop_run (cands : list (list Z)) :
  ∀ env crashes tr, env_ok env →
  ∃ env', env_ok env' ∧
    for_in cands
      (try_candidate h app_binary command (OsPath.dirname app_binary))
      (env, crashes) tr
    = (Ok (env', confirmed cands crashes),
       tr ++ map trial_call (tried cands crashes)).
Proof.
  induction cands as [|c cands IH]; intros env crashes tr Henv.
  { exists env. split; [done|]. simpl. by rewrite app_nil_r. }
  rewrite for_in_cons, try_candidate_run by done. simpl.
  destruct (existsb (issuperset c) crashes) eqn:Hp.
  { by apply IH. }
  assert (Henv' : env_ok (<["FIXREVERTER" := directive c]> base_env)).
  { intros v. by rewrite insert_insert_eq. }
  destruct (IH _ (record_outcome c crashes) (tr ++ [trial_call c]) Henv')
    as (env' & ? & ->).
  exists env'. split; [done|]. simpl. by rewrite <- app_assoc.
Qed.

Lemma outer_loop_run (pool : list Z) (sizes : list nat) :
  ∀ env crashes tr, env_ok env →
  ∃ env', env_ok env' ∧
    for_in sizes
      (λ n, for_in (combinations pool n)
              (try_candidate h app_binary command
                 (OsPath.dirname app_binary)))
      (env, crashes) tr
    = (Ok (env', confirmed (concat (map (combinations pool) sizes)) crashes),
       tr ++ map trial_call
               (tried (concat (map (combinations pool) sizes)) crashes)).
Proof.
  induction sizes as [|n sizes IH]; intros env crashes tr Henv.
  { exists env. split; [done|]. simpl. by rewrite app_nil_r. }
  rewrite for_in_cons.
  destruct (inner_loop_run (combinations pool n) env crashes tr Henv)
    as (env1 & Henv1 & ->).
  destruct (IH env1 (confirmed (combinations pool n) crashes)
              (tr ++ map trial_call (tried (combinations pool n) crashes))
              Henv1) as (env2 & Henv2 & ->).
  exists env2. split; [done|]. cbn [map concat].
  by rewrite confirmed_app, tried_app, map_app, app_assoc.
Qed.

(** What a call of [process_crash] returns and which calls it adds to
    the trace, case by case. *)
Lemma process_crash_run (tr : list Call) :
  process_crash h app_binary crash_testcase_path crashes_dir tr
  = if skipped then (Ok [], tr)
    else
      let result := new_process_run h baseline_call in
      if negb (isCrash h result app_binary)
      then (Ok [], tr ++ [baseline_call])
      else match parseFixReverterLog (output result) with
           | Raise e => (Raise e, tr ++ [baseline_call])
           | Ok triggers =>
               if bool_decide (size triggers = 0%nat)
               then (Ok [], tr ++ [baseline_call])
               else (Ok (confirmed (candidates triggers) []),
                     tr ++ [baseline_call]
                        ++ map trial_call (tried (candidates triggers) []))
           end.
Proof.
  unfold process_crash. fold skipped. destruct skipped; [done|].
  fold base_env command. unfold bind at 1. unfold execute at 1.
  fold baseline_call. cbv zeta.
  destruct (negb (isCrash h (new_process_run h baseline_call) app_binary));
    [done|].
  unfold bind at 1, lift.
  destruct (parseFixReverterLog _) as [triggers|e]; [|done].
  case_bool_decide; [done|].
  unfold bind.
  destruct (outer_loop_run (set_iter h triggers) (seq 1 (size triggers))
              base_env [] (tr ++ [baseline_call])) as (env' & _ & ->).
  { done. }
  unfold ret, candidates. simpl. by rewrite <- app_assoc.
Qed.

(** *** The candidates *)

Definition shorter_first : list (list Z) → Prop :=
  StronglySorted (λ a b : list Z, (length a ≤ length b)%nat).

Lemma same_length_shorter_first (n : nat) (l : list (list Z)) :
  (∀ c, c ∈ l → length c = n) → shorter_first l.
Proof.
  induction l as [|c l IH]; intros Hlen; [constructor|].
  apply StronglySorted_cons. split.
  - apply Forall_forall. intros c' Hc'.
    rewrite (Hlen c) by left. rewrite (Hlen c'); [done|by right].
  - apply IH. intros c' Hc'. apply Hlen. by right.
Qed.

Lemma elem_of_concat_combinations (pool c : list Z) (sizes : list nat) :
  c ∈ concat (map (combinations pool) sizes)
  ↔ c `sublist_of` pool ∧ length c ∈ sizes.
Proof.
  rewrite list_elem_of_In, in_concat. setoid_rewrite in_map_iff.
  setoid_rewrite <- list_elem_of_In. split.
  - intros (l & (n & <- & Hn) & Hc).
    apply elem_of_combinations in Hc as [? ->]. done.
  - intros [Hsub Hlen]. exists (combinations pool (length c)).
    split; [eauto|]. by apply elem_of_combinations.
Qed.

Lemma concat_combinations_shorter_first (pool : list Z) (sizes : list nat) :
  StronglySorted le sizes →
  shorter_first (concat (map (combinations pool) sizes)).
Proof.
  induction sizes as [|n sizes IH]; intros Hs; [constructor|].
  apply StronglySorted_cons in Hs as [Hn Hs]. cbn [map concat].
  apply StronglySorted_app_2.
  - intros c1 c2 Hc1 Hc2.
    apply elem_of_combinations in Hc1 as [_ ->].
    apply elem_of_concat_combinations in Hc2 as [_ Hc2].
    by apply (proj1 (Forall_forall _ _) Hn).
  - apply (same_length_shorter_first n). intros c Hc.
    by apply elem_of_combinations in Hc as [_ ?].
  - by apply IH.
Qed.

Lemma seq_strongly_sorted (len start : nat) :
  StronglySorted le (seq start len).
Proof.
  revert start. induction len as [|len IH]; intros start; [constructor|].
  simpl. apply StronglySorted_cons. split; [|apply IH].
  apply Forall_forall. intros k Hk. apply elem_of_seq in Hk. lia.
Qed.

Section Candidates.
Hypothesis Hiter : set_iter_ok h.
Context (T : gset Z).

Lemma set_iter_NoDup : NoDup (set_iter h T).
Proof. rewrite (Hiter T). apply NoDup_elements. Qed.

Lemma elem_of_set_iter (i : Z) : i ∈ set_iter h T ↔ i ∈ T.
Proof. rewrite (Hiter T). apply elem_of_elements. Qed.

Lemma length_set_iter : length (set_iter h T) = size T.
Proof. by rewrite (Hiter T). Qed.

Lemma elem_of_candidates (c : list Z) :
  c ∈ candidates T ↔ c `sublist_of` set_iter h T ∧ c ≠ [].
Proof.
  unfold candidates. rewrite elem_of_concat_combinations, elem_of_seq.
  split.
  - intros [Hsub Hlen]. split; [done|]. intros ->. simpl in Hlen. lia.
  - intros [Hsub Hne]. split; [done|].
    apply sublist_length in Hsub. rewrite length_set_iter in Hsub.
    destruct c; [done|]. simpl in *. lia.
Qed.

Lemma candidates_shorter_first : shorter_first (candidates T).
Proof.
  apply concat_combinations_shorter_first, seq_strongly_sorted.
Qed.

Lemma candidates_NoDup_each : Forall (NoDup (A:=Z)) (candidates T).
Proof.
  apply Forall_forall. intros c Hc.
  apply elem_of_candidates in Hc as [Hsub _].
  exact (sublist_NoDup _ _ set_iter_NoDup Hsub).
Qed.

Lemma candidate_elements (c : list Z) :
  c ∈ candidates T → list_to_set c ⊆ T ∧ list_to_set (C:=gset Z) c ≠ ∅.
Proof.
  intros Hc. apply elem_of_candidates in Hc as [Hsub Hne]. split.
  - intros i Hi. apply elem_of_list_to_set in Hi.
    apply elem_of_set_iter. by eapply elem_of_sublist.
  - destruct c as [|i c]; [done|]. set_solver.
Qed.

(** Every non-empty subset of the triggered set is the set of
    elements of one candidate. *)
Lemma candidate_of_subset (S : gset Z) :
  S ⊆ T → S ≠ ∅ →
  ∃ c, c ∈ candidates T ∧ list_to_set c = S.
Proof.
  intros Hsub Hne. exists (filter (.∈ S) (set_iter h T)).
  assert (Hset : list_to_set (filter (.∈ S) (set_iter h T)) = S).
  { apply set_eq. intros i.
    rewrite elem_of_list_to_set, list_elem_of_filter, elem_of_set_iter.
    set_solver. }
  split; [|done]. apply elem_of_candidates.
  split; [apply sublist_filter|].
  intros Hnil. rewrite Hnil in Hset. set_solver.
Qed.

(** Candidates with the same elements are the same tuple. *)
Lemma candidates_same_elements (c1 c2 : list Z) :
  c1 ∈ candidates T → c2 ∈ candidates T →
  c1 ⊆ c2 → c2 ⊆ c1 → c1 = c2.
Proof.
  intros [H1 _]%elem_of_candidates [H2 _]%elem_of_candidates H12 H21.
  apply (sublist_same_elements (set_iter h T));
    [apply set_iter_NoDup|done|done|].
  intros x. split; [apply H12|apply H21].
Qed.

End Candidates.

(** *** The loop invariant

    After the loop has gone through [visited], the list [crashes]
    holds crashing candidates only, every crashing candidate already
    visited includes one of them, and none of them strictly includes a
    crashing candidate already visited. *)

Record loop_inv (visited crashes : list (list Z)) : Prop := {
  inv_sound : ∀ s, s ∈ crashes → s ∈ visited ∧ crashing s = true;
  inv_cover : ∀ c, c ∈ visited → crashing c = true →
              ∃ s, s ∈ crashes ∧ s ⊆ c;
  inv_minimal : ∀ s c, s ∈ crashes → c ∈ visited → crashing c = true →
                c ⊆ s → s ⊆ c
}.

Lemma loop_inv_next (visited crashes : list (list Z)) (c : list Z) :
  loop_inv visited crashes →
  NoDup c →
  (∀ s, s ∈ visited → (length s ≤ length c)%nat) →
  loop_inv (visited ++ [c])
    (if existsb (issuperset c) crashes then crashes
     else record_outcome c crashes).
Proof.
  intros [Hsound Hcover Hmin] Hnd Hlen.
  assert (Hold : ∀ s, s ∈ crashes → c ⊆ s → s ⊆ c).
  { intros s Hs Hcs. apply incl_no_longer; [done..|].
    by apply Hlen, Hsound. }
  destruct (existsb (issuperset c) crashes) eqn:Hp.
  { apply pruned_spec in Hp. split.
    - intros s Hs. destruct (Hsound s Hs). set_solver.
    - intros c' [Hc'| ->%list_elem_of_singleton]%elem_of_app; eauto.
    - intros s c' Hs [Hc'| ->%list_elem_of_singleton]%elem_of_app; eauto. }
  assert (Hnp : ∀ s, s ∈ crashes → ¬ s ⊆ c).
  { intros s Hs Hsc.
    assert (existsb (issuperset c) crashes = true) as Hp'
      by (apply pruned_spec; eauto).
    congruence. }
  unfold record_outcome. destruct (crashing c) eqn:Hc.
  - split.
    + intros s [Hs| ->%list_elem_of_singleton]%elem_of_app.
      * destruct (Hsound s Hs). set_solver.
      * set_solver.
    + intros c' [Hc'| ->%list_elem_of_singleton]%elem_of_app Hcr.
      * destruct (Hcover c' Hc' Hcr) as (s & ? & ?). set_solver.
      * exists c. set_solver.
    + intros s c' [Hs| ->%list_elem_of_singleton]%elem_of_app
        [Hc'| ->%list_elem_of_singleton]%elem_of_app Hcr Hsub; eauto.
      destruct (Hcover c' Hc' Hcr) as (s & Hs & Hsc').
      destruct (Hnp s Hs). set_solver.
  - split.
    + intros s Hs. destruct (Hsound s Hs). set_solver.
    + intros c' [Hc'| ->%list_elem_of_singleton]%elem_of_app Hcr;
        [eauto|congruence].
    + intros s c' Hs [Hc'| ->%list_elem_of_singleton]%elem_of_app Hcr;
        [eauto|congruence].
Qed.

Lemma confirmed_inv (rest : list (list Z)) : ∀ visited crashes,
  loop_inv visited crashes →
  Forall (NoDup (A:=Z)) rest →
  shorter_first (visited ++ rest) →
  loop_inv (visited ++ rest) (confirmed rest crashes).
Proof.
  induction rest as [|c rest IH]; intros visited crashes Hinv Hnd Hs.
  { by rewrite app_nil_r. }
  apply Forall_cons in Hnd as [Hc Hnd].
  assert (Hlen : ∀ s, s ∈ visited → (length s ≤ length c)%nat).
  { intros s Hs'.
    apply (StronglySorted_app_1_elem_of _ _ _ _ _ Hs); [done|by left]. }
  pose proof (loop_inv_next visited crashes c Hinv Hc Hlen) as Hn.
  replace (visited ++ c :: rest) with ((visited ++ [c]) ++ rest) in *
    by (by rewrite <- app_assoc).
  simpl. destruct (existsb (issuperset c) crashes); by apply IH.
Qed.

(** *** The candidates that are run *)

Lemma tried_sublist (cands : list (list Z)) : ∀ crashes,
  tried cands crashes `sublist_of` cands.
Proof.
  induction cands as [|c cands IH]; intros crashes; simpl; [done|].
  destruct (existsb _ crashes).
  - apply sublist_cons. apply IH.
  - apply sublist_skip. apply IH.
Qed.

Lemma record_outcome_spec (c s : list Z) (crashes : list (list Z)) :
  s ∈ record_outcome c crashes
  ↔ s ∈ crashes ∨ (s = c ∧ crashing c = true).
Proof.
  unfold record_outcome. destruct (crashing c).
  - rewrite elem_of_app, list_elem_of_singleton. naive_solver.
  - naive_solver.
Qed.

(** A candidate is run only if it includes none of the crash sets
    confirmed before it. *)
Lemma tried_not_superset (cands : list (list Z)) :
  ∀ crashes pre c post,
  tried cands crashes = pre ++ c :: post →
  ∀ s, s ∈ crashes ∨ (s ∈ pre ∧ crashing s = true) → ¬ s ⊆ c.
Proof.
  induction cands as [|c0 cands IH]; intros crashes pre c post Heq s Hs.
  { by destruct pre. }
  simpl in Heq. destruct (existsb (issuperset c0) crashes) eqn:Hp.
  { by eapply IH. }
  destruct pre as [|c1 pre]; simplify_eq/=.
  - destruct Hs as [Hs|[Hs _]]; [|by apply elem_of_nil in Hs].
    intros Hsub.
    assert (existsb (issuperset c) crashes = true)
      by (apply pruned_spec; eauto).
    congruence.
  - eapply IH; [done|]. rewrite record_outcome_spec.
    destruct Hs as [Hs|[Hs Hcr]]; [by auto|].
    apply elem_of_cons in Hs as [->|Hs]; auto.
Qed.

(** The crash sets returned are those candidates that were run and
    crashed, in the order in which they were run. *)
Lemma confirmed_tried (cands : list (list Z)) : ∀ crashes,
  confirmed cands crashes
  = crashes ++ List.filter crashing (tried cands crashes).
Proof.
  induction cands as [|c cands IH]; intros crashes; simpl.
  { by rewrite app_nil_r. }
  destruct (existsb _ crashes); [apply IH|].
  rewrite IH. unfold record_outcome. simpl.
  destruct (crashing c); [by rewrite <- app_assoc|done].
Qed.

(** The candidates [process_crash] runs after the baseline run. *)
Definition trial_candidates : list (list Z) :=
  if skipped then []
  else
    let result := new_process_run h baseline_call in
    if negb (isCrash h result app_binary) then []
    else match parseFixReverterLog (output result) with
         | Raise _ => []
         | Ok triggers =>
             if bool_decide (size triggers = 0%nat) then []
             else tried (candidates triggers) []
         end.

Lemma process_crash_trace (tr : list Call) :
  (process_crash h app_binary crash_testcase_path crashes_dir tr).2
  = tr ++ (if skipped then []
           else baseline_call :: map trial_call trial_candidates).
Proof.
  rewrite process_crash_run. unfold trial_candidates.
  destruct skipped; simpl; [by rewrite app_nil_r|].
  destruct (negb _); [done|].
  destruct (parseFixReverterLog _) as [T|e]; [|done].
  by case_bool_decide.
Qed.

(** [process_crash] raises only when the log of the baseline run does
    not parse. *)
Lemma process_crash_raise (tr : list Call) (e : exn) :
  (process_crash h app_binary crash_testcase_path crashes_dir tr).1
  = Raise e →
  skipped = false
  ∧ isCrash h (new_process_run h baseline_call) app_binary = true
  ∧ parseFixReverterLog (output (new_process_run h baseline_call))
    = Raise e.
Proof.
  rewrite process_crash_run. destruct skipped; [done|]. simpl.
  destruct (isCrash _ _ _); [|done]. simpl.
  destruct (parseFixReverterLog _) as [T|e']; simpl.
  - by case_bool_decide.
  - by intros [= ->].
Qed.

(** What is returned when the baseline run crashes with a non-empty
    triggered set. *)
Lemma process_crash_confirmed (tr : list Call) (T : gset Z) :
  skipped = false →
  isCrash h (new_process_run h baseline_call) app_binary = true →
  parseFixReverterLog (output (new_process_run h baseline_call)) = Ok T →
  T ≠ ∅ →
  (process_crash h app_binary crash_testcase_path crashes_dir tr).1
  = Ok (confirmed (candidates T) []).
Proof.
  intros Hskip Hcrash Hparse Hne.
  rewrite process_crash_run, Hskip. simpl. rewrite Hcrash, Hparse. simpl.
  case_bool_decide as Hsz; [|done].
  apply size_empty_iff in Hsz. by apply leibniz_equiv in Hsz.
Qed.

Lemma process_crash_ok_inv (tr : list Call) (res : list (list Z)) :
  (process_crash h app_binary crash_testcase_path crashes_dir tr).1
  = Ok res →
  res = [] ∨ ∃ T, res = confirmed (candidates T) [].
Proof.
  rewrite process_crash_run. destruct skipped; simpl; [intros [=]; auto|].
  destruct (negb _); simpl; [intros [=]; auto|].
  destruct (parseFixReverterLog _) as [T|e]; simpl; [|done].
  case_bool_decide; simpl; intros [=]; eauto.
Qed.

Lemma confirmed_candidates_inv (T : gset Z) :
  set_iter_ok h →
  loop_inv (candidates T) (confirmed (candidates T) []).
Proof.
  intros Hiter.
  apply (confirmed_inv (candidates T) [] []).
  - split; intros; by (exfalso; eapply elem_of_nil).
  - by apply candidates_NoDup_each.
  - by apply candidates_shorter_first.
Qed.

(** A call tells which candidate it was made for. *)
Lemma trial_call_inj (c1 c2 : list Z) :
  trial_call c1 = trial_call c2 → c1 = c2.
Proof.
  intros Heq. apply directive_inj.
  assert (Hl : call_env (trial_call c1) !! "FIXREVERTER"
               = call_env (trial_call c2) !! "FIXREVERTER")
    by (by rewrite Heq).
  simpl in Hl. rewrite !lookup_insert_eq in Hl. congruence.
Qed.

Lemma elem_of_trials (c : list Z) (cs : list (list Z)) :
  trial_call c ∈ map trial_call cs ↔ c ∈ cs.
Proof.
  rewrite list_elem_of_In, in_map_iff. setoid_rewrite <- list_elem_of_In.
  split; [|eauto]. by intros (c' & ->%trial_call_inj & ?).
Qed.

(** *** What the minimiser returns *)

(** A minimal crash set, as the specification defines it: it
    reproduces the crash and no proper subset does. *)
Definition minimal_crash_set (crash_of : gset Z → bool) (S : gset Z)
  : Prop :=
  crash_of S = true ∧ ∀ S', S' ⊂ S → crash_of S' = false.

(** The same among the non-empty sets, which are the ones the loop
    runs. *)
Definition minimal_nonempty_crash_set (crash_of : gset Z → bool)
  (S : gset Z) : Prop :=
  S ≠ ∅ ∧ crash_of S = true
  ∧ ∀ S', S' ⊂ S → S' ≠ ∅ → crash_of S' = false.

(** [res] lists exactly the subsets of [T] that satisfy [P]. *)
Definition returns_exactly (P : gset Z → Prop) (T : gset Z)
  (res : list (list Z)) : Prop :=
  (∀ c, c ∈ res → list_to_set c ⊆ T ∧ P (list_to_set c))
  ∧ (∀ S, S ⊆ T → P S → ∃ c, c ∈ res ∧ list_to_set c = S).

(** C1 (as amended). When the baseline run crashes with a non-empty
    triggered set [T] and the classification of a trial depends only
    on the set of the candidate, [process_crash] returns exactly the
    non-empty subsets of [T] that reproduce the crash and have no
    non-empty proper subset reproducing it.  The empty subset is never
    tried: every call that follows the baseline call is the call of a
    non-empty candidate, so that none of them is the call of the empty
    one. *)
Theorem process_crash_minimal_nonempty
    (crash_of : gset Z → bool) (T : gset Z) (tr : list Call) :
  set_iter_ok h →
  skipped = false →
  isCrash h (new_process_run h baseline_call) app_binary = true →
  parseFixReverterLog (output (new_process_run h baseline_call)) = Ok T →
  T ≠ ∅ →
  (∀ c, c ∈ candidates T → crashing c = crash_of (list_to_set c)) →
  ∃ res,
    (process_crash h app_binary crash_testcase_path crashes_dir tr).1
    = Ok res
    ∧ returns_exactly (minimal_nonempty_crash_set crash_of) T res
    ∧ ∃ cands,
        (process_crash h app_binary crash_testcase_path crashes_dir tr).2
        = tr ++ baseline_call :: map trial_call cands
        ∧ Forall (λ c, c ≠ []) cands
        ∧ trial_call [] ∉ map trial_call cands.
Proof.
  intros Hiter Hskip Hcrash Hparse Hne Hdet.
  exists (confirmed (candidates T) []).
  split; [by apply process_crash_confirmed|].
  destruct (confirmed_candidates_inv T Hiter) as [Hsound Hcover Hmin].
  split; [split|].
  - intros c Hc. destruct (Hsound c Hc) as [Hcand Hcr].
    destruct (candidate_elements Hiter T c Hcand) as [HcT Hcne].
    split; [done|]. split; [done|]. split; [by rewrite <- Hdet|].
    intros S' Hsub HS'.
    destruct (candidate_of_subset Hiter T S') as (c' & Hc' & <-);
      [set_solver|done|].
    destruct (crash_of (list_to_set c')) eqn:Hcr'; [|done].
    rewrite <- Hdet in Hcr' by done.
    assert (c ⊆ c') as Hcc'.
    { apply (Hmin c c'); try done. set_solver. }
    destruct Hsub as [_ Hns]. destruct Hns. set_solver.
  - intros S HST (HSne & HS & HSmin).
    destruct (candidate_of_subset Hiter T S HST HSne) as (c & Hc & <-).
    rewrite <- Hdet in HS by done.
    destruct (Hcover c Hc HS) as (s & Hs & Hsc).
    exists s. split; [done|].
    destruct (Hsound s Hs) as [Hscand Hscr].
    destruct (decide (list_to_set s = list_to_set (C:=gset Z) c))
      as [|Hneq]; [done|].
    rewrite (Hdet s Hscand) in Hscr.
    rewrite HSmin in Hscr; [done| |].
    + split; [set_solver|]. intros Hcs. apply Hneq.
      apply set_eq. set_solver.
    + by destruct (candidate_elements Hiter T s Hscand).
  - exists (tried (candidates T) []).
    assert (Hrun : Forall (λ c, c ≠ []) (tried (candidates T) [])).
    { apply Forall_forall. intros c Hc.
      assert (Hcand : c ∈ candidates T)
        by (eapply elem_of_sublist; [done|apply tried_sublist]).
      by apply (elem_of_candidates Hiter T c) in Hcand as [_ ?]. }
    split; [|split; [done|]].
    + rewrite process_crash_run, Hskip. simpl.
      rewrite Hcrash, Hparse. simpl.
      case_bool_decide as Hsz; [|done].
      apply size_empty_iff in Hsz. by apply leibniz_equiv in Hsz.
    + rewrite elem_of_trials. intros Hnil.
      by apply (proj1 (Forall_forall _ _) Hrun [] Hnil).
Qed.

(** C2. Two different trigger sets returned for one testcase are
    incomparable: neither includes the other.  (Nothing is returned
    only when the log of the baseline run does not parse.) *)
Theorem process_crash_incomparable (tr : list Call) :
  set_iter_ok h →
  (∀ res,
     (process_crash h app_binary crash_testcase_path crashes_dir tr).1
     = Ok res →
     ∀ s1 s2, s1 ∈ res → s2 ∈ res → s1 ≠ s2 →
              ¬ s1 ⊆ s2 ∧ ¬ s2 ⊆ s1)
  ∧ (∀ e,
       (process_crash h app_binary crash_testcase_path crashes_dir tr).1
       = Raise e →
       parseFixReverterLog (output (new_process_run h baseline_call))
       = Raise e).
Proof.
  intros Hiter.
  split; [|intros e He; by destruct (process_crash_raise _ _ He) as (_ & _ & ?)].
  intros res Hres s1 s2 H1 H2 Hneq.
  apply process_crash_ok_inv in Hres as [->|[T ->]].
  { by apply elem_of_nil in H1. }
  destruct (confirmed_candidates_inv T Hiter) as [Hsound _ Hmin].
  destruct (Hsound s1 H1) as [Hc1 Hcr1], (Hsound s2 H2) as [Hc2 Hcr2].
  split; intros Hsub; apply Hneq.
  - apply (candidates_same_elements Hiter T); try done. by apply Hmin.
  - apply (candidates_same_elements Hiter T); try done. by apply Hmin.
Qed.

(** C4. When the baseline run is not classified as a crash, or its
    triggered set is empty, [process_crash] returns no crash set and
    adds nothing to the trace but the baseline call (and not even that
    one for a testcase it skips by its file name). *)
Theorem process_crash_no_trial (tr : list Call) :
  isCrash h (new_process_run h baseline_call) app_binary = false
  ∨ parseFixReverterLog (output (new_process_run h baseline_call)) = Ok ∅ →
  process_crash h app_binary crash_testcase_path crashes_dir tr
  = (Ok [], tr ++ (if skipped then [] else [baseline_call])).
Proof.
  intros Hbase. rewrite process_crash_run.
  destruct skipped; [by rewrite app_nil_r|]. simpl.
  destruct (isCrash _ _ _) eqn:Hcr; simpl; [|done].
  destruct Hbase as [? | ->]; [done|]. by rewrite size_empty.
Qed.


(** *** Pruning *)

Lemma shorter_first_sublist (l1 l2 : list (list Z)) :
  l1 `sublist_of` l2 → shorter_first l2 → shorter_first l1.
Proof.
  unfold shorter_first.
  induction 1 as [|c l1 l2 Hsub IH|c l1 l2 Hsub IH];
    rewrite ?StronglySorted_cons; [done| |naive_solver].
  intros [Hall Hs]. split; [|by apply IH].
  apply Forall_forall. intros c' Hc'.
  apply (proj1 (Forall_forall _ _) Hall). by eapply elem_of_sublist.
Qed.

Lemma tried_or_pruned (cands : list (list Z)) : ∀ crashes c,
  c ∈ cands →
  c ∈ tried cands crashes ∨ ∃ s, s ∈ confirmed cands crashes ∧ s ⊆ c.
Proof.
  induction cands as [|c0 cands IH]; intros crashes c Hc.
  { by apply elem_of_nil in Hc. }
  simpl. destruct (existsb (issuperset c0) crashes) eqn:Hp.
  - apply elem_of_cons in Hc as [->|Hc]; [|by apply IH].
    right. apply pruned_spec in Hp as (s & Hs & Hsub).
    exists s. split; [|done]. rewrite confirmed_tried. set_solver.
  - apply elem_of_cons in Hc as [->|Hc]; [left; by left|].
    destruct (IH (record_outcome c0 crashes) c Hc); [|by right].
    left. by right.
Qed.

Lemma singleton_tuple (c : list Z) (i : Z) :
  c ≠ [] → NoDup c → c ⊆ [i] → c = [i].
Proof.
  intros Hne Hnd Hsub. destruct c as [|j c]; [done|].
  assert (j = i) as -> by set_solver.
  apply NoDup_cons in Hnd as [Hj Hnd].
  destruct c as [|k c]; [done|].
  assert (k = i) as -> by set_solver. destruct Hj. by left.
Qed.

(** C3. Call [trials] the calls that follow the baseline call.  Once
    the call made for a candidate [s] is in the trace and [s] has been
    classified as a crash, no later call is the one of a candidate
    that includes [s]; and the call of a strict superset of [s] occurs
    nowhere among the trials.  In particular, with the triggered set
    [{1,2}] and [{1}] crashing, [{1}] is run and no tuple holding both
    1 and 2 ever is. *)
Theorem superset_never_executed (tr : list Call) :
  set_iter_ok h →
  ∃ trials,
    (process_crash h app_binary crash_testcase_path crashes_dir tr).2
    = tr ++ (if skipped then [] else baseline_call :: trials)
    ∧ (∀ pre post s c,
         trials = pre ++ trial_call c :: post →
         trial_call s ∈ pre → crashing s = true → ¬ s ⊆ c)
    ∧ (∀ s c,
         trial_call s ∈ trials → crashing s = true →
         s ⊆ c → ¬ c ⊆ s → trial_call c ∉ trials)
    ∧ (skipped = false →
       isCrash h (new_process_run h baseline_call) app_binary = true →
       parseFixReverterLog (output (new_process_run h baseline_call))
       = Ok {[1; 2]} →
       crashing [1] = true →
       trial_call [1] ∈ trials
       ∧ ∀ c, 1 ∈ c → 2 ∈ c → trial_call c ∉ trials).
Proof.
  intros Hiter. exists (map trial_call trial_candidates).
  split; [apply process_crash_trace|].
  assert (Hcs : trial_candidates = []
                ∨ ∃ T, trial_candidates = tried (candidates T) []).
  { unfold trial_candidates. destruct skipped; [by left|]. simpl.
    destruct (negb _); [by left|].
    destruct (parseFixReverterLog _); [|by left].
    case_bool_decide; eauto. }
  assert (Hlater : ∀ pre post s c,
            map trial_call trial_candidates = pre ++ trial_call c :: post →
            trial_call s ∈ pre → crashing s = true → ¬ s ⊆ c).
  { intros pre post s c Heq Hs Hcr.
    apply map_eq_app in Heq as (cs1 & cs2 & Hcs12 & <- & Heq).
    apply map_eq_cons in Heq as (c' & cs3 & -> & <-%trial_call_inj & _).
    apply elem_of_trials in Hs.
    destruct Hcs as [Hnil|[T HT]].
    { rewrite Hnil in Hcs12. by destruct cs1. }
    rewrite HT in Hcs12. eapply tried_not_superset; eauto. }
  split; [done|].
  assert (Hnever : ∀ s c,
            trial_call s ∈ map trial_call trial_candidates →
            crashing s = true → s ⊆ c → ¬ c ⊆ s →
            trial_call c ∉ map trial_call trial_candidates).
  { intros s c Hs Hcr Hsc Hcs' Hc.
    pose proof Hs as Hs'. pose proof Hc as Hc'.
    apply elem_of_trials in Hs', Hc'.
    destruct Hcs as [Hnil|[T HT]].
    { rewrite Hnil in Hs'. by apply elem_of_nil in Hs'. }
    assert (Hsorted : shorter_first trial_candidates).
    { rewrite HT. eapply shorter_first_sublist; [apply tried_sublist|].
      by apply candidates_shorter_first. }
    assert (Hnd : NoDup s).
    { rewrite HT in Hs'.
      apply (proj1 (Forall_forall _ _) (candidates_NoDup_each Hiter T)).
      eapply elem_of_sublist; [done|apply tried_sublist]. }
    apply list_elem_of_split in Hc' as (l1 & l2 & Hsplit).
    rewrite Hsplit in Hs'.
    apply elem_of_app in Hs' as [Hs'|Hs'].
    - apply (Hlater (map trial_call l1) (map trial_call l2) s c);
        [by rewrite Hsplit, map_app|by apply elem_of_trials|done..].
    - apply elem_of_cons in Hs' as [->|Hs']; [done|].
      apply Hcs'. apply incl_no_longer; [done..|].
      rewrite Hsplit in Hsorted.
      apply StronglySorted_app_1_r, StronglySorted_cons in Hsorted
        as [Hall _].
      exact (proj1 (Forall_forall _ _) Hall s Hs'). }
  split; [done|].
  intros Hskip Hcrash Hparse Hone.
  assert (HT : trial_candidates = tried (candidates {[1; 2]}) []).
  { unfold trial_candidates. rewrite Hskip. simpl.
    by rewrite Hcrash, Hparse. }
  assert (Hin : [1] ∈ trial_candidates).
  { assert (Hcand : [1] ∈ candidates {[1; 2]}).
    { destruct (candidate_of_subset Hiter {[1; 2]} {[1]})
        as (c & Hc & Hset); [set_solver..|].
      replace [1] with c; [done|].
      apply elem_of_candidates in Hc as Hc'; [|done].
      destruct Hc' as [Hsub Hne].
      apply singleton_tuple; [done| |set_solver].
      exact (sublist_NoDup _ _ (set_iter_NoDup Hiter _) Hsub). }
    rewrite HT.
    destruct (tried_or_pruned (candidates {[1; 2]}) [] [1] Hcand)
      as [?|(s & Hs & Hsub)]; [done|].
    destruct (confirmed_candidates_inv {[1; 2]} Hiter) as [Hsound _ _].
    destruct (Hsound s Hs) as [Hscand _].
    apply elem_of_candidates in Hscand as Hs'; [|done].
    destruct Hs' as [Hssub Hsne].
    assert (s = [1]) as ->.
    { apply singleton_tuple; [done| |done].
      exact (sublist_NoDup _ _ (set_iter_NoDup Hiter _) Hssub). }
    rewrite confirmed_tried in Hs. simpl in Hs.
    apply list_elem_of_In, filter_In in Hs as [Hs _].
    by apply list_elem_of_In. }
  split; [by apply elem_of_trials|].
  intros c H1 H2. apply (Hnever [1] c);
    [by apply elem_of_trials|done|set_solver|].
  intros Hsub. specialize (Hsub 2 H2). set_solver.
Qed.

(** *** The minimiser reads triggered lines only *)

(** The crashes parser returns one set, made of the IDs of the
    lines that mention a triggered bug index: its outcome is that of
    the loop run on those lines alone, so that no other line, one
    mentioning a reached bug index included, bears on it, be it well
    formed or not.  The candidates [process_crash] runs and the crash
    sets it returns are made of such IDs only. *)
Lemma triggered_lines_only (out : string) (tr : list Call) :
  let lines := PyStr.split newline out in
  parseFixReverterLog out
  = parse_lines (List.filter mentions_triggered lines) ∅
  ∧ (∀ out',
       List.filter mentions_triggered (PyStr.split newline out')
       = List.filter mentions_triggered lines →
       parseFixReverterLog out' = parseFixReverterLog out)
  ∧ ((∀ line, line ∈ lines → mentions_triggered line →
        ∃ i, trailing_id line = Ok i)
     ↔ ∃ T, parseFixReverterLog out = Ok T)
  ∧ (∀ T, parseFixReverterLog out = Ok T →
       ∀ i, i ∈ T ↔ ∃ line, line ∈ lines ∧ mentions_triggered line
                            ∧ trailing_id line = Ok i)
  ∧ (set_iter_ok h →
     out = output (new_process_run h baseline_call) →
     ∀ c i,
       (trial_call c ∈ map trial_call trial_candidates
        ∨ ∃ res,
            (process_crash h app_binary crash_testcase_path crashes_dir
               tr).1 = Ok res ∧ c ∈ res) →
       i ∈ c →
       ∃ line, line ∈ lines ∧ mentions_triggered line
               ∧ trailing_id line = Ok i).
Proof.
  intros lines.
  assert (Hfilter : ∀ o, parseFixReverterLog o
            = parse_lines
                (List.filter mentions_triggered (PyStr.split newline o)) ∅).
  { intros o. unfold parseFixReverterLog. apply crash_parse_lines_filter. }
  assert (Hmem : ∀ T, parseFixReverterLog out = Ok T →
            ∀ i, i ∈ T ↔ ∃ line, line ∈ lines ∧ mentions_triggered line
                                 ∧ trailing_id line = Ok i).
  { intros T HT i.
    pose proof (crash_parse_lines_ok_inv _ _ _ HT) as Hwf.
    destruct (crash_parse_lines_ok _ ∅ Hwf) as (T' & HT' & Hin).
    unfold parseFixReverterLog in HT. rewrite HT in HT'.
    injection HT' as <-. rewrite Hin.
    split; [intros [?|?]; [set_solver|done]|by right]. }
  split; [apply Hfilter|]. split.
  { intros out' Heq. rewrite (Hfilter out'), Heq. symmetry. apply Hfilter. }
  split; [split|split; [done|]].
  - intros Hwf. apply Forall_forall in Hwf.
    destruct (crash_parse_lines_ok _ ∅ Hwf) as (T & ? & _). eauto.
  - intros [T HT].
    exact (proj1 (Forall_forall _ _) (crash_parse_lines_ok_inv _ _ _ HT)).
  - intros Hiter Hout c i Hc Hi.
    assert (∃ T, parseFixReverterLog out = Ok T ∧ c ∈ candidates T)
      as (T & HT & HcT).
    { assert (Htried : c ∈ trial_candidates →
                ∃ T, parseFixReverterLog out = Ok T ∧ c ∈ candidates T).
      { unfold trial_candidates. destruct skipped; simpl;
          [by intros ?%elem_of_nil|].
        destruct (negb _); [by intros ?%elem_of_nil|].
        rewrite <- Hout.
        destruct (parseFixReverterLog out) as [T|e];
          [|by intros ?%elem_of_nil].
        case_bool_decide; [by intros ?%elem_of_nil|].
        intros Hin. exists T. split; [done|].
        eapply elem_of_sublist; [done|apply tried_sublist]. }
      destruct Hc as [Hc|(res & Hres & Hc)].
      { by apply Htried, elem_of_trials. }
      rewrite process_crash_run in Hres.
      destruct skipped eqn:Hskip; simpl in Hres;
        [injection Hres as <-; by apply elem_of_nil in Hc|].
      destruct (isCrash _ _ _) eqn:Hcr; simpl in Hres;
        [|injection Hres as <-; by apply elem_of_nil in Hc].
      rewrite <- Hout in Hres.
      destruct (parseFixReverterLog out) as [T|e] eqn:HT; [|done].
      case_bool_decide; simpl in Hres; injection Hres as <-;
        [by apply elem_of_nil in Hc|].
      exists T. split; [done|].
      by apply (inv_sound _ _ (confirmed_candidates_inv T Hiter)). }
    apply (Hmem T HT).
    destruct (candidate_elements Hiter T c HcT) as [Hsub _].
    apply Hsub. by apply elem_of_list_to_set.
Qed.

End Minimizer.

(** *** Lines that mention no triggered bug index *)

Section ReachedLines.
Import RunCrashes.
Context (h h' : Host) (app_binary crash_testcase_path crashes_dir : string).

(** [h'] makes the calls [h] makes, iterates over sets in the order of
    [h] and classifies the run of every candidate as [h] does; what the
    baseline run gives may differ. *)
Definition same_trials : Prop :=
  baseline_call h' app_binary crash_testcase_path
  = baseline_call h app_binary crash_testcase_path
  ∧ (∀ c, trial_call h' app_binary crash_testcase_path c
          = trial_call h app_binary crash_testcase_path c)
  ∧ (∀ X, set_iter h' X = set_iter h X)
  ∧ (∀ c, crashing h' app_binary crash_testcase_path c
          = crashing h app_binary crash_testcase_path c).

Lemma confirmed_same (cands : list (list Z)) : ∀ crashes,
  same_trials →
  confirmed h' app_binary crash_testcase_path cands crashes
  = confirmed h app_binary crash_testcase_path cands crashes.
Proof.
  intros crashes (_ & _ & _ & Hclass). revert crashes.
  induction cands as [|c cands IH]; intros crashes; simpl; [done|].
  destruct (existsb _ crashes); [apply IH|].
  unfold record_outcome. rewrite Hclass. apply IH.
Qed.

Lemma tried_same (cands : list (list Z)) : ∀ crashes,
  same_trials →
  tried h' app_binary crash_testcase_path cands crashes
  = tried h app_binary crash_testcase_path cands crashes.
Proof.
  intros crashes (_ & _ & _ & Hclass). revert crashes.
  induction cands as [|c cands IH]; intros crashes; simpl; [done|].
  destruct (existsb _ crashes); [apply IH|].
  unfold record_outcome. rewrite Hclass. by rewrite IH.
Qed.

Lemma candidates_same (T : gset Z) :
  same_trials → candidates h' T = candidates h T.
Proof. intros (_ & _ & Hiter & _). unfold candidates. by rewrite Hiter. Qed.

(** C10 (as amended). The crashes parser returns one set, made of the
    IDs of the lines that mention a triggered bug index: its outcome is
    that of the loop run on those lines alone, so that no other line,
    one mentioning a reached bug index included, adds an ID or makes
    the parse fail, be it well formed or not.  The candidates
    [process_crash] runs and the crash sets it returns are made of such
    IDs only.  The other lines of the baseline output are still read by
    the crash classifier; as long as the classification of the baseline
    run is the same, they change neither the calls [process_crash]
    makes nor what it returns. *)
Theorem crashes_parse_triggered_only (out : string) (tr : list Call) :
  let lines := PyStr.split newline out in
  let baseline := baseline_call h app_binary crash_testcase_path in
  let baseline' := baseline_call h' app_binary crash_testcase_path in
  parseFixReverterLog out
  = parse_lines (List.filter mentions_triggered lines) ∅
  ∧ (∀ out',
       List.filter mentions_triggered (PyStr.split newline out')
       = List.filter mentions_triggered lines →
       parseFixReverterLog out' = parseFixReverterLog out)
  ∧ ((∀ line, line ∈ lines → mentions_triggered line →
        ∃ i, trailing_id line = Ok i)
     ↔ ∃ T, parseFixReverterLog out = Ok T)
  ∧ (∀ T, parseFixReverterLog out = Ok T →
       ∀ i, i ∈ T ↔ ∃ line, line ∈ lines ∧ mentions_triggered line
                            ∧ trailing_id line = Ok i)
  ∧ (set_iter_ok h →
     out = output (new_process_run h baseline) →
     ∀ c i,
       (trial_call h app_binary crash_testcase_path c
        ∈ map (trial_call h app_binary crash_testcase_path)
            (trial_candidates h app_binary crash_testcase_path)
        ∨ ∃ res,
            (process_crash h app_binary crash_testcase_path crashes_dir
               tr).1 = Ok res ∧ c ∈ res) →
       i ∈ c →
       ∃ line, line ∈ lines ∧ mentions_triggered line
               ∧ trailing_id line = Ok i)
  ∧ (out = output (new_process_run h baseline) →
     same_trials →
     List.filter mentions_triggered
       (PyStr.split newline (output (new_process_run h' baseline')))
     = List.filter mentions_triggered lines →
     isCrash h' (new_process_run h' baseline') app_binary
     = isCrash h (new_process_run h baseline) app_binary →
     process_crash h' app_binary crash_testcase_path crashes_dir tr
     = process_crash h app_binary crash_testcase_path crashes_dir tr).
Proof.
  intros lines baseline baseline'. subst lines baseline baseline'.
  destruct (triggered_lines_only h app_binary crash_testcase_path
              crashes_dir out tr) as (Hfilter & Hsame & Hret & Hmem & Hids).
  do 5 (split; [done|]).
  intros Hout Htrials Hlines Hclass.
  rewrite !process_crash_run. destruct (skipped _); [done|]. cbv zeta.
  rewrite Hclass, (Hsame _ Hlines), <- Hout.
  pose proof Htrials as (Hbase & Hcall & _ & _). rewrite Hbase.
  destruct (negb _); [done|].
  destruct (parseFixReverterLog _) as [T|e]; [|done].
  case_bool_decide; [done|].
  rewrite (candidates_same T Htrials), confirmed_same, tried_same by done.
  do 3 f_equal. apply map_ext. intros c. apply Hcall.
Qed.

End ReachedLines.

(** ** The corpus walk *)

Section CorpusWalk.
Import RunCrashes.
Context (h : Host) (app_binary crashes_dir : string).

(** The testcases in the order of the walk. *)
Definition walk_paths : list string :=
  concat (map (λ '(root, filenames), map (OsPath.join root) filenames)
            (os_walk h crashes_dir)).

(** What [process_crash] returns for a testcase. *)
Definition crash_sets (path : string) : py (list (list Z)) :=
  (process_crash h app_binary path crashes_dir []).1.

Definition crash_record (path : string) (crashset : list Z) : Crash :=
  mkCrash (os_path_relpath h path crashes_dir) crashset.

(** The [Crash] records in the order in which they are stored. *)
Definition records_of (path : string) : list Crash :=
  match crash_sets path with
  | Ok crashesets => map (crash_record path) crashesets
  | Raise _ => []
  end.
Definition crash_records : list Crash :=
  concat (map records_of walk_paths).

(** [crashes[_get_crash_key(crash)] = crash] for each record in turn. *)
Definition store (crashes : gmap string Crash) (records : list Crash)
  : gmap string Crash :=
  fold_left (λ m crash, <[_get_crash_key crash := crash]> m) records crashes.

Lemma store_app crashes rs1 rs2 :
  store crashes (rs1 ++ rs2) = store (store crashes rs1) rs2.
Proof. apply fold_left_app. Qed.

Lemma store_other (records : list Crash) : ∀ crashes k,
  (∀ crash, crash ∈ records → _get_crash_key crash ≠ k) →
  store crashes records !! k = crashes !! k.
Proof.
  induction records as [|r records IH]; intros crashes k Hk; [done|].
  simpl. rewrite IH by (intros; apply Hk; by right).
  apply lookup_insert_ne, Hk. by left.
Qed.

(** The last record stored under a key is the one found there. *)
Lemma store_last crashes (pre post : list Crash) (crash : Crash) :
  (∀ c, c ∈ post → _get_crash_key c ≠ _get_crash_key crash) →
  store crashes (pre ++ crash :: post) !! _get_crash_key crash = Some crash.
Proof.
  intros Hpost. rewrite store_app. simpl.
  rewrite store_other by done. apply lookup_insert_eq.
Qed.

Lemma process_crash_trace_free (path : string) (tr : list Call) :
  (process_crash h app_binary path crashes_dir tr).1 = crash_sets path.
Proof.
  unfold crash_sets. rewrite !process_crash_run.
  destruct (skipped path); [done|]. simpl.
  destruct (negb _); [done|].
  destruct (parseFixReverterLog _); [|done]. by case_bool_decide.
Qed.

(** The bodies of the two inner loops of [do_crashes_run]. *)
Definition store_body (path : string) (crashset : list Z)
  (crashes : gmap string Crash) : M (gmap string Crash) :=
  let crash := mkCrash (os_path_relpath h path crashes_dir) crashset in
  ret (<[_get_crash_key crash := crash]> crashes).

Definition file_body (root filename : string)
  (crashes : gmap string Crash) : M (gmap string Crash) :=
  let crash_testcase_path := OsPath.join root filename in
  let! crashesets :=
    process_crash h app_binary crash_testcase_path crashes_dir in
  for_in crashesets (store_body crash_testcase_path) crashes.

Lemma do_crashes_run_loops :
  do_crashes_run h app_binary crashes_dir
  = for_in (os_walk h crashes_dir)
      (λ '(root, filenames), for_in filenames (file_body root)) ∅.
Proof. reflexivity. Qed.

Lemma file_body_run (root f : string) crashes (tr : list Call) :
  file_body root f crashes tr
  = match process_crash h app_binary (OsPath.join root f) crashes_dir tr
    with
    | (Ok sets, tr1) =>
        for_in sets (store_body (OsPath.join root f)) crashes tr1
    | (Raise e, tr1) => (Raise e, tr1)
    end.
Proof. reflexivity. Qed.

Lemma store_loop_run (path : string) (crashesets : list (list Z)) :
  ∀ crashes tr,
  for_in crashesets (store_body path) crashes tr
  = (Ok (store crashes (map (crash_record path) crashesets)), tr).
Proof.
  induction crashesets as [|cs crashesets IH]; intros crashes tr; [done|].
  rewrite for_in_cons. unfold store_body at 1, ret at 1. by rewrite IH.
Qed.

Lemma files_loop_run (root : string) (filenames : list string) :
  ∀ crashes tr,
  (∀ filename, filename ∈ filenames →
     ∃ sets, crash_sets (OsPath.join root filename) = Ok sets) →
  ∃ tr',
    for_in filenames (file_body root) crashes tr
    = (Ok (store crashes
             (concat (map records_of (map (OsPath.join root) filenames)))),
       tr').
Proof.
  induction filenames as [|f filenames IH]; intros crashes tr Hok.
  { by exists tr. }
  rewrite for_in_cons, file_body_run.
  destruct (process_crash h app_binary (OsPath.join root f) crashes_dir tr)
    as [r tr1] eqn:Hrun.
  pose proof (process_crash_trace_free (OsPath.join root f) tr) as Hfree.
  rewrite Hrun in Hfree. simpl in Hfree.
  destruct (Hok f) as [sets Hsets]; [by left|].
  rewrite Hsets in Hfree. subst r. rewrite store_loop_run.
  destruct (IH (store crashes (map (crash_record (OsPath.join root f)) sets))
              tr1) as [tr' ->].
  { intros f' Hf'. apply Hok. by right. }
  exists tr'. f_equal. f_equal. cbn [map concat].
  rewrite store_app. unfold records_of at 2. by rewrite Hsets.
Qed.

Lemma walk_loop_run (entries : list (string * list string)) :
  ∀ crashes tr,
  (∀ path,
     path ∈ concat (map (λ '(root, filenames),
                           map (OsPath.join root) filenames) entries) →
     ∃ sets, crash_sets path = Ok sets) →
  ∃ tr',
    for_in entries
      (λ '(root, filenames), for_in filenames (file_body root))
      crashes tr
    = (Ok (store crashes
             (concat (map records_of
                (concat (map (λ '(root, filenames),
                                map (OsPath.join root) filenames)
                           entries))))),
       tr').
Proof.
  induction entries as [|[root filenames] entries IH];
    intros crashes tr Hok.
  { by exists tr. }
  rewrite for_in_cons. cbn [map concat] in *.
  destruct (files_loop_run root filenames crashes tr) as [tr1 ->].
  { intros f Hf. apply Hok, elem_of_app. left.
    apply list_elem_of_In, in_map, list_elem_of_In, Hf. }
  destruct (IH (store crashes
                  (concat (map records_of
                             (map (OsPath.join root) filenames)))) tr1)
    as [tr' ->].
  { intros p Hp. apply Hok, elem_of_app. by right. }
  exists tr'. by rewrite map_app, concat_app, store_app.
Qed.

(** C9. When every testcase of the walk is processed without an
    exception, [do_crashes_run] returns a mapping, and of two records
    with the same key the one stored later is the one found under that
    key once no record after it has this key, whatever the testcases
    of the two records are. *)
Theorem do_crashes_run_last_write_wins (tr : list Call) :
  (∀ path, path ∈ walk_paths → ∃ sets, crash_sets path = Ok sets) →
  ∃ crashes,
    (do_crashes_run h app_binary crashes_dir tr).1 = Ok crashes
    ∧ crashes = store ∅ crash_records
    ∧ ∀ pre earlier mid later post,
        crash_records = pre ++ earlier :: mid ++ later :: post →
        _get_crash_key earlier = _get_crash_key later →
        (∀ c, c ∈ post → _get_crash_key c ≠ _get_crash_key later) →
        crashes !! _get_crash_key earlier = Some later.
Proof.
  intros Hok. exists (store ∅ crash_records).
  rewrite do_crashes_run_loops.
  destruct (walk_loop_run (os_walk h crashes_dir) ∅ tr Hok) as [tr' ->].
  split; [done|]. split; [done|].
  intros pre earlier mid later post Hsplit Hkey Hpost.
  rewrite Hsplit, Hkey.
  replace (pre ++ earlier :: mid ++ later :: post)
    with ((pre ++ earlier :: mid) ++ later :: post)
    by (by rewrite <- app_assoc).
  by apply store_last.
Qed.

End CorpusWalk.

(** * Worked runs *)

(** A host whose target prints [baseline_out] on the baseline run and,
    under a directive [d], crashes exactly when [crash_when d] holds; the
    stack-trace classifier reports a heap overflow on every non-empty
    output. *)
Definition demo_host (crash_when : string → bool) (baseline_out : string)
    (filenames : list string) : Host := {|
  UNIT_TIMEOUT := 10;
  RSS_LIMIT_MB := 2048;
  os_environ := ∅;
  set_sanitizer_options := λ env, env;
  new_process_run := λ c,
    match call_env c !! "FIXREVERTER" with
    | None => mkProcessResult 1 baseline_out false
    | Some d =>
        if crash_when d
        then mkProcessResult 1 "ERROR: AddressSanitizer" false
        else mkProcessResult 0 "" false
    end;
  stack_parser_parse := λ _ out,
    if String.eqb out "" then mkCrashInfo None None
    else mkCrashInfo (Some "Heap-buffer-overflow") (Some "frame");
  os_walk := λ dir, [(dir, filenames)];
  os_path_relpath := λ path _, OsPath.basename path;
  set_iter := elements
|}.

Lemma demo_host_iter crash_when out fs :
  set_iter_ok (demo_host crash_when out fs).
Proof. intros X. reflexivity. Qed.

Lemma demo_host_crashing crash_when out fs app path (c : list Z) :
  crashing (demo_host crash_when out fs) app path c
  = crash_when (RunCrashes.directive c).
Proof.
  unfold crashing, RunCrashes.isCrash. cbn -[RunCrashes.directive].
  rewrite lookup_insert_eq.
  by destruct (crash_when (RunCrashes.directive c)).
Qed.

(** The baseline run triggers 1 and 2 and reaches 7; a trial crashes
    when 1 is enabled. *)
Definition out_1_2 : string :=
  lines_of ["a: triggered bug index 1"; "b: reached bug index 7";
            "c: triggered bug index 2"; ""].
Definition host_1 : Host :=
  demo_host (PyStr.contains "1") out_1_2 ["crash-a"; "oom-b"; "crash-c"].

Example host_1_run :
  RunCrashes.process_crash host_1 "/out/target" "/out/crashes/crash-a"
    "/out/crashes" []
  = (Ok [[1]],
     [baseline_call host_1 "/out/target" "/out/crashes/crash-a";
      trial_call host_1 "/out/target" "/out/crashes/crash-a" [2];
      trial_call host_1 "/out/target" "/out/crashes/crash-a" [1]]).
Proof. vm_compute. reflexivity. Qed.

Example host_1_skips_oom :
  RunCrashes.process_crash host_1 "/out/target" "/out/crashes/oom-b"
    "/out/crashes" []
  = (Ok [], []).
Proof. vm_compute. reflexivity. Qed.

Lemma host_1_candidates :
  candidates host_1 {[1; 2]} = [[2]; [1]; [2; 1]].
Proof. vm_compute. reflexivity. Qed.

Lemma process_crash_minimal_nonempty_witness :
  ∃ res,
    (RunCrashes.process_crash host_1 "/out/target" "/out/crashes/crash-a"
       "/out/crashes" []).1 = Ok res
    ∧ returns_exactly
        (minimal_nonempty_crash_set (λ S, bool_decide (1 ∈ S)))
        {[1; 2]} res
    ∧ ∃ cands,
        (RunCrashes.process_crash host_1 "/out/target"
           "/out/crashes/crash-a" "/out/crashes" []).2
        = [] ++ baseline_call host_1 "/out/target" "/out/crashes/crash-a"
             :: map (trial_call host_1 "/out/target" "/out/crashes/crash-a")
                  cands
        ∧ Forall (λ c, c ≠ []) cands
        ∧ trial_call host_1 "/out/target" "/out/crashes/crash-a" []
          ∉ map (trial_call host_1 "/out/target" "/out/crashes/crash-a")
              cands.
Proof.
  apply (process_crash_minimal_nonempty host_1 "/out/target"
           "/out/crashes/crash-a" "/out/crashes"
           (λ S, bool_decide (1 ∈ S)) {[1; 2]} []).
  - apply demo_host_iter.
  - reflexivity.
  - reflexivity.
  - vm_compute. reflexivity.
  - vm_compute. discriminate.
  - intros c Hc. rewrite host_1_candidates in Hc.
    rewrite !elem_of_cons in Hc.
    destruct Hc as [-> | [-> | [-> | Hc]]];
      [vm_compute; reflexivity..|by apply elem_of_nil in Hc].
Defined.

(** C1, as stated, fails.  On [host_all], every run crashes, the one
    with no injection point enabled included, and the baseline run
    triggers 1.  The classification is a function of the candidate's
    set, [process_crash] returns the single set [{1}], and its proper
    subset [∅] reproduces the crash: the returned set is not a minimal
    crash set, and the minimal one is not returned. *)
Definition host_all : Host :=
  demo_host (λ _, true) "x: triggered bug index 1" ["crash-a"].

Lemma process_crash_ignores_empty_subset :
  set_iter_ok host_all
  ∧ skipped "/out/crashes/crash-a" = false
  ∧ RunCrashes.isCrash host_all
      (new_process_run host_all
         (baseline_call host_all "/out/target" "/out/crashes/crash-a"))
      "/out/target" = true
  ∧ RunCrashes.parseFixReverterLog
      (output (new_process_run host_all
                 (baseline_call host_all "/out/target"
                    "/out/crashes/crash-a")))
    = Ok {[1]}
  ∧ (∀ c, crashing host_all "/out/target" "/out/crashes/crash-a" c
          = (λ _ : gset Z, true) (list_to_set c))
  ∧ (RunCrashes.process_crash host_all "/out/target" "/out/crashes/crash-a"
       "/out/crashes" []).1 = Ok [[1]]
  ∧ ¬ returns_exactly (minimal_crash_set (λ _, true)) {[1]} [[1]].
Proof.
  split; [apply demo_host_iter|].
  split; [reflexivity|]. split; [reflexivity|].
  split; [vm_compute; reflexivity|].
  split; [intros c; apply demo_host_crashing|].
  split; [vm_compute; reflexivity|].
  intros [Hret _].
  destruct (Hret [1]) as (_ & _ & Hmin); [by left|].
  specialize (Hmin ∅). discriminate Hmin. set_solver.
Qed.

(** [h] started in another process environment. *)
Definition with_environ (h : Host) (env : gmap string string) : Host := {|
  UNIT_TIMEOUT := UNIT_TIMEOUT h;
  RSS_LIMIT_MB := RSS_LIMIT_MB h;
  os_environ := env;
  set_sanitizer_options := set_sanitizer_options h;
  new_process_run := new_process_run h;
  stack_parser_parse := stack_parser_parse h;
  os_walk := os_walk h;
  os_path_relpath := os_path_relpath h;
  set_iter := set_iter h
|}.

(** The baseline call carries the [FIXREVERTER] value the module was
    started with, if any: started under the directive of the empty
    candidate, it makes as its baseline call the call of that
    candidate.  The calls that follow it are those of non-empty
    candidates all the same. *)
Example baseline_call_inherits_directive :
  baseline_call (with_environ host_1 {["FIXREVERTER" := "on "]})
    "/out/target" "/out/crashes/crash-a"
  = trial_call (with_environ host_1 {["FIXREVERTER" := "on "]})
      "/out/target" "/out/crashes/crash-a" [].
Proof. vm_compute. reflexivity. Qed.

(** Two disjoint minimal crash sets: a trial crashes when exactly one
    injection point, 1 or 2, is enabled alone. *)
Definition host_disjoint : Host :=
  demo_host (λ d, String.eqb d "on 1" || String.eqb d "on 2")%bool
    out_1_2 ["crash-a"].

Example host_disjoint_run :
  RunCrashes.process_crash host_disjoint "/out/target"
    "/out/crashes/crash-a" "/out/crashes" []
  = (Ok [[2]; [1]],
     [baseline_call host_disjoint "/out/target" "/out/crashes/crash-a";
      trial_call host_disjoint "/out/target" "/out/crashes/crash-a" [2];
      trial_call host_disjoint "/out/target" "/out/crashes/crash-a" [1]]).
Proof. vm_compute. reflexivity. Qed.

(** The baseline run crashes, and its log has a triggered line that does
    not end in an integer. *)
Definition host_malformed : Host :=
  demo_host (λ _, true) malformed_output ["crash-a"].

Lemma process_crash_incomparable_witness :
  (¬ ([2] : list Z) ⊆ [1] ∧ ¬ ([1] : list Z) ⊆ [2])
  ∧ RunCrashes.parseFixReverterLog
      (output (new_process_run host_malformed
                 (baseline_call host_malformed "/out/target"
                    "/out/crashes/crash-a")))
    = Raise (ValueError "0x5").
Proof.
  split.
  - destruct (process_crash_incomparable host_disjoint "/out/target"
                "/out/crashes/crash-a" "/out/crashes" [])
      as [Hok _]; [apply demo_host_iter|].
    apply (Hok [[2]; [1]]).
    + vm_compute. reflexivity.
    + set_solver.
    + set_solver.
    + discriminate.
  - destruct (process_crash_incomparable host_malformed "/out/target"
                "/out/crashes/crash-a" "/out/crashes" [])
      as [_ Hraise]; [apply demo_host_iter|].
    apply Hraise. vm_compute. reflexivity.
Defined.

Lemma superset_never_executed_witness :
  (∃ trials,
     (RunCrashes.process_crash host_1 "/out/target" "/out/crashes/crash-a"
        "/out/crashes" []).2
     = baseline_call host_1 "/out/target" "/out/crashes/crash-a" :: trials
     ∧ trial_call host_1 "/out/target" "/out/crashes/crash-a" [1] ∈ trials
     ∧ (trial_call host_1 "/out/target" "/out/crashes/crash-a" [2; 1]
        ∉ trials)
     ∧ (trial_call host_1 "/out/target" "/out/crashes/crash-a" [1; 2]
        ∉ trials))
  ∧ (∃ trials,
       (RunCrashes.process_crash host_disjoint "/out/target"
          "/out/crashes/crash-a" "/out/crashes" []).2
       = baseline_call host_disjoint "/out/target" "/out/crashes/crash-a"
         :: trials
       ∧ ¬ ([2] : list Z) ⊆ [1]
       ∧ (trial_call host_disjoint "/out/target" "/out/crashes/crash-a"
            [2; 1] ∉ trials)).
Proof.
  split.
  - destruct (superset_never_executed host_1 "/out/target"
                "/out/crashes/crash-a" "/out/crashes" [])
      as (trials & Htrace & _ & _ & Hex); [apply demo_host_iter|].
    exists trials. split; [exact Htrace|].
    destruct Hex as [Hone Hboth].
    + reflexivity.
    + reflexivity.
    + vm_compute. reflexivity.
    + vm_compute. reflexivity.
    + split; [exact Hone|]. split; apply Hboth; set_solver.
  - destruct (superset_never_executed host_disjoint "/out/target"
                "/out/crashes/crash-a" "/out/crashes" [])
      as (trials & Htrace & Hlater & Hnever & _); [apply demo_host_iter|].
    exists trials. split; [exact Htrace|].
    assert (Htrials : trials
              = [trial_call host_disjoint "/out/target"
                   "/out/crashes/crash-a" [2];
                 trial_call host_disjoint "/out/target"
                   "/out/crashes/crash-a" [1]]).
    { rewrite host_disjoint_run in Htrace. simpl in Htrace.
      by injection Htrace as <-. }
    split.
    + apply (Hlater
               [trial_call host_disjoint "/out/target"
                  "/out/crashes/crash-a" [2]] [] [2] [1]).
      * exact Htrials.
      * by left.
      * vm_compute. reflexivity.
    + apply (Hnever [2] [2; 1]).
      * rewrite Htrials. by left.
      * vm_compute. reflexivity.
      * set_solver.
      * intros Hsub. specialize (Hsub 1). set_solver.
Defined.

(** The baseline run does not crash: the target exits with no output. *)
Definition host_quiet : Host := demo_host (λ _, true) "" ["crash-a"].

(** A crashing baseline run that triggers nothing. *)
Definition host_untriggered : Host :=
  demo_host (λ _, true) "ERROR: AddressSanitizer" ["crash-a"].

Lemma process_crash_no_trial_witness :
  RunCrashes.process_crash host_quiet "/out/target" "/out/crashes/crash-a"
    "/out/crashes" []
  = (Ok [], [baseline_call host_quiet "/out/target" "/out/crashes/crash-a"])
  ∧ RunCrashes.process_crash host_untriggered "/out/target"
      "/out/crashes/crash-a" "/out/crashes" []
    = (Ok [],
       [baseline_call host_untriggered "/out/target" "/out/crashes/crash-a"]).
Proof.
  split.
  - apply (process_crash_no_trial host_quiet "/out/target"
             "/out/crashes/crash-a" "/out/crashes" []).
    left. reflexivity.
  - apply (process_crash_no_trial host_untriggered "/out/target"
             "/out/crashes/crash-a" "/out/crashes" []).
    right. vm_compute. reflexivity.
Defined.

Example host_untriggered_run :
  RunCrashes.process_crash host_untriggered "/out/target"
    "/out/crashes/crash-a" "/out/crashes" []
  = (Ok [],
     [baseline_call host_untriggered "/out/target" "/out/crashes/crash-a"]).
Proof. vm_compute. reflexivity. Qed.

(** [h] with another stack-trace classifier. *)
Definition with_classifier (h : Host) (parse : string → string → CrashInfo)
    : Host := {|
  UNIT_TIMEOUT := UNIT_TIMEOUT h;
  RSS_LIMIT_MB := RSS_LIMIT_MB h;
  os_environ := os_environ h;
  set_sanitizer_options := set_sanitizer_options h;
  new_process_run := new_process_run h;
  stack_parser_parse := parse;
  os_walk := os_walk h;
  os_path_relpath := os_path_relpath h;
  set_iter := set_iter h
|}.

Lemma isCrash_cases_witness :
  RunCrashes.isCrash host_1 (mkProcessResult 1 "ERROR: AddressSanitizer" false)
    "/out/target" = true
  ∧ RunCrashes.isCrash host_1 (mkProcessResult 0 "" true) "/out/target"
    = false
  ∧ RunCrashes.isCrash
      (with_classifier host_1 (λ _ _, mkCrashInfo (Some "UNKNOWN") (Some "")))
      (mkProcessResult 1 "some output" false) "/out/target" = false
  ∧ RunCrashes.isCrash
      (with_classifier host_1
         (λ _ _, mkCrashInfo (Some "Out-of-memory") (Some "frame")))
      (mkProcessResult 1 "ERROR: libFuzzer: out-of-memory" false)
      "/out/target" = false.
Proof.
  split; [|split; [|split]].
  - destruct (isCrash_cases host_1
                (mkProcessResult 1 "ERROR: AddressSanitizer" false)
                "/out/target") as (_ & _ & _ & Htrue).
    apply Htrue; simpl; discriminate.
  - destruct (isCrash_cases host_1 (mkProcessResult 0 "" true)
                "/out/target") as (Hempty & _).
    apply Hempty. reflexivity.
  - destruct (isCrash_cases
                (with_classifier host_1
                   (λ _ _, mkCrashInfo (Some "UNKNOWN") (Some "")))
                (mkProcessResult 1 "some output" false) "/out/target")
      as (_ & Hstate & _).
    apply Hstate. right. reflexivity.
  - destruct (isCrash_cases
                (with_classifier host_1
                   (λ _ _, mkCrashInfo (Some "Out-of-memory") (Some "frame")))
                (mkProcessResult 1 "ERROR: libFuzzer: out-of-memory" false)
                "/out/target") as (_ & _ & Htype & _).
    apply Htype. right. reflexivity.
Defined.

(** Example 5 of the specification: [crash-a] and [crash-c] both yield
    the trigger set [{1}]; the mapping keeps the record of [crash-c],
    which is processed last. *)
Example host_1_walk :
  (RunCrashes.do_crashes_run host_1 "/out/target" "/out/crashes" []).1
  = Ok {["1" := RunCrashes.mkCrash "crash-c" [1]]}.
Proof. vm_compute. reflexivity. Qed.

Lemma do_crashes_run_last_write_wins_witness :
  ∃ crashes,
    (RunCrashes.do_crashes_run host_1 "/out/target" "/out/crashes" []).1
    = Ok crashes
    ∧ crashes !! RunCrashes._get_crash_key (RunCrashes.mkCrash "crash-a" [1])
      = Some (RunCrashes.mkCrash "crash-c" [1]).
Proof.
  destruct (do_crashes_run_last_write_wins host_1 "/out/target"
              "/out/crashes" []) as (crashes & Hrun & _ & Hlast).
  - intros path Hpath.
    change (walk_paths host_1 "/out/crashes")
      with ["/out/crashes/crash-a"; "/out/crashes/oom-b";
            "/out/crashes/crash-c"] in Hpath.
    rewrite !elem_of_cons in Hpath.
    destruct Hpath as [-> | [-> | [-> | Hpath]]];
      [eexists; vm_compute; reflexivity..|by apply elem_of_nil in Hpath].
  - exists crashes. split; [exact Hrun|].
    apply (Hlast [] (RunCrashes.mkCrash "crash-a" [1]) []
             (RunCrashes.mkCrash "crash-c" [1]) []).
    + vm_compute. reflexivity.
    + reflexivity.
    + intros c Hc. by apply elem_of_nil in Hc.
Defined.

(** The baseline output of [host_1] with other lines between the two
    that mention a triggered bug index; one of them mentions a reached
    bug index and does not end in an integer. *)
Definition out_1_2_other : string :=
  lines_of ["a: triggered bug index 1"; "b: reached bug index seven";
            "exit"; "c: triggered bug index 2"; ""].
Definition host_1_other : Host :=
  demo_host (PyStr.contains "1") out_1_2_other
    ["crash-a"; "oom-b"; "crash-c"].

Lemma crashes_parse_triggered_only_witness :
  RunCrashes.parseFixReverterLog
    (lines_of ["a: triggered bug index 1"; "c: triggered bug index 2"])
  = RunCrashes.parseFixReverterLog out_1_2
  ∧ RunCrashes.parseFixReverterLog
      (lines_of ["a: triggered bug index 1"; "b: reached bug index seven";
                 "c: triggered bug index 2"])
    = RunCrashes.parseFixReverterLog out_1_2
  ∧ (∃ T, RunCrashes.parseFixReverterLog out_1_2 = Ok T)
  ∧ (∃ line, line ∈ PyStr.split newline out_1_2 ∧ mentions_triggered line
             ∧ trailing_id line = Ok 2)
  ∧ (∃ line, line ∈ PyStr.split newline out_1_2 ∧ mentions_triggered line
             ∧ trailing_id line = Ok 1)
  ∧ RunCrashes.process_crash host_1_other "/out/target"
      "/out/crashes/crash-a" "/out/crashes" []
    = RunCrashes.process_crash host_1 "/out/target"
        "/out/crashes/crash-a" "/out/crashes" [].
Proof.
  destruct (crashes_parse_triggered_only host_1 host_1_other "/out/target"
              "/out/crashes/crash-a" "/out/crashes" out_1_2 [])
    as (_ & Hsame & Hret & Hmem & Hcand & Hother).
  split; [apply Hsame; vm_compute; reflexivity|].
  split; [apply Hsame; vm_compute; reflexivity|].
  split; [|split; [|split]].
  - apply Hret. intros line Hin Hm.
    change (PyStr.split newline out_1_2)
      with ["a: triggered bug index 1"; "b: reached bug index 7";
            "c: triggered bug index 2"; ""] in Hin.
    rewrite !elem_of_cons in Hin.
    destruct Hin as [-> | [-> | [-> | [-> | Hin]]]];
      [by exists 1|by exists 7|by exists 2|done|by apply elem_of_nil in Hin].
  - apply (Hmem {[1; 2]}); [vm_compute; reflexivity|set_solver].
  - apply (Hcand (demo_host_iter _ _ _) eq_refl [1] 1); [|by left].
    right. exists [[1]]. split; [vm_compute; reflexivity|by left].
  - apply Hother.
    + reflexivity.
    + split; [reflexivity|]. split; [by intros c|]. split; [by intros X|].
      intros c. unfold host_1_other, host_1.
      by rewrite !demo_host_crashing.
    + vm_compute. reflexivity.
    + reflexivity.
Defined.

(** C10, as stated, fails.  The classifier of [host_report] finds a
    crash where the output holds a sanitizer report.  On the first
    host the report of the baseline run stands on the line that
    mentions a reached bug index; the second host differs in that its
    baseline output lacks this line.  The two outputs have the same
    triggered line and parse alike, the hosts make the same calls and
    classify every trial alike, and yet on the first host the candidate
    [(1)] is run and returned, and on the second nothing is run after
    the baseline and nothing is returned. *)
Definition host_report (baseline_out : string) : Host :=
  with_classifier (demo_host (PyStr.contains "1") baseline_out ["crash-a"])
    (λ _ out,
       if PyStr.contains "ERROR: AddressSanitizer" out
       then mkCrashInfo (Some "Heap-buffer-overflow") (Some "frame")
       else mkCrashInfo None None).
Definition reached_report : string :=
  "b: reached bug index 7 ==1==ERROR: AddressSanitizer: SEGV".
Definition out_report : string :=
  lines_of ["a: triggered bug index 1"; reached_report].
Definition out_no_report : string :=
  lines_of ["a: triggered bug index 1"].

Lemma reached_line_changes_result :
  PyStr.split newline out_report
  = PyStr.split newline out_no_report ++ [reached_report]
  ∧ mentions_reached reached_report = true
  ∧ mentions_triggered reached_report = false
  ∧ same_trials (host_report out_report) (host_report out_no_report)
      "/out/target" "/out/crashes/crash-a"
  ∧ RunCrashes.parseFixReverterLog out_no_report
    = RunCrashes.parseFixReverterLog out_report
  ∧ RunCrashes.process_crash (host_report out_report) "/out/target"
      "/out/crashes/crash-a" "/out/crashes" []
    = (Ok [[1]],
       [baseline_call (host_report out_report) "/out/target"
          "/out/crashes/crash-a";
        trial_call (host_report out_report) "/out/target"
          "/out/crashes/crash-a" [1]])
  ∧ RunCrashes.process_crash (host_report out_no_report) "/out/target"
      "/out/crashes/crash-a" "/out/crashes" []
    = (Ok [],
       [baseline_call (host_report out_no_report) "/out/target"
          "/out/crashes/crash-a"]).
Proof.
  split; [reflexivity|]. split; [reflexivity|]. split; [reflexivity|].
  split; [|split; [|split]]; try (vm_compute; reflexivity).
  split; [reflexivity|]. split; [by intros c|]. split; [by intros X|].
  intros c. unfold crashing, RunCrashes.isCrash.
  cbn -[RunCrashes.directive PyStr.contains].
  by rewrite !lookup_insert_eq.
Qed.

Example crashes_parse_out_1_2 :
  RunCrashes.parseFixReverterLog out_1_2 = Ok {[1; 2]}.
Proof. vm_compute. reflexivity. Qed.

(** * Further properties of the two modules *)

(** ** Integers written and read back *)

Section IntStr.

(** The characters [str] writes: decimal digits and the minus sign. *)
Definition is_digit (a : ascii) : Prop := is_Some (PyStr.digit_of a).
Definition int_char (a : ascii) : Prop := is_digit a ∨ a = "-"%char.

Lemma digit_of_pretty_N_char (d : N) :
  (d < 10)%N → PyStr.digit_of (pretty_N_char d) = Some (Z.of_N d).
Proof.
  intros Hd.
  assert (d = 0 ∨ d = 1 ∨ d = 2 ∨ d = 3 ∨ d = 4 ∨ d = 5 ∨ d = 6 ∨ d = 7
          ∨ d = 8 ∨ d = 9)%N as Hcases by lia.
  repeat (destruct Hcases as [-> | Hcases]; [reflexivity|]).
  by subst.
Qed.

Lemma pretty_N_go_digits (x : N) : ∀ s,
  Forall is_digit (list_ascii_of_string s) →
  Forall is_digit (list_ascii_of_string (pretty_N_go x s)).
Proof.
  induction (N.lt_wf_0 x) as [x _ IH]; intros s Hs.
  assert (x = 0 ∨ 0 < x)%N as [->|Hx] by lia.
  { by rewrite pretty_N_go_0. }
  rewrite pretty_N_go_step by done. apply IH; [by apply N.div_lt|].
  simpl. constructor; [|done]. unfold is_digit.
  rewrite digit_of_pretty_N_char; [done|]. by apply N.mod_lt.
Qed.

Lemma str_chars (z : Z) :
  Forall int_char (list_ascii_of_string (PyStr.str z)).
Proof.
  assert (HN : ∀ p : positive,
             Forall is_digit (list_ascii_of_string (pretty (N.pos p)))).
  { intros p. unfold pretty, pretty_N. case_decide; [done|].
    by apply pretty_N_go_digits. }
  unfold PyStr.str, pretty, pretty_Z. destruct z as [|p|p].
  - repeat constructor. by exists 0.
  - eapply Forall_impl; [apply HN|]. intros a ?. by left.
  - change ("-" +:+ pretty p) with (String "-" (pretty (N.pos p))).
    simpl. constructor; [by right|].
    eapply Forall_impl; [apply HN|]. intros a ?. by left.
Qed.

(** Reading the digits [pretty_N_go] writes in front of [s]. *)
Lemma digits_pretty_N_go (x : N) : ∀ s,
  (0 < x)%N →
  PyStr.digits 0 false (list_ascii_of_string (pretty_N_go x s))
  = PyStr.digits (Z.of_N x) true (list_ascii_of_string s).
Proof.
  induction (N.lt_wf_0 x) as [x _ IH]; intros s Hx.
  rewrite pretty_N_go_step by done.
  assert (Hd : PyStr.digit_of (pretty_N_char (x `mod` 10))
               = Some (Z.of_N (x `mod` 10)))
    by (apply digit_of_pretty_N_char; by apply N.mod_lt).
  assert (Hx10 : (x = 10 * (x `div` 10) + x `mod` 10)%N)
    by (by apply N.div_mod).
  destruct (N.eq_0_gt_0_cases (x `div` 10)) as [Hq|Hq].
  - rewrite Hq, pretty_N_go_0. simpl. rewrite Hd. f_equal. lia.
  - rewrite IH; [|by apply N.div_lt|done]. simpl. rewrite Hd. f_equal. lia.
Qed.

Lemma is_digit_not_space (a : ascii) : is_digit a → PyStr.is_py_space a = false.
Proof.
  unfold is_digit, PyStr.digit_of, PyStr.is_py_space.
  intros [d Hd]. case_match eqn:Hrange; [|done].
  apply andb_true_iff in Hrange as [H1%Z.leb_le H2%Z.leb_le].
  apply orb_false_iff. split.
  - apply Nat.eqb_neq. lia.
  - apply andb_false_iff. right. apply Nat.leb_gt. lia.
Qed.

Lemma int_char_not_space (a : ascii) :
  int_char a → PyStr.is_py_space a = false.
Proof. intros [?| ->]; [by apply is_digit_not_space|done]. Qed.

Lemma lstrip_no_space (l : list ascii) :
  Forall (λ a, PyStr.is_py_space a = false) l → PyStr.lstrip l = l.
Proof. destruct 1 as [|a l Ha _]; simpl; [done|by rewrite Ha]. Qed.

Lemma strip_no_space (l : list ascii) :
  Forall (λ a, PyStr.is_py_space a = false) l → PyStr.strip l = l.
Proof.
  intros Hl. unfold PyStr.strip.
  rewrite (lstrip_no_space l Hl), lstrip_no_space, rev_involutive; [done|].
  apply Forall_forall. intros a Ha.
  apply (proj1 (Forall_forall _ _) Hl).
  apply list_elem_of_In, in_rev. by apply list_elem_of_In.
Qed.

End IntStr.

(** [int_literal] reads back what [str] writes, whatever its length. *)
Lemma int_literal_str (z : Z) : PyStr.int_literal (PyStr.str z) = Ok z.
Proof.
  assert (HN : ∀ p : positive,
             PyStr.digits 0 false (list_ascii_of_string (pretty (N.pos p)))
             = Some (Z.pos p)).
  { intros p. unfold pretty, pretty_N. case_decide; [done|].
    by rewrite digits_pretty_N_go. }
  unfold PyStr.int_literal, PyStr.int_of_chars.
  rewrite strip_no_space
    by (eapply Forall_impl; [apply str_chars|apply int_char_not_space]).
  unfold PyStr.str, pretty, pretty_Z. destruct z as [|p|p].
  - reflexivity.
  - change (pretty p) with (pretty (N.pos p)).
    pose proof (HN p) as Hp.
    assert (Hdig : Forall is_digit
                     (list_ascii_of_string (pretty (N.pos p)))).
    { unfold pretty, pretty_N. case_decide; [done|].
      by apply pretty_N_go_digits. }
    destruct (list_ascii_of_string (pretty (N.pos p))) as [|a l]; [done|].
    apply Forall_cons in Hdig as [[d Hd] _].
    assert (a ≠ "-"%char ∧ a ≠ "+"%char) as [Hm Hpl].
    { split; intros ->; discriminate Hd. }
    replace (match a :: l with
             | "-"%char :: l' => Z.opp <$> PyStr.digits 0 false l'
             | "+"%char :: l' => PyStr.digits 0 false l'
             | l' => PyStr.digits 0 false l'
             end) with (PyStr.digits 0 false (a :: l)); [by rewrite Hp|].
    destruct a as [[] [] [] [] [] [] [] []]; try done.
  - change ("-" +:+ pretty p) with (String "-" (pretty (N.pos p))).
    simpl. by rewrite HN.
Qed.

(** The integers that [int] reads and [str] writes: those of at most
    [int_max_str_digits] digits. *)
Definition within_digit_limit (z : Z) : Prop :=
  Z.abs z < 10 ^ PyStr.int_max_str_digits.

Lemma length_list_ascii_of_string (s : string) :
  length (list_ascii_of_string s) = String.length s.
Proof. induction s as [|a s IH]; simpl; [done|by rewrite IH]. Qed.

Lemma digit_run_digits (l : list ascii) : ∀ count b,
  Forall is_digit l → l ≠ [] →
  PyStr.digit_run count b l = Some (count + Z.of_nat (length l)).
Proof.
  induction l as [|a l IH]; intros count b Hl Hne; [done|].
  apply Forall_cons in Hl as [[d Hd] Hl]. simpl PyStr.digit_run. rewrite Hd.
  destruct l as [|a' l].
  { simpl. f_equal; lia. }
  rewrite IH by done. f_equal; simpl length; lia.
Qed.

Lemma unsigned_digit (a : ascii) (l : list ascii) :
  is_digit a → PyStr.unsigned (a :: l) = a :: l.
Proof.
  intros [d Hd]. unfold PyStr.unsigned.
  destruct a as [[] [] [] [] [] [] [] []]; try done.
Qed.

(** The number of digits [pretty_N_go] writes in front of [s]. *)
Lemma pretty_N_go_length (x : N) : ∀ s,
  (0 < x)%N →
  ∃ n : nat,
    String.length (pretty_N_go x s) = (S n + String.length s)%nat
    ∧ 10 ^ Z.of_nat n ≤ Z.of_N x < 10 ^ Z.of_nat (S n).
Proof.
  induction (N.lt_wf_0 x) as [x _ IH]; intros s Hx.
  rewrite pretty_N_go_step by done.
  assert (Hx10 : (x = 10 * (x `div` 10) + x `mod` 10)%N)
    by (by apply N.div_mod).
  assert (Hmod : (x `mod` 10 < 10)%N) by (by apply N.mod_lt).
  destruct (N.eq_0_gt_0_cases (x `div` 10)) as [Hq|Hq].
  - rewrite Hq, pretty_N_go_0. exists 0%nat. split; [done|].
    change (10 ^ Z.of_nat 0) with 1. change (10 ^ Z.of_nat 1) with 10. lia.
  - destruct (IH (x `div` 10)%N (N.div_lt x 10 Hx eq_refl)
                (String (pretty_N_char (x `mod` 10)) s) Hq)
      as (n & Hlen & Hlow & Hup).
    exists (S n). split; [rewrite Hlen; simpl; lia|].
    rewrite !Nat2Z.inj_succ, !Z.pow_succ_r in * by lia.
    clear Hlen IH. set (q := (x `div` 10)%N) in *.
    set (r := (x `mod` 10)%N) in *. clearbody q r. lia.
Qed.

Lemma str_digit_run (z : Z) :
  ∃ n : Z,
    PyStr.digit_run 0 true
      (PyStr.unsigned (PyStr.strip (list_ascii_of_string (PyStr.str z))))
    = Some n
    ∧ Z.abs z < 10 ^ n
    ∧ 10 ^ (n - 1) ≤ Z.max 1 (Z.abs z).
Proof.
  rewrite strip_no_space
    by (eapply Forall_impl; [apply str_chars|apply int_char_not_space]).
  assert (HN : ∀ p : positive, ∃ n : nat,
             PyStr.digit_run 0 true
               (list_ascii_of_string (pretty (N.pos p)))
             = Some (Z.of_nat (S n))
             ∧ PyStr.unsigned (list_ascii_of_string (pretty (N.pos p)))
               = list_ascii_of_string (pretty (N.pos p))
             ∧ 10 ^ Z.of_nat n ≤ Z.pos p < 10 ^ Z.of_nat (S n)).
  { intros p.
    assert (Hdig : Forall is_digit
                     (list_ascii_of_string (pretty (N.pos p)))).
    { unfold pretty, pretty_N. case_decide; [done|].
      by apply pretty_N_go_digits. }
    destruct (pretty_N_go_length (N.pos p) "") as (n & Hlen & Hb); [done|].
    exists n.
    assert (Hl : length (list_ascii_of_string (pretty (N.pos p))) = S n).
    { rewrite length_list_ascii_of_string. unfold pretty, pretty_N.
      case_decide; [done|]. rewrite Hlen. simpl. lia. }
    split; [|split; [|done]].
    - rewrite digit_run_digits; [by rewrite Hl|done|].
      intros Hnil. by rewrite Hnil in Hl.
    - destruct (list_ascii_of_string (pretty (N.pos p))) as [|a l];
        [done|].
      apply Forall_cons in Hdig as [Ha _]. by apply unsigned_digit. }
  unfold PyStr.str, pretty, pretty_Z. destruct z as [|p|p].
  - exists 1. done.
  - change (pretty p) with (pretty (N.pos p)).
    destruct (HN p) as (n & Hrun & -> & Hlow & Hup).
    exists (Z.of_nat (S n)). split; [done|]. split; [simpl Z.abs; lia|].
    replace (Z.of_nat (S n) - 1) with (Z.of_nat n) by lia.
    simpl Z.abs. lia.
  - change ("-" +:+ pretty p) with (String "-" (pretty (N.pos p))).
    destruct (HN p) as (n & Hrun & _ & Hlow & Hup).
    exists (Z.of_nat (S n)). split; [done|]. split; [simpl Z.abs; lia|].
    replace (Z.of_nat (S n) - 1) with (Z.of_nat n) by lia.
    simpl Z.abs. lia.
Qed.

(** [int] reads back what [str] writes, up to the bound on the number
    of digits. *)
Lemma int_str (z : Z) :
  within_digit_limit z → PyStr.int (PyStr.str z) = Ok z.
Proof.
  unfold within_digit_limit. intros Hz. unfold PyStr.int.
  destruct (str_digit_run z) as (n & -> & _ & Hlow).
  assert (Hn : (PyStr.int_max_str_digits <? n) = false).
  { apply Z.ltb_ge. apply Z.nlt_ge. intros Hlt.
    assert (10 ^ PyStr.int_max_str_digits ≤ 10 ^ (n - 1))
      by (apply Z.pow_le_mono_r; [done|lia]).
    assert (1 < 10 ^ PyStr.int_max_str_digits)
      by (by apply Z.pow_gt_1).
    lia. }
  rewrite Hn. apply int_literal_str.
Qed.

(** Beyond it, [int] refuses what [str] would write. *)
Lemma int_str_long (z : Z) :
  ¬ within_digit_limit z →
  ∃ n, PyStr.int_max_str_digits < n
       ∧ PyStr.int (PyStr.str z) = Raise (ValueErrorDigits n).
Proof.
  unfold within_digit_limit. intros Hz. unfold PyStr.int.
  destruct (str_digit_run z) as (n & -> & Hup & _).
  assert (Hn : PyStr.int_max_str_digits < n).
  { apply Z.nle_gt. intros Hle.
    assert (10 ^ n ≤ 10 ^ PyStr.int_max_str_digits)
      by (apply Z.pow_le_mono_r; [done|done]).
    lia. }
  exists n. split; [done|].
  by rewrite (proj2 (Z.ltb_lt _ _) Hn).
Qed.

Lemma digit_of_range (a : ascii) (d : Z) :
  PyStr.digit_of a = Some d → 0 ≤ d ≤ 9.
Proof.
  unfold PyStr.digit_of. case_match eqn:Hrange; [|done].
  apply andb_true_iff in Hrange as [H1%Z.leb_le H2%Z.leb_le].
  intros [= <-]. lia.
Qed.

(** The value [digits] reads, against the number of digits that
    [digit_run] counts. *)
Lemma digits_bound (l : list ascii) : ∀ acc b count z,
  0 ≤ acc →
  PyStr.digits acc b l = Some z →
  ∃ n, 0 ≤ n
       ∧ PyStr.digit_run count (negb b) l = Some (count + n)
       ∧ acc * 10 ^ n ≤ z < (acc + 1) * 10 ^ n.
Proof.
  induction l as [|a l IH]; intros acc b count z Hacc; simpl.
  { destruct b; [|done]. intros [= <-]. exists 0.
    split; [done|]. split; [f_equal; lia|]. change (10 ^ 0) with 1. lia. }
  destruct (PyStr.digit_of a) as [d|] eqn:Hd.
  - intros Hz. apply digit_of_range in Hd.
    destruct (IH (10 * acc + d) true (count + 1) z) as (n & Hn & Hrun & Hb);
      [lia|done|].
    exists (n + 1). split; [lia|].
    simpl in Hrun. split; [rewrite Hrun; f_equal; lia|].
    rewrite Z.pow_add_r by lia. change (10 ^ 1) with 10.
    assert (0 < 10 ^ n) by (by apply Z.pow_pos_nonneg). nia.
  - destruct (Ascii.eqb a "_"); [|done]. destruct b; [|done]. simpl.
    intros Hz. by apply (IH acc false count z).
Qed.

Lemma int_of_chars_unsigned (l : list ascii) (z : Z) :
  PyStr.int_of_chars l = Some z →
  ∃ z', PyStr.digits 0 false (PyStr.unsigned (PyStr.strip l)) = Some z'
        ∧ Z.abs z = Z.abs z'.
Proof.
  unfold PyStr.int_of_chars, PyStr.unsigned.
  destruct (PyStr.strip l) as [|a l']; [by eauto|].
  destruct a as [[] [] [] [] [] [] [] []];
    try (intros Hz; exists z; by split).
  destruct (PyStr.digits 0 false l') as [z'|]; [|done].
  intros [= <-]. exists z'. split; [done|lia].
Qed.

(** Every integer [int] returns is within the bound, so that [str]
    writes it. *)
Lemma int_within (s : string) (z : Z) :
  PyStr.int s = Ok z → within_digit_limit z.
Proof.
  unfold PyStr.int, within_digit_limit. intros Hint.
  assert (Hlit : PyStr.int_literal s = Ok z
                 ∧ ∀ n, PyStr.digit_run 0 true
                          (PyStr.unsigned
                             (PyStr.strip (list_ascii_of_string s)))
                        = Some n → n ≤ PyStr.int_max_str_digits).
  { destruct (PyStr.digit_run _ _ _) as [n|]; [|done].
    destruct (Z.ltb_spec PyStr.int_max_str_digits n); [done|].
    split; [done|]. intros ? [= <-]. lia. }
  destruct Hlit as [Hlit Hmax]. unfold PyStr.int_literal in Hlit.
  destruct (PyStr.int_of_chars _) as [z0|] eqn:Hz0; [|done].
  injection Hlit as ->.
  apply int_of_chars_unsigned in Hz0 as (z' & Hz' & ->).
  destruct (digits_bound _ 0 false 0 z' (Z.le_refl 0) Hz')
    as (n & Hn & Hrun & Hb).
  specialize (Hmax _ Hrun).
  assert (10 ^ n ≤ 10 ^ PyStr.int_max_str_digits)
    by (apply Z.pow_le_mono_r; [done|lia]).
  lia.
Qed.

(** ** Splitting and joining *)

Section SplitJoin.
Context (sep : ascii).

Definition free_of (s : string) : Prop := sep ∉ list_ascii_of_string s.

Lemma free_of_cons (a : ascii) (s : string) :
  free_of (String a s) ↔ a ≠ sep ∧ free_of s.
Proof. unfold free_of. simpl. rewrite not_elem_of_cons. naive_solver. Qed.

Lemma split_nonempty (s : string) : PyStr.split sep s ≠ [].
Proof.
  destruct s as [|a s]; simpl; [done|].
  destruct (Ascii.eqb a sep); [done|]. by destruct (PyStr.split sep s).
Qed.

Lemma split_free (s : string) : free_of s → PyStr.split sep s = [s].
Proof.
  induction s as [|a s IH]; intros Hs; [done|].
  apply free_of_cons in Hs as [Ha Hs]. simpl.
  destruct (Ascii.eqb_spec a sep); [done|]. by rewrite IH.
Qed.

(** Splitting distributes over a separator. *)
Lemma split_app (t u : string) :
  PyStr.split sep (t +:+ String sep u)
  = PyStr.split sep t ++ PyStr.split sep u.
Proof.
  induction t as [|a t IH]; simpl.
  { by rewrite Ascii.eqb_refl. }
  destruct (Ascii.eqb a sep); [by rewrite IH|].
  rewrite IH. pose proof (split_nonempty t).
  by destruct (PyStr.split sep t).
Qed.

Lemma last_field_app (t u : string) :
  free_of u →
  PyStr.last_field (PyStr.split sep (t +:+ String sep u)) = u.
Proof.
  intros Hu. rewrite split_app, (split_free u Hu).
  unfold PyStr.last_field. apply last_last.
Qed.

Lemma split_join (parts : list string) :
  parts ≠ [] → Forall free_of parts →
  PyStr.split sep (PyStr.join (String sep "") parts) = parts.
Proof.
  induction parts as [|p parts IH]; intros Hne Hall; [done|].
  apply Forall_cons in Hall as [Hp Hall].
  destruct parts as [|q parts]; [by apply split_free|].
  change (PyStr.join (String sep "") (p :: q :: parts))
    with (p +:+ String sep "" +:+ PyStr.join (String sep "") (q :: parts)).
  change (String sep "" +:+ ?x) with (String sep x).
  rewrite split_app, (split_free p Hp). simpl. f_equal. by apply IH.
Qed.

End SplitJoin.

Lemma str_free_of (sep : ascii) (z : Z) :
  ¬ int_char sep → free_of sep (PyStr.str z).
Proof.
  intros Hsep Hin. apply Hsep.
  by apply (proj1 (Forall_forall _ _) (str_chars z)).
Qed.

Lemma space_not_int_char : ¬ int_char " "%char.
Proof. intros [[d Hd]|Heq]; discriminate. Qed.

Lemma plus_not_int_char : ¬ int_char "+"%char.
Proof. intros [[d Hd]|Heq]; discriminate. Qed.

(** ** More on the log parsers *)

(** A line made of any text, a space and an integer written in decimal:
    the ID read from it is that integer. *)
Definition id_line (entry : string * Z) : string :=
  entry.1 +:+ " " +:+ PyStr.str entry.2.

Lemma trailing_id_str (entry : string * Z) :
  trailing_id (id_line entry) = PyStr.int (PyStr.str entry.2).
Proof.
  unfold trailing_id, id_line.
  change (" " +:+ PyStr.str entry.2) with (String " " (PyStr.str entry.2)).
  rewrite last_field_app; [done|].
  apply str_free_of, space_not_int_char.
Qed.

Lemma trailing_id_line (entry : string * Z) :
  within_digit_limit entry.2 → trailing_id (id_line entry) = Ok entry.2.
Proof. intros Hz. rewrite trailing_id_str. by apply int_str. Qed.

(** The IDs of the entries whose line passes the test [keep]. *)
Definition ids_where (keep : string → bool) (entries : list (string * Z))
  : gset Z :=
  list_to_set (map snd (List.filter (λ e, keep (id_line e)) entries)).

Lemma elem_of_ids_where keep entries (i : Z) :
  Forall (λ e, within_digit_limit e.2) entries →
  i ∈ ids_where keep entries
  ↔ ∃ line, line ∈ map id_line entries ∧ keep line ∧ trailing_id line = Ok i.
Proof.
  intros Hlim. pose proof (proj1 (Forall_forall _ _) Hlim) as Hall.
  unfold ids_where. rewrite elem_of_list_to_set, list_elem_of_In, in_map_iff.
  setoid_rewrite filter_In. setoid_rewrite list_elem_of_In.
  setoid_rewrite in_map_iff. split.
  - intros (e & <- & Hin & Hk). exists (id_line e).
    split; [eauto|]. split; [by apply Is_true_true_2|].
    apply trailing_id_line, Hall. by apply list_elem_of_In.
  - intros (line & (e & <- & Hin) & Hk & Hid).
    rewrite trailing_id_line in Hid
      by (apply Hall; by apply list_elem_of_In).
    injection Hid as <-.
    exists e. split; [done|]. split; [done|]. by apply Is_true_true_1.
Qed.

Lemma id_lines_well_formed (keep : string → bool) entries :
  Forall (λ e, within_digit_limit e.2) entries →
  Forall (λ line, keep line → ∃ i, trailing_id line = Ok i)
    (map id_line entries).
Proof.
  intros Hlim. pose proof (proj1 (Forall_forall _ _) Hlim) as Hall.
  apply Forall_forall. intros line Hin _.
  apply list_elem_of_In, in_map_iff in Hin as (e & <- & Hin).
  exists e.2. apply trailing_id_line, Hall. by apply list_elem_of_In.
Qed.

(** X1. On an output all of whose lines end in a space and a decimal
    integer of at most [int_max_str_digits] digits, both parsers
    return, and what they return is read off the lines: the crashes
    parser gives the integers of the lines mentioning a triggered bug
    index; the coverage parser gives those as [triggers] and, as
    [reaches], the integers of the lines mentioning a triggered or a
    reached bug index. *)
Theorem parse_written_ids (output : string) (entries : list (string * Z)) :
  PyStr.split newline output = map id_line entries →
  Forall (λ e, within_digit_limit e.2) entries →
  RunCrashes.parseFixReverterLog output
  = Ok (ids_where mentions_triggered entries)
  ∧ RunCoverage.parseFixReverterLog output
    = Ok (RunCoverage.mkFixReverterCov
            (ids_where cov_matches entries)
            (ids_where mentions_triggered entries)).
Proof.
  intros Hlines Hlim. split.
  - unfold RunCrashes.parseFixReverterLog. fold newline. rewrite Hlines.
    destruct (crash_parse_lines_ok (map id_line entries) ∅
                (id_lines_well_formed _ entries Hlim)) as (T & -> & HT).
    f_equal. apply set_eq. intros i.
    rewrite HT, elem_of_ids_where by done. set_solver.
  - unfold RunCoverage.parseFixReverterLog. fold newline. rewrite Hlines.
    destruct (cov_parse_lines_ok (map id_line entries) ∅ ∅
                (id_lines_well_formed _ entries Hlim))
      as ([R T] & -> & HT & HR).
    simpl in *. f_equal. f_equal; apply set_eq; intros i.
    + rewrite HR, elem_of_ids_where by done. set_solver.
    + rewrite HT, elem_of_ids_where by done. set_solver.
Qed.

Lemma parse_written_ids_witness :
  RunCrashes.parseFixReverterLog
    (lines_of ["a: triggered bug index 12"; "b: reached bug index -3";
               "exit status 1"])
  = Ok {[12]}
  ∧ RunCoverage.parseFixReverterLog
      (lines_of ["a: triggered bug index 12"; "b: reached bug index -3";
                 "exit status 1"])
    = Ok (RunCoverage.mkFixReverterCov {[12; -3]} {[12]}).
Proof.
  destruct (parse_written_ids
              (lines_of ["a: triggered bug index 12";
                         "b: reached bug index -3"; "exit status 1"])
              [("a: triggered bug index", 12); ("b: reached bug index", -3);
               ("exit status", 1)]) as [Hcr Hcov]; [reflexivity| |].
  { repeat constructor; vm_compute; reflexivity. }
  split.
  - rewrite Hcr. f_equal.
  - rewrite Hcov. f_equal.
Defined.

Section ParserAlgebra.

(** The loop of the crashes parser started on [T] adds [T] to what it
    gives when started on the empty set. *)
Lemma crash_parse_lines_start lines : ∀ T,
  RunCrashes.parse_lines lines T
  = py_bind (RunCrashes.parse_lines lines ∅) (λ T0, Ok (T0 ∪ T)).
Proof.
  induction lines as [|line lines IH]; intros T; simpl.
  { f_equal. set_solver. }
  destruct (PyStr.contains "triggered bug index" line); [|apply IH].
  destruct (PyStr.int _) as [i|e]; simpl; [|done].
  rewrite (IH ({[i]} ∪ T)), (IH ({[i]} ∪ ∅)).
  destruct (RunCrashes.parse_lines lines ∅); simpl; [|done].
  f_equal. set_solver.
Qed.

Lemma crash_parse_lines_app l1 l2 : ∀ T,
  RunCrashes.parse_lines (l1 ++ l2) T
  = py_bind (RunCrashes.parse_lines l1 T) (RunCrashes.parse_lines l2).
Proof.
  induction l1 as [|line l1 IH]; intros T; simpl; [done|].
  destruct (PyStr.contains "triggered bug index" line); [|apply IH].
  destruct (PyStr.int _) as [i|e]; simpl; [apply IH|done].
Qed.

Lemma cov_parse_lines_start lines : ∀ R T,
  RunCoverage.parse_lines lines R T
  = py_bind (RunCoverage.parse_lines lines ∅ ∅)
      (λ cov, Ok (RunCoverage.mkFixReverterCov
                    (RunCoverage.reaches cov ∪ R)
                    (RunCoverage.triggers cov ∪ T))).
Proof.
  induction lines as [|line lines IH]; intros R T; simpl.
  { f_equal. f_equal; set_solver. }
  destruct (PyStr.contains "triggered bug index" line).
  { destruct (PyStr.int _) as [i|e]; simpl; [|done].
    rewrite (IH ({[i]} ∪ R) ({[i]} ∪ T)), (IH ({[i]} ∪ ∅) ({[i]} ∪ ∅)).
    destruct (RunCoverage.parse_lines lines ∅ ∅); simpl; [|done].
    f_equal. f_equal; set_solver. }
  destruct (PyStr.contains "reached bug index" line); [|apply IH].
  destruct (PyStr.int _) as [i|e]; simpl; [|done].
  rewrite (IH ({[i]} ∪ R) T), (IH ({[i]} ∪ ∅) ∅).
  destruct (RunCoverage.parse_lines lines ∅ ∅); simpl; [|done].
  f_equal. f_equal; set_solver.
Qed.

Lemma cov_parse_lines_app l1 l2 : ∀ R T,
  RunCoverage.parse_lines (l1 ++ l2) R T
  = py_bind (RunCoverage.parse_lines l1 R T)
      (λ cov, RunCoverage.parse_lines l2 (RunCoverage.reaches cov)
                (RunCoverage.triggers cov)).
Proof.
  induction l1 as [|line l1 IH]; intros R T; simpl; [done|].
  destruct (PyStr.contains "triggered bug index" line).
  { destruct (PyStr.int _) as [i|e]; simpl; [apply IH|done]. }
  destruct (PyStr.contains "reached bug index" line); [|apply IH].
  destruct (PyStr.int _) as [i|e]; simpl; [apply IH|done].
Qed.

(** X2. Parsing two outputs put one after the other, a newline between
    them, is parsing each and taking the unions; the first of the two
    that raises makes the whole raise, with its exception. *)
Theorem parse_concatenation (o1 o2 : string) :
  RunCrashes.parseFixReverterLog (o1 +:+ String newline o2)
  = py_bind (RunCrashes.parseFixReverterLog o1)
      (λ T1, py_bind (RunCrashes.parseFixReverterLog o2)
               (λ T2, Ok (T1 ∪ T2)))
  ∧ RunCoverage.parseFixReverterLog (o1 +:+ String newline o2)
    = py_bind (RunCoverage.parseFixReverterLog o1)
        (λ c1, py_bind (RunCoverage.parseFixReverterLog o2)
                 (λ c2, Ok (RunCoverage.mkFixReverterCov
                              (RunCoverage.reaches c1
                               ∪ RunCoverage.reaches c2)
                              (RunCoverage.triggers c1
                               ∪ RunCoverage.triggers c2)))).
Proof.
  split.
  - unfold RunCrashes.parseFixReverterLog. fold newline.
    rewrite split_app, crash_parse_lines_app.
    destruct (RunCrashes.parse_lines (PyStr.split newline o1) ∅) as [T1|e];
      simpl; [|done].
    rewrite crash_parse_lines_start.
    destruct (RunCrashes.parse_lines (PyStr.split newline o2) ∅); simpl;
      [|done].
    f_equal. set_solver.
  - unfold RunCoverage.parseFixReverterLog. fold newline.
    rewrite split_app, cov_parse_lines_app.
    destruct (RunCoverage.parse_lines (PyStr.split newline o1) ∅ ∅)
      as [c1|e]; simpl; [|done].
    rewrite cov_parse_lines_start.
    destruct (RunCoverage.parse_lines (PyStr.split newline o2) ∅ ∅); simpl;
      [|done].
    f_equal. f_equal; set_solver.
Qed.

(** The two parsers on the same lines. *)
Lemma sibling_parse_lines lines : ∀ R T,
  match RunCoverage.parse_lines lines R T with
  | Ok cov => RunCrashes.parse_lines lines T = Ok (RunCoverage.triggers cov)
  | Raise _ => True
  end
  ∧ match RunCrashes.parse_lines lines T with
    | Ok _ => True
    | Raise _ => ∃ e, RunCoverage.parse_lines lines R T = Raise e
    end.
Proof.
  induction lines as [|line lines IH]; intros R T; simpl; [done|].
  destruct (PyStr.contains "triggered bug index" line).
  { destruct (PyStr.int _) as [i|e]; simpl; [apply IH|eauto]. }
  destruct (PyStr.contains "reached bug index" line); [|apply IH].
  destruct (PyStr.int _) as [i|e]; simpl; [apply IH|].
  split; [done|]. destruct (RunCrashes.parse_lines lines T); eauto.
Qed.

(** X3. On one output, whenever the coverage parser returns, the
    crashes parser returns its [triggers]; and whenever the crashes
    parser raises, so does the coverage parser.  (The converse fails: a
    line mentioning only a reached bug index and ending in no integer
    makes the coverage parser alone raise.) *)
Theorem sibling_parsers_agree (output : string) :
  (∀ cov, RunCoverage.parseFixReverterLog output = Ok cov →
     RunCrashes.parseFixReverterLog output = Ok (RunCoverage.triggers cov))
  ∧ (∀ e, RunCrashes.parseFixReverterLog output = Raise e →
       ∃ e', RunCoverage.parseFixReverterLog output = Raise e')
  ∧ RunCrashes.parseFixReverterLog "b: reached bug index seven" = Ok ∅
  ∧ RunCoverage.parseFixReverterLog "b: reached bug index seven"
    = Raise (ValueError "seven").
Proof.
  unfold RunCoverage.parseFixReverterLog, RunCrashes.parseFixReverterLog.
  pose proof (sibling_parse_lines (PyStr.split "010" output) ∅ ∅)
    as [Hcov Hcr].
  split; [|split; [|split; reflexivity]].
  - intros cov Hok. by rewrite Hok in Hcov.
  - intros e He. by rewrite He in Hcr.
Qed.

Lemma sibling_parsers_agree_witness :
  RunCrashes.parseFixReverterLog example1_output = Ok {[4]}
  ∧ ∃ e', RunCoverage.parseFixReverterLog malformed_output = Raise e'.
Proof.
  split.
  - destruct (sibling_parsers_agree example1_output) as (Hok & _).
    refine (Hok (RunCoverage.mkFixReverterCov {[4]} {[4]}) _).
    vm_compute. reflexivity.
  - destruct (sibling_parsers_agree malformed_output) as (_ & Hraise & _).
    apply (Hraise (ValueError "0x5")). vm_compute. reflexivity.
Defined.

(** X4. What the crashes parser returns depends on which lines occur in
    the output, not on their order nor on how often each occurs. *)
Theorem crashes_parse_same_lines (o1 o2 : string) (T : gset Z) :
  (∀ line, line ∈ PyStr.split newline o1 ↔ line ∈ PyStr.split newline o2) →
  RunCrashes.parseFixReverterLog o1 = Ok T →
  RunCrashes.parseFixReverterLog o2 = Ok T.
Proof.
  unfold RunCrashes.parseFixReverterLog. fold newline.
  intros Hsame H1.
  pose proof (crash_parse_lines_ok_inv _ _ _ H1) as Hwf1.
  destruct (crash_parse_lines_ok _ ∅ Hwf1) as (T1 & HT1 & Hin1).
  rewrite H1 in HT1. injection HT1 as <-.
  assert (Hwf2 : Forall (λ line, mentions_triggered line →
                           ∃ i, trailing_id line = Ok i)
                   (PyStr.split newline o2)).
  { apply Forall_forall. intros line Hin.
    apply (proj1 (Forall_forall _ _) Hwf1). by apply Hsame. }
  destruct (crash_parse_lines_ok _ ∅ Hwf2) as (T2 & -> & Hin2).
  f_equal. apply set_eq. intros i. rewrite Hin1, Hin2.
  by setoid_rewrite Hsame.
Qed.

Lemma crashes_parse_same_lines_witness :
  RunCrashes.parseFixReverterLog
    (lines_of ["c: triggered bug index 2"; "a: triggered bug index 1";
               "c: triggered bug index 2"])
  = Ok {[1; 2]}.
Proof.
  apply (crashes_parse_same_lines
           (lines_of ["a: triggered bug index 1"; "c: triggered bug index 2"])).
  - intros line.
    change (PyStr.split newline
              (lines_of ["a: triggered bug index 1";
                         "c: triggered bug index 2"]))
      with ["a: triggered bug index 1"; "c: triggered bug index 2"].
    change (PyStr.split newline
              (lines_of ["c: triggered bug index 2";
                         "a: triggered bug index 1";
                         "c: triggered bug index 2"]))
      with ["c: triggered bug index 2"; "a: triggered bug index 1";
            "c: triggered bug index 2"].
    set_solver.
  - vm_compute. reflexivity.
Defined.

End ParserAlgebra.

(** ** The coverage run of [fixreverter_run_coverage.py] *)

Module CoverageRun.

Section WithHost.
Context (h : Host).

Definition process_coverage
    (app_binary testcase_path new_units_dir : string)
    : M RunCoverage.FixReverterCov :=
  let env := set_sanitizer_options h (os_environ h) in
  let command :=
    [app_binary;
     "-timeout=" +:+ PyStr.str (UNIT_TIMEOUT h);
     "-rss_limit_mb=" +:+ PyStr.str (RSS_LIMIT_MB h);
     testcase_path] in
  let app_binary_dir := OsPath.dirname app_binary in
  let! result :=
    RunCrashes.execute h command env app_binary_dir (UNIT_TIMEOUT h + 5) in
  lift (RunCoverage.parseFixReverterLog (output result)).

(** The two accumulators [reaches] and [triggers] are the loop state. *)
Definition do_coverage_run (app_binary new_units_dir : string)
    : M RunCoverage.FixReverterCov :=
  let! acc :=
    for_in (os_walk h new_units_dir)
      (λ '(root, filenames),
         for_in filenames
           (λ filename '(reaches, triggers),
              let testcase_path := OsPath.join root filename in
              let! cov :=
                process_coverage app_binary testcase_path new_units_dir in
              ret (reaches ∪ RunCoverage.reaches cov,
                   triggers ∪ RunCoverage.triggers cov)))
      (∅, ∅) in
  ret (RunCoverage.mkFixReverterCov acc.1 acc.2).

End WithHost.

End CoverageRun.

(** Loops over mapped and over concatenated lists. *)
Lemma for_in_map {A B S} (f : A → B) (xs : list A) (body : B → S → M S) :
  ∀ s tr, for_in (map f xs) body s tr = for_in xs (λ x, body (f x)) s tr.
Proof.
  induction xs as [|x xs IH]; intros s tr; [done|].
  cbn [map]. rewrite !for_in_cons. destruct (body (f x) s tr) as [[s'|e] tr'];
    [apply IH|done].
Qed.

Lemma for_in_concat {A S} (ls : list (list A)) (body : A → S → M S) :
  ∀ s tr,
  for_in (concat ls) body s tr = for_in ls (λ l, for_in l body) s tr.
Proof.
  induction ls as [|l ls IH]; intros s tr; [done|].
  cbn [concat]. rewrite for_in_cons.
  revert s tr. induction l as [|x l IHl]; intros s tr; [apply IH|].
  cbn [app]. rewrite !for_in_cons.
  destruct (body x s tr) as [[s'|e] tr']; [apply IHl|done].
Qed.

Lemma for_in_ext {A S} (xs : list A) (body1 body2 : A → S → M S) :
  (∀ x s tr, body1 x s tr = body2 x s tr) →
  ∀ s tr, for_in xs body1 s tr = for_in xs body2 s tr.
Proof.
  intros Hext. induction xs as [|x xs IH]; intros s tr; [done|].
  rewrite !for_in_cons, Hext. destruct (body2 x s tr) as [[s'|e] tr'];
    [apply IH|done].
Qed.

Section CoverageWalk.
Import RunCoverage.
Context (h : Host) (app_binary new_units_dir : string).

(** What the parser makes of the output of the run on a testcase.  The
    call is the one the crash run makes as its baseline. *)
Definition unit_cov (path : string) : py FixReverterCov :=
  parseFixReverterLog
    (output (new_process_run h (baseline_call h app_binary path))).

(** One turn of the inner loop of [do_coverage_run]. *)
Definition cov_step (path : string) (acc : gset Z * gset Z)
    : M (gset Z * gset Z) :=
  let '(reaches, triggers) := acc in
  let! cov :=
    CoverageRun.process_coverage h app_binary path new_units_dir in
  ret (reaches ∪ RunCoverage.reaches cov,
       triggers ∪ RunCoverage.triggers cov).

Lemma cov_step_run (path : string) (R T : gset Z) (tr : list Call) :
  cov_step path (R, T) tr
  = match unit_cov path with
    | Ok cov =>
        (Ok (R ∪ reaches cov, T ∪ triggers cov),
         tr ++ [baseline_call h app_binary path])
    | Raise e => (Raise e, tr ++ [baseline_call h app_binary path])
    end.
Proof.
  unfold cov_step, CoverageRun.process_coverage, bind, RunCrashes.execute,
    lift, ret, unit_cov, baseline_call, command, base_env.
  by destruct (parseFixReverterLog _).
Qed.

Lemma do_coverage_run_loops (tr : list Call) :
  CoverageRun.do_coverage_run h app_binary new_units_dir tr
  = match for_in (walk_paths h new_units_dir) cov_step (∅, ∅) tr with
    | (Ok acc, tr') => (Ok (mkFixReverterCov acc.1 acc.2), tr')
    | (Raise e, tr') => (Raise e, tr')
    end.
Proof.
  assert (Hloop : ∀ s tr0,
            for_in (walk_paths h new_units_dir) cov_step s tr0
            = for_in (os_walk h new_units_dir)
                (λ '(root, filenames),
                   for_in filenames
                     (λ filename '(reaches, triggers),
                        let testcase_path := OsPath.join root filename in
                        let! cov :=
                          CoverageRun.process_coverage h app_binary
                            testcase_path new_units_dir in
                        ret (reaches ∪ RunCoverage.reaches cov,
                             triggers ∪ RunCoverage.triggers cov)))
                s tr0).
  { intros s tr0. unfold walk_paths. rewrite for_in_concat, for_in_map.
    apply for_in_ext. intros [root filenames] s1 tr1. rewrite for_in_map.
    apply for_in_ext. by intros filename [R T] tr2. }
  rewrite Hloop. unfold CoverageRun.do_coverage_run, bind at 1.
  by destruct (for_in _ _ _ _) as [[acc|e] tr'].
Qed.

Lemma cov_steps_ok (paths : list string) : ∀ R T tr,
  (∀ p, p ∈ paths → ∃ cov, unit_cov p = Ok cov) →
  ∃ R' T',
    for_in paths cov_step (R, T) tr
    = (Ok (R', T'), tr ++ map (baseline_call h app_binary) paths)
    ∧ (∀ i, i ∈ R' ↔
         i ∈ R ∨ ∃ p cov, p ∈ paths ∧ unit_cov p = Ok cov
                          ∧ i ∈ reaches cov)
    ∧ (∀ i, i ∈ T' ↔
         i ∈ T ∨ ∃ p cov, p ∈ paths ∧ unit_cov p = Ok cov
                          ∧ i ∈ triggers cov).
Proof.
  induction paths as [|p paths IH]; intros R T tr Hok.
  { exists R, T. rewrite app_nil_r. split; [done|].
    split; intros i; split; try tauto;
      intros [?|(p & ? & Hin & _)]; try done; by apply elem_of_nil in Hin. }
  rewrite for_in_cons, cov_step_run.
  destruct (Hok p) as [cov Hcov]; [by left|]. rewrite Hcov.
  destruct (IH (R ∪ reaches cov) (T ∪ triggers cov)
              (tr ++ [baseline_call h app_binary p])) as (R' & T' & -> & HR & HT).
  { intros p' Hp'. apply Hok. by right. }
  exists R', T'. split; [by rewrite <- app_assoc|].
  split; intros i; [rewrite HR|rewrite HT]; rewrite elem_of_union;
    setoid_rewrite elem_of_cons; split.
  - intros [[?|?]|(p' & c & ? & ? & ?)]; eauto 10.
  - intros [?|(p' & c & [->|?] & Hc & ?)]; eauto 10.
    rewrite Hcov in Hc. injection Hc as <-. auto.
  - intros [[?|?]|(p' & c & ? & ? & ?)]; eauto 10.
  - intros [?|(p' & c & [->|?] & Hc & ?)]; eauto 10.
    rewrite Hcov in Hc. injection Hc as <-. auto.
Qed.

Lemma cov_steps_raise (pre post : list string) (p : string) (e : exn) :
  ∀ R T tr,
  (∀ q, q ∈ pre → ∃ cov, unit_cov q = Ok cov) →
  unit_cov p = Raise e →
  for_in (pre ++ p :: post) cov_step (R, T) tr
  = (Raise e, tr ++ map (baseline_call h app_binary) (pre ++ [p])).
Proof.
  induction pre as [|q pre IH]; intros R T tr Hok He.
  { cbn [app]. by rewrite for_in_cons, cov_step_run, He. }
  cbn [app]. rewrite for_in_cons, cov_step_run.
  destruct (Hok q) as [cov Hcov]; [by left|]. rewrite Hcov.
  rewrite IH; [|intros q' Hq'; apply Hok; by right|done].
  cbn [map]. by rewrite <- app_assoc.
Qed.

Lemma cov_parse_invariant (output : string) (cov : FixReverterCov) :
  parseFixReverterLog output = Ok cov → triggers cov ⊆ reaches cov.
Proof.
  intros Hok. pose proof (cov_parse_lines_ok_inv _ _ _ _ Hok) as Hwf.
  destruct (cov_parse_lines_ok _ ∅ ∅ Hwf) as (cov' & Hok' & HT & HR).
  unfold parseFixReverterLog in Hok. rewrite Hok in Hok'.
  injection Hok' as <-. intros i. rewrite HT, HR.
  intros [?|(line & ? & Hm & ?)]; [by left|]. right. exists line.
  unfold cov_matches. rewrite orb_True. auto.
Qed.

(** X5. When the output of every testcase of the walk parses, the
    coverage run makes one call per testcase, in the order of the walk,
    each the call the crash run makes as its baseline (no file is left
    out for its name, and no [FIXREVERTER] directive is set).  It
    returns the unions of the sets parsed from the outputs, and the
    returned [reaches] includes the returned [triggers]. *)
Theorem do_coverage_run_union (tr : list Call) :
  (∀ p, p ∈ walk_paths h new_units_dir → ∃ cov, unit_cov p = Ok cov) →
  ∃ total,
    CoverageRun.do_coverage_run h app_binary new_units_dir tr
    = (Ok total,
       tr ++ map (baseline_call h app_binary) (walk_paths h new_units_dir))
    ∧ (∀ i, i ∈ reaches total ↔
         ∃ p cov, p ∈ walk_paths h new_units_dir ∧ unit_cov p = Ok cov
                  ∧ i ∈ reaches cov)
    ∧ (∀ i, i ∈ triggers total ↔
         ∃ p cov, p ∈ walk_paths h new_units_dir ∧ unit_cov p = Ok cov
                  ∧ i ∈ triggers cov)
    ∧ triggers total ⊆ reaches total.
Proof.
  intros Hok. rewrite do_coverage_run_loops.
  destruct (cov_steps_ok _ ∅ ∅ tr Hok) as (R & T & -> & HR & HT).
  exists (mkFixReverterCov R T). split; [done|]. simpl.
  assert (HR' : ∀ i, i ∈ R ↔
            ∃ p cov, p ∈ walk_paths h new_units_dir ∧ unit_cov p = Ok cov
                     ∧ i ∈ reaches cov).
  { intros i. rewrite HR. split; [intros [?|?]; [set_solver|done]|by right]. }
  assert (HT' : ∀ i, i ∈ T ↔
            ∃ p cov, p ∈ walk_paths h new_units_dir ∧ unit_cov p = Ok cov
                     ∧ i ∈ triggers cov).
  { intros i. rewrite HT. split; [intros [?|?]; [set_solver|done]|by right]. }
  split; [done|]. split; [done|].
  intros i. rewrite HT', HR'. intros (p & cov & ? & Hcov & ?).
  exists p, cov. split; [done|]. split; [done|].
  by apply (cov_parse_invariant _ _ Hcov).
Qed.

(** X6. The first testcase of the walk whose output does not parse
    makes the coverage run raise its exception: the testcases after it
    are not run, and what was gathered before it is not returned. *)
Theorem do_coverage_run_aborts (tr : list Call)
    (pre post : list string) (p : string) (e : exn) :
  walk_paths h new_units_dir = pre ++ p :: post →
  (∀ q, q ∈ pre → ∃ cov, unit_cov q = Ok cov) →
  unit_cov p = Raise e →
  CoverageRun.do_coverage_run h app_binary new_units_dir tr
  = (Raise e, tr ++ map (baseline_call h app_binary) (pre ++ [p])).
Proof.
  intros Hsplit Hok He.
  by rewrite do_coverage_run_loops, Hsplit, (cov_steps_raise _ _ _ e).
Qed.

End CoverageWalk.

(** ** Counting the selections of a pool *)

Section Counting.
Context {A : Type}.
Implicit Types (pool : list A) (n m : nat).

(** The number of selections of a size below [m]. *)
Fixpoint selections_below pool m : nat :=
  match m with
  | O => O
  | S m' => (selections_below pool m' + length (combinations pool m'))%nat
  end.

Lemma combinations_too_big pool : ∀ n,
  (length pool < n)%nat → combinations pool n = [].
Proof.
  induction pool as [|x pool IH]; intros [|n] Hn; simpl in *; try lia; [done|].
  rewrite (IH n), (IH (S n)) by lia. done.
Qed.

Lemma length_combinations_cons x pool n :
  length (combinations (x :: pool) (S n))
  = (length (combinations pool n) + length (combinations pool (S n)))%nat.
Proof. simpl. by rewrite length_app, length_map. Qed.

Lemma length_combinations_0 pool : length (combinations pool 0) = 1%nat.
Proof. by destruct pool. Qed.

Lemma selections_below_cons x pool m :
  selections_below (x :: pool) (S m)
  = (selections_below pool (S m) + selections_below pool m)%nat.
Proof.
  induction m as [|m IH].
  { simpl. rewrite length_combinations_0. by destruct pool. }
  change (selections_below (x :: pool) (S (S m)))
    with (selections_below (x :: pool) (S m)
          + length (combinations (x :: pool) (S m)))%nat.
  rewrite IH, length_combinations_cons. simpl. lia.
Qed.

Lemma selections_below_all pool :
  selections_below pool (S (length pool)) = (2 ^ length pool)%nat.
Proof.
  induction pool as [|x pool IH]; [done|].
  cbn [length]. rewrite selections_below_cons.
  change (selections_below pool (S (S (length pool))))
    with (selections_below pool (S (length pool))
          + length (combinations pool (S (length pool))))%nat.
  rewrite combinations_too_big by lia. rewrite IH. simpl. lia.
Qed.

Lemma length_concat_combinations pool : ∀ m start,
  (length (concat (map (combinations pool) (seq start m)))
   + selections_below pool start)%nat
  = selections_below pool (start + m).
Proof.
  induction m as [|m IH]; intros start; simpl.
  { by rewrite Nat.add_0_r. }
  rewrite length_app, <- Nat.add_succ_comm, <- (IH (S start)). simpl. lia.
Qed.

(** There are [2 ^ k - 1] non-empty selections of a pool of [k]. *)
Lemma length_nonempty_selections pool :
  length (concat (map (combinations pool) (seq 1 (length pool))))
  = (2 ^ length pool - 1)%nat.
Proof.
  pose proof (length_concat_combinations pool (length pool) 1) as Hlen.
  change (1 + length pool)%nat with (S (length pool)) in Hlen.
  rewrite (selections_below_all pool) in Hlen.
  change (selections_below pool 1)
    with (0 + length (combinations pool 0))%nat in Hlen.
  rewrite length_combinations_0 in Hlen. lia.
Qed.

Lemma combinations_NoDup pool : ∀ n, NoDup pool → NoDup (combinations pool n).
Proof.
  induction pool as [|x pool IH]; intros [|n] Hnd; simpl;
    try (by apply NoDup_singleton); [constructor|].
  apply NoDup_cons in Hnd as [Hx Hnd]. apply NoDup_app. split; [|split].
  - change (map (cons x) (combinations pool n))
      with (cons x <$> combinations pool n).
    apply NoDup_fmap_2; [|by apply IH]. by intros c1 c2 [=].
  - intros c Hc Hc'.
    apply list_elem_of_In, in_map_iff in Hc as (c0 & <- & _).
    apply elem_of_combinations in Hc' as [Hsub _].
    destruct Hx. eapply elem_of_sublist; [|done]. by left.
  - by apply IH.
Qed.

Lemma concat_combinations_NoDup pool (sizes : list nat) :
  NoDup pool → NoDup sizes →
  NoDup (concat (map (combinations pool) sizes)).
Proof.
  intros Hpool. induction sizes as [|n sizes IH]; intros Hs; [constructor|].
  apply NoDup_cons in Hs as [Hn Hs]. cbn [map concat].
  apply NoDup_app. split; [by apply combinations_NoDup|]. split; [|by apply IH].
  intros c [_ Hlen]%elem_of_combinations Hc.
  apply list_elem_of_In, in_concat in Hc as (l & Hl & Hc).
  apply in_map_iff in Hl as (n' & <- & Hn').
  apply list_elem_of_In, elem_of_combinations in Hc as [_ Hlen'].
  destruct Hn. apply list_elem_of_In. congruence.
Qed.

End Counting.

(** ** More on the minimiser *)

Lemma filter_sublist {A} (f : A → bool) (l : list A) :
  List.filter f l `sublist_of` l.
Proof.
  induction l as [|x l IH]; simpl; [done|].
  destruct (f x); [by apply sublist_skip|by apply sublist_cons].
Qed.

Section MinimizerCost.
Import RunCrashes.
Context (h : Host) (app_binary crash_testcase_path crashes_dir : string).

Local Abbreviation baseline := (baseline_call h app_binary crash_testcase_path).
Local Abbreviation trial := (trial_call h app_binary crash_testcase_path).
Local Abbreviation crashes_on := (crashing h app_binary crash_testcase_path).
Local Abbreviation run :=
  (process_crash h app_binary crash_testcase_path crashes_dir).
Local Abbreviation tried_from := (tried h app_binary crash_testcase_path).
Local Abbreviation confirmed_from := (confirmed h app_binary crash_testcase_path).
Local Abbreviation trials_of :=
  (trial_candidates h app_binary crash_testcase_path).

Lemma length_candidates (T : gset Z) :
  set_iter_ok h → length (candidates h T) = (2 ^ size T - 1)%nat.
Proof.
  intros Hiter. unfold candidates.
  rewrite <- (length_set_iter h Hiter T). apply length_nonempty_selections.
Qed.

Lemma candidates_NoDup (T : gset Z) :
  set_iter_ok h → NoDup (candidates h T).
Proof.
  intros Hiter. apply concat_combinations_NoDup;
    [by apply set_iter_NoDup|apply NoDup_seq].
Qed.

(** The candidates run are candidates of the set parsed from the
    baseline output, when there is one. *)
Lemma trials_of_cases :
  trials_of = []
  ∨ ∃ T, skipped crash_testcase_path = false
         ∧ isCrash h (new_process_run h baseline) app_binary = true
         ∧ parseFixReverterLog (output (new_process_run h baseline)) = Ok T
         ∧ T ≠ ∅
         ∧ trials_of = tried_from (candidates h T) [].
Proof.
  unfold trial_candidates. destruct (skipped _); [by left|]. simpl.
  destruct (isCrash _ _ _); simpl; [|by left].
  destruct (parseFixReverterLog _) as [T|e]; [|by left].
  case_bool_decide as Hsz; [by left|]. right. exists T.
  repeat split; try done. intros ->. by rewrite size_empty in Hsz.
Qed.

(** X7. A call of [process_crash] starts the target at most [2 ^ k]
    times, where [k] is the number of IDs parsed from the baseline
    output: the baseline run and at most [2 ^ k - 1] trials. *)
Theorem process_crash_call_bound (tr : list Call) (T : gset Z) :
  set_iter_ok h →
  parseFixReverterLog (output (new_process_run h baseline)) = Ok T →
  (length (run tr).2 ≤ length tr + 2 ^ size T)%nat.
Proof.
  intros Hiter HT. rewrite process_crash_trace, length_app.
  assert (1 ≤ 2 ^ size T)%nat by (apply Nat.neq_0_lt_0, Nat.pow_nonzero; lia).
  destruct (skipped _); simpl; [lia|]. rewrite length_map.
  destruct trials_of_cases as [->|(T' & _ & _ & HT' & _ & ->)]; simpl; [lia|].
  rewrite HT in HT'. injection HT' as <-.
  pose proof (sublist_length _ _ (tried_sublist h app_binary
    crash_testcase_path (candidates h T) [])) as Hlen.
  rewrite (length_candidates T Hiter) in Hlen. lia.
Qed.

Lemma tried_none_crash (cands : list (list Z)) :
  (∀ c, c ∈ cands → crashes_on c = false) →
  tried_from cands [] = cands ∧ confirmed_from cands [] = [].
Proof.
  induction cands as [|c cands IH]; intros Hno; [done|]. simpl.
  unfold record_outcome. rewrite (Hno c) by left.
  destruct IH as [-> ->]; [intros c' Hc'; apply Hno; by right|]. done.
Qed.

(** X8. The bound is reached: when the baseline run crashes with [k]
    triggered IDs and no candidate reproduces the crash, every one of
    the [2 ^ k - 1] non-empty selections is run, and nothing is
    returned. *)
Theorem process_crash_worst_case (tr : list Call) (T : gset Z) :
  set_iter_ok h →
  skipped crash_testcase_path = false →
  isCrash h (new_process_run h baseline) app_binary = true →
  parseFixReverterLog (output (new_process_run h baseline)) = Ok T →
  T ≠ ∅ →
  (∀ c, c ∈ candidates h T → crashes_on c = false) →
  run tr = (Ok [], tr ++ baseline :: map trial (candidates h T))
  ∧ length (candidates h T) = (2 ^ size T - 1)%nat.
Proof.
  intros Hiter Hskip Hcrash HT Hne Hno.
  split; [|by apply length_candidates].
  rewrite process_crash_run, Hskip. simpl. rewrite Hcrash, HT. simpl.
  case_bool_decide as Hsz.
  { apply size_empty_iff, leibniz_equiv in Hsz. done. }
  by destruct (tried_none_crash (candidates h T) Hno) as [-> ->].
Qed.

(** X9. No candidate is run twice: the calls that follow the baseline
    call are pairwise different. *)
Theorem process_crash_no_repeat (tr : list Call) :
  set_iter_ok h →
  ∃ trials,
    (run tr).2
    = tr ++ (if skipped crash_testcase_path then [] else baseline :: trials)
    ∧ NoDup trials.
Proof.
  intros Hiter. exists (map trial trials_of).
  split; [apply process_crash_trace|].
  change (map trial trials_of) with (trial <$> trials_of).
  apply NoDup_fmap_2; [intros c1 c2; apply trial_call_inj|].
  destruct trials_of_cases as [->|(T & _ & _ & _ & _ & ->)]; [constructor|].
  eapply sublist_NoDup; [by apply candidates_NoDup|apply tried_sublist].
Qed.

(** X10. Every triggered injection point is tried alone: when the
    baseline run crashes and [i] is among the IDs parsed from its
    output, the call for the candidate [i] is in the trace, and this
    candidate is returned exactly when its run is classified as a
    crash. *)
Theorem every_trigger_tried_alone (tr : list Call) (T : gset Z) (i : Z) :
  set_iter_ok h →
  skipped crash_testcase_path = false →
  isCrash h (new_process_run h baseline) app_binary = true →
  parseFixReverterLog (output (new_process_run h baseline)) = Ok T →
  i ∈ T →
  trial [i] ∈ (run tr).2
  ∧ (crashes_on [i] = true ↔ ∃ res, (run tr).1 = Ok res ∧ [i] ∈ res).
Proof.
  intros Hiter Hskip Hcrash HT Hi.
  assert (Hne : T ≠ ∅) by set_solver.
  assert (Hcand : [i] ∈ candidates h T).
  { destruct (candidate_of_subset h Hiter T {[i]}) as (c & Hc & Hset);
      [set_solver..|].
    replace [i] with c; [done|].
    apply (elem_of_candidates h Hiter) in Hc as Hc'.
    destruct Hc' as [Hsub Hcne].
    apply singleton_tuple; [done| |set_solver].
    exact (sublist_NoDup _ _ (set_iter_NoDup h Hiter _) Hsub). }
  destruct (confirmed_candidates_inv h app_binary crash_testcase_path T Hiter)
    as [Hsound _ _].
  assert (Htried : [i] ∈ tried_from (candidates h T) []).
  { destruct (tried_or_pruned h app_binary crash_testcase_path
                (candidates h T) [] [i] Hcand) as [?|(s & Hs & Hsub)]; [done|].
    destruct (Hsound s Hs) as [Hscand _].
    apply (elem_of_candidates h Hiter) in Hscand as Hs'.
    destruct Hs' as [Hssub Hsne].
    assert (s = [i]) as ->.
    { apply singleton_tuple; [done| |done].
      exact (sublist_NoDup _ _ (set_iter_NoDup h Hiter _) Hssub). }
    rewrite confirmed_tried in Hs. simpl in Hs.
    apply list_elem_of_In, filter_In in Hs as [Hs _].
    by apply list_elem_of_In. }
  assert (Hres : (run tr).1 = Ok (confirmed_from (candidates h T) []))
    by (by apply process_crash_confirmed).
  split.
  - rewrite process_crash_trace, Hskip.
    apply elem_of_app. right. right.
    apply elem_of_trials.
    unfold trial_candidates. rewrite Hskip. simpl. rewrite Hcrash, HT. simpl.
    case_bool_decide as Hsz; [|done].
    apply size_empty_iff, leibniz_equiv in Hsz. done.
  - split.
    + intros Hcr. eexists. split; [exact Hres|].
      rewrite confirmed_tried. simpl.
      apply list_elem_of_In, filter_In. split; [|done].
      by apply list_elem_of_In.
    + intros (res & Hres' & Hin). rewrite Hres in Hres'.
      injection Hres' as <-. by destruct (Hsound [i] Hin).
Qed.

End MinimizerCost.

Section MinimizerShape.
Import RunCrashes.
Context (h : Host) (app_binary crash_testcase_path crashes_dir : string).

Local Abbreviation baseline :=
  (baseline_call h app_binary crash_testcase_path).
Local Abbreviation trial := (trial_call h app_binary crash_testcase_path).
Local Abbreviation crashes_on :=
  (crashing h app_binary crash_testcase_path).
Local Abbreviation run :=
  (process_crash h app_binary crash_testcase_path crashes_dir).
Local Abbreviation tried_from := (tried h app_binary crash_testcase_path).
Local Abbreviation confirmed_from :=
  (confirmed h app_binary crash_testcase_path).

(** X11. The list returned by [process_crash] holds no tuple twice,
    lists the smaller tuples first, and each of its tuples is non-empty
    and holds no ID twice. *)
Theorem process_crash_result_shape (tr : list Call) (res : list (list Z)) :
  set_iter_ok h →
  (run tr).1 = Ok res →
  NoDup res ∧ shorter_first res ∧ Forall (λ c, c ≠ [] ∧ NoDup c) res.
Proof.
  intros Hiter Hres.
  apply process_crash_ok_inv in Hres as [->|[T ->]].
  { repeat split; constructor. }
  assert (Hsub : confirmed_from (candidates h T) []
                 `sublist_of` candidates h T).
  { rewrite confirmed_tried. simpl.
    etrans; [apply filter_sublist|apply tried_sublist]. }
  split; [|split].
  - eapply sublist_NoDup; [by apply candidates_NoDup|done].
  - eapply shorter_first_sublist; [done|by apply candidates_shorter_first].
  - apply Forall_forall. intros c Hc.
    assert (Hcand : c ∈ candidates h T) by (by eapply elem_of_sublist).
    split.
    + by apply (elem_of_candidates h Hiter) in Hcand as [_ ?].
    + by apply (proj1 (Forall_forall _ _)
                  (candidates_NoDup_each h Hiter T)).
Qed.

(** X12. One triggered line that [int] refuses loses the testcase.
    When the baseline run of a file that is not skipped is classified
    as a crash and its output has a line that mentions a triggered bug
    index and whose last field is not read as an integer,
    [process_crash] raises the exception of the parser after the
    baseline call alone: no candidate is run, whatever the other lines
    hold. *)
Theorem process_crash_malformed_baseline
    (tr : list Call) (line : string) (e0 : exn) :
  skipped crash_testcase_path = false →
  isCrash h (new_process_run h baseline) app_binary = true →
  line ∈ PyStr.split newline (output (new_process_run h baseline)) →
  mentions_triggered line →
  trailing_id line = Raise e0 →
  ∃ e,
    parseFixReverterLog (output (new_process_run h baseline)) = Raise e
    ∧ run tr = (Raise e, tr ++ [baseline]).
Proof.
  intros Hskip Hcrash Hin Hm He0.
  destruct (crash_parse_lines_raise
              (PyStr.split newline (output (new_process_run h baseline))) ∅)
    as [e He].
  { apply Exists_exists. exists line. eauto. }
  exists e. split; [done|].
  rewrite process_crash_run, Hskip. cbv zeta. rewrite Hcrash. simpl.
  unfold parseFixReverterLog. fold newline. by rewrite He.
Qed.

Lemma string_app_assoc (s t u : string) :
  (s +:+ t) +:+ u = s +:+ t +:+ u.
Proof.
  induction s as [|a s IH]; [done|].
  change (String a ((s +:+ t) +:+ u) = String a (s +:+ t +:+ u)).
  by rewrite IH.
Qed.

(** The base name of a joined path is the file name. *)
Lemma basename_join (root filename : string) :
  free_of OsPath.slash filename →
  OsPath.basename (OsPath.join root filename) = filename.
Proof.
  intros Hfree. unfold OsPath.join, OsPath.basename.
  assert (Hstart : PyStr.startswith "/" filename = false).
  { destruct filename as [|a f]; [done|].
    apply free_of_cons in Hfree as [Ha _]. unfold PyStr.startswith.
    change (String.prefix "/" (String a f))
      with (if ascii_dec "/" a then String.prefix "" f else false).
    destruct (ascii_dec "/" a) as [<-|?]; [by destruct Ha|done]. }
  rewrite Hstart.
  assert (Hlast : ∀ t, PyStr.last_field
                         (PyStr.split OsPath.slash (t +:+ "/" +:+ filename))
                       = filename).
  { intros t. by apply (last_field_app OsPath.slash). }
  destruct (rev (list_ascii_of_string root)) as [|c l] eqn:Hrev.
  { unfold PyStr.last_field. by rewrite split_free. }
  destruct (Ascii.eqb_spec c OsPath.slash) as [->|?]; [|apply Hlast].
  assert (Hroot : root = string_of_list_ascii (rev l) +:+ "/").
  { rewrite <- (string_of_list_ascii_of_string root).
    rewrite <- (rev_involutive (list_ascii_of_string root)), Hrev. simpl.
    generalize (rev l). intros l'. induction l' as [|a l' IH]; [done|].
    simpl. by rewrite IH. }
  rewrite Hroot, string_app_assoc. apply Hlast.
Qed.

(** X13. A file of the walk whose name starts with [oom-] or
    [timeout-] is left out: for it [process_crash] returns no crash set
    and starts no process, whatever the directory it lies in. *)
Theorem process_crash_skips_by_name
    (root filename : string) (tr : list Call) :
  free_of OsPath.slash filename →
  PyStr.startswith "oom-" filename = true
  ∨ PyStr.startswith "timeout-" filename = true →
  process_crash h app_binary (OsPath.join root filename) crashes_dir tr
  = (Ok [], tr).
Proof.
  intros Hfree Hname. rewrite process_crash_run. unfold skipped.
  rewrite basename_join by done.
  by destruct Hname as [-> | ->]; rewrite ?orb_true_r.
Qed.

End MinimizerShape.

Section MinimizerBestCase.
Import RunCrashes.
Context (h : Host) (app_binary crash_testcase_path crashes_dir : string).

Local Abbreviation baseline :=
  (baseline_call h app_binary crash_testcase_path).
Local Abbreviation trial := (trial_call h app_binary crash_testcase_path).
Local Abbreviation crashes_on :=
  (crashing h app_binary crash_testcase_path).
Local Abbreviation run :=
  (process_crash h app_binary crash_testcase_path crashes_dir).
Local Abbreviation tried_from := (tried h app_binary crash_testcase_path).
Local Abbreviation confirmed_from :=
  (confirmed h app_binary crash_testcase_path).

Definition alone (i : Z) : list Z := [i].

Lemma combinations_1 (pool : list Z) : combinations pool 1 = map alone pool.
Proof.
  induction pool as [|x pool IH]; [done|].
  simpl. rewrite IH. by destruct pool.
Qed.

Lemma tried_alone (pool : list Z) : ∀ crashes,
  NoDup pool →
  (∀ i, i ∈ pool → crashes_on [i] = true) →
  (∀ s i, s ∈ crashes → i ∈ pool → ¬ s ⊆ [i]) →
  tried_from (map alone pool) crashes = map alone pool
  ∧ confirmed_from (map alone pool) crashes = crashes ++ map alone pool.
Proof.
  induction pool as [|x pool IH]; intros crashes Hnd Hcr Hfree.
  { simpl. by rewrite app_nil_r. }
  apply NoDup_cons in Hnd as [Hx Hnd]. simpl.
  destruct (existsb (issuperset (alone x)) crashes) eqn:Hp.
  { apply pruned_spec in Hp as (s & Hs & Hsub).
    destruct (Hfree s x Hs); [by left|done]. }
  unfold record_outcome. change (alone x) with [x].
  rewrite (Hcr x) by left.
  destruct (IH (crashes ++ [[x]])) as [-> ->]; [done|..].
  - intros i Hi. apply Hcr. by right.
  - intros s i [Hs| ->%list_elem_of_singleton]%elem_of_app Hi.
    + apply Hfree; [done|by right].
    + intros Hsub. assert (x = i) as -> by set_solver. done.
  - by rewrite <- app_assoc.
Qed.

Lemma tried_all_pruned (cands : list (list Z)) (crashes : list (list Z)) :
  (∀ c, c ∈ cands → ∃ s, s ∈ crashes ∧ s ⊆ c) →
  tried_from cands crashes = []
  ∧ confirmed_from cands crashes = crashes.
Proof.
  induction cands as [|c cands IH]; intros Hall; [done|]. simpl.
  assert (existsb (issuperset c) crashes = true) as ->.
  { apply pruned_spec, Hall. by left. }
  apply IH. intros c' Hc'. apply Hall. by right.
Qed.

(** X14. The least number of trials: when the baseline run crashes
    with [k] triggered IDs and each of them reproduces the crash alone,
    exactly the [k] one-element candidates are run, in the order in
    which the set is iterated over, and they are what is returned. *)
Theorem process_crash_best_case (tr : list Call) (T : gset Z) :
  set_iter_ok h →
  skipped crash_testcase_path = false →
  isCrash h (new_process_run h baseline) app_binary = true →
  parseFixReverterLog (output (new_process_run h baseline)) = Ok T →
  T ≠ ∅ →
  (∀ i, i ∈ T → crashes_on [i] = true) →
  run tr
  = (Ok (map alone (set_iter h T)),
     tr ++ baseline :: map trial (map alone (set_iter h T)))
  ∧ length (map alone (set_iter h T)) = size T.
Proof.
  intros Hiter Hskip Hcrash HT Hne Hall.
  split; [|by rewrite length_map, length_set_iter].
  rewrite process_crash_run, Hskip. simpl. rewrite Hcrash, HT. simpl.
  case_bool_decide as Hsz.
  { apply size_empty_iff, leibniz_equiv in Hsz. done. }
  unfold candidates.
  destruct (size T) as [|k] eqn:Hk; [done|].
  cbn [seq map concat]. rewrite combinations_1, confirmed_app, tried_app.
  destruct (tried_alone (set_iter h T) []) as [Htried Hconf].
  { by apply set_iter_NoDup. }
  { intros i Hi. apply Hall. by apply (elem_of_set_iter h Hiter). }
  { intros s i Hs. by apply elem_of_nil in Hs. }
  rewrite Htried, Hconf. simpl.
  destruct (tried_all_pruned
              (concat (map (combinations (set_iter h T)) (seq 2 k)))
              (map alone (set_iter h T))) as [-> ->].
  { intros c Hc. apply elem_of_concat_combinations in Hc as [Hsub Hlen].
    apply elem_of_seq in Hlen.
    destruct c as [|x c]; [simpl in Hlen; lia|].
    exists (alone x). split.
    - apply list_elem_of_In, (in_map alone), list_elem_of_In.
      eapply elem_of_sublist; [|done]. by left.
    - unfold alone. set_solver. }
  by rewrite app_nil_r.
Qed.

End MinimizerBestCase.

(** ** The crash key identifies the trigger set *)

Lemma join_str_inj (sep : ascii) (l1 l2 : list Z) :
  ¬ int_char sep →
  PyStr.join (String sep "") (map PyStr.str l1)
  = PyStr.join (String sep "") (map PyStr.str l2) →
  l1 = l2.
Proof.
  intros Hsep Heq.
  assert (Hfree : ∀ l, Forall (free_of sep) (map PyStr.str l)).
  { intros l. apply Forall_forall. intros p Hp.
    apply list_elem_of_In, in_map_iff in Hp as (i & <- & _).
    by apply str_free_of. }
  assert (Hne : ∀ i l, PyStr.join (String sep "") (map PyStr.str (i :: l))
                       ≠ "").
  { intros i l. cbn [map]. destruct (str_shape i) as [Hi _].
    destruct (PyStr.str i) as [|a s] eqn:Hs; [done|].
    cbn [PyStr.join]. by destruct (map PyStr.str l). }
  destruct l1 as [|i l1], l2 as [|j l2]; [done| | |].
  - symmetry in Heq. by apply Hne in Heq.
  - by apply Hne in Heq.
  - apply map_str_inj.
    rewrite <- (split_join sep (map PyStr.str (i :: l1))) by done.
    rewrite <- (split_join sep (map PyStr.str (j :: l2))) by done.
    by rewrite Heq.
Qed.

Lemma key_permutation (crash crash' : RunCrashes.Crash) :
  RunCrashes._get_crash_key crash = RunCrashes._get_crash_key crash' →
  RunCrashes.triggers crash ≡ₚ RunCrashes.triggers crash'.
Proof.
  unfold RunCrashes._get_crash_key. intros Heq.
  apply (join_str_inj "+") in Heq; [|apply plus_not_int_char].
  rewrite <- (merge_sort_Permutation Z.le (RunCrashes.triggers crash)).
  rewrite <- (merge_sort_Permutation Z.le (RunCrashes.triggers crash')).
  by rewrite Heq.
Qed.

(** X15. Two crash records with the same key have the same trigger IDs,
    each as many times: the deduplicating map never confuses two
    different trigger sets. *)
Theorem crash_key_injective (crash crash' : RunCrashes.Crash) :
  RunCrashes._get_crash_key crash = RunCrashes._get_crash_key crash' →
  RunCrashes.triggers crash ≡ₚ RunCrashes.triggers crash'.
Proof. apply key_permutation. Qed.

Lemma crash_key_injective_witness :
  [3; 1; 2] ≡ₚ [1; 2; 3].
Proof.
  apply (crash_key_injective (RunCrashes.mkCrash "crash-a" [3; 1; 2])
           (RunCrashes.mkCrash "crash-b" [1; 2; 3])).
  reflexivity.
Defined.

(** ** More on the corpus walk of the crash run *)

Section CorpusWalkMore.
Import RunCrashes.
Context (h : Host) (app_binary crashes_dir : string).

Local Abbreviation paths := (walk_paths h crashes_dir).
Local Abbreviation sets_of := (crash_sets h app_binary crashes_dir).
Local Abbreviation records := (crash_records h app_binary crashes_dir).

(** The calls [process_crash] makes for a testcase. *)
Definition calls_of (path : string) : list Call :=
  (process_crash h app_binary path crashes_dir []).2.

(** One testcase of the walk: its crash sets are computed, then stored. *)
Definition file_step (path : string) (crashes : gmap string Crash)
    : M (gmap string Crash) :=
  let! crashesets := process_crash h app_binary path crashes_dir in
  for_in crashesets (store_body h crashes_dir path) crashes.

Lemma process_crash_split (path : string) (tr : list Call) :
  process_crash h app_binary path crashes_dir tr
  = (sets_of path, tr ++ calls_of path).
Proof.
  rewrite (surjective_pairing (process_crash _ _ _ _ tr)).
  rewrite process_crash_trace_free. unfold calls_of.
  by rewrite !process_crash_trace.
Qed.

Lemma file_step_run (path : string) crashes (tr : list Call) :
  file_step path crashes tr
  = match sets_of path with
    | Ok _ =>
        (Ok (store crashes (records_of h app_binary crashes_dir path)),
         tr ++ calls_of path)
    | Raise e => (Raise e, tr ++ calls_of path)
    end.
Proof.
  unfold file_step, bind. rewrite process_crash_split.
  unfold records_of. destruct (sets_of path) as [sets|e]; [|done].
  apply store_loop_run.
Qed.

Lemma do_crashes_run_steps (tr : list Call) :
  do_crashes_run h app_binary crashes_dir tr = for_in paths file_step ∅ tr.
Proof.
  rewrite do_crashes_run_loops. unfold walk_paths.
  rewrite for_in_concat, for_in_map.
  apply for_in_ext. intros [root filenames] s tr0. by rewrite for_in_map.
Qed.

Lemma file_steps_ok (ps : list string) : ∀ crashes tr,
  (∀ p, p ∈ ps → ∃ sets, sets_of p = Ok sets) →
  for_in ps file_step crashes tr
  = (Ok (store crashes
           (concat (map (records_of h app_binary crashes_dir) ps))),
     tr ++ concat (map calls_of ps)).
Proof.
  induction ps as [|p ps IH]; intros crashes tr Hok.
  { simpl. by rewrite app_nil_r. }
  rewrite for_in_cons, file_step_run.
  destruct (Hok p) as [sets Hsets]; [by left|]. rewrite Hsets.
  rewrite IH by (intros p' Hp'; apply Hok; by right).
  cbn [map concat]. by rewrite store_app, app_assoc.
Qed.

Lemma file_steps_raise (pre post : list string) (p : string) (e : exn) :
  ∀ crashes tr,
  (∀ q, q ∈ pre → ∃ sets, sets_of q = Ok sets) →
  sets_of p = Raise e →
  for_in (pre ++ p :: post) file_step crashes tr
  = (Raise e, tr ++ concat (map calls_of (pre ++ [p]))).
Proof.
  induction pre as [|q pre IH]; intros crashes tr Hok He.
  { cbn [app map concat]. rewrite for_in_cons, file_step_run, He.
    by rewrite app_nil_r. }
  cbn [app]. rewrite for_in_cons, file_step_run.
  destruct (Hok q) as [sets Hsets]; [by left|]. rewrite Hsets.
  rewrite IH; [|intros q' Hq'; apply Hok; by right|done].
  cbn [map concat]. by rewrite app_assoc.
Qed.

(** Either every testcase is processed, or there is a first one on which
    [process_crash] raises. *)
Lemma first_failure (ps : list string) :
  (∀ p, p ∈ ps → ∃ sets, sets_of p = Ok sets)
  ∨ ∃ pre p post e,
      ps = pre ++ p :: post
      ∧ (∀ q, q ∈ pre → ∃ sets, sets_of q = Ok sets)
      ∧ sets_of p = Raise e.
Proof.
  induction ps as [|p ps IH].
  { left. intros p Hp. by apply elem_of_nil in Hp. }
  destruct (sets_of p) as [sets|e] eqn:Hp.
  - destruct IH as [Hok|(pre & q & post & e & -> & Hpre & Hq)].
    + left. intros p' [->|?]%elem_of_cons; eauto.
    + right. exists (p :: pre), q, post, e. split; [done|]. split; [|done].
      intros p' [->|?]%elem_of_cons; eauto.
  - right. exists [], p, ps, e. split; [done|]. split; [|done].
    intros q Hq. by apply elem_of_nil in Hq.
Qed.

Lemma store_lookup_inv (rs : list Crash) : ∀ crashes k c,
  store crashes rs !! k = Some c →
  crashes !! k = Some c ∨ (c ∈ rs ∧ _get_crash_key c = k).
Proof.
  induction rs as [|r rs IH]; intros crashes k c Hl; [by left|].
  simpl in Hl. apply IH in Hl as [Hl|[? ?]].
  - destruct (decide (_get_crash_key r = k)) as [<-|Hne].
    + rewrite lookup_insert_eq in Hl. injection Hl as <-.
      right. split; [by left|done].
    + rewrite lookup_insert_ne in Hl by done. by left.
  - right. split; [by right|done].
Qed.

Lemma store_keeps (rs : list Crash) : ∀ crashes k,
  is_Some (crashes !! k) → is_Some (store crashes rs !! k).
Proof.
  induction rs as [|r rs IH]; intros crashes k Hk; [done|].
  simpl. apply IH.
  destruct (decide (_get_crash_key r = k)) as [<-|Hne].
  - rewrite lookup_insert_eq. eauto.
  - by rewrite lookup_insert_ne.
Qed.

Lemma store_has (rs : list Crash) : ∀ crashes c,
  c ∈ rs → is_Some (store crashes rs !! _get_crash_key c).
Proof.
  induction rs as [|r rs IH]; intros crashes c Hc.
  { by apply elem_of_nil in Hc. }
  apply elem_of_cons in Hc as [->|Hc]; [|by apply IH].
  simpl. apply store_keeps. rewrite lookup_insert_eq. eauto.
Qed.

(** X16. In the mapping [do_crashes_run] returns, every record is
    stored under its own key and was built from a crash set of a
    testcase of the walk; and the trigger set of every such crash set
    is found in the mapping, under its key, possibly with another
    testcase. *)
Theorem do_crashes_run_map_invariant (tr : list Call)
    (crashes : gmap string Crash) :
  (do_crashes_run h app_binary crashes_dir tr).1 = Ok crashes →
  (∀ k c, crashes !! k = Some c → k = _get_crash_key c ∧ c ∈ records)
  ∧ (∀ c, c ∈ records →
       ∃ c', crashes !! _get_crash_key c = Some c'
             ∧ triggers c' ≡ₚ triggers c).
Proof.
  rewrite do_crashes_run_steps. intros Hrun.
  destruct (first_failure paths)
    as [Hok|(pre & p & post & e & Hsplit & Hpre & Hp)].
  2:{ rewrite Hsplit, (file_steps_raise _ _ _ e) in Hrun by done. done. }
  rewrite file_steps_ok in Hrun by done. injection Hrun as <-.
  fold records. split.
  - intros k c Hl. apply store_lookup_inv in Hl as [Hl|[? ?]]; [done|].
    by split.
  - intros c Hc. destruct (store_has records ∅ c Hc) as [c' Hc'].
    exists c'. split; [done|].
    apply store_lookup_inv in Hc' as [Hc'|[_ Hkey]]; [done|].
    by apply key_permutation.
Qed.

(** X17. The first testcase of the walk on which [process_crash] raises
    makes [do_crashes_run] raise the same exception: the records of the
    testcases before it are not returned, and no call is made for the
    testcases after it. *)
Theorem do_crashes_run_aborts (tr : list Call)
    (pre post : list string) (p : string) (e : exn) :
  paths = pre ++ p :: post →
  (∀ q, q ∈ pre → ∃ sets, sets_of q = Ok sets) →
  sets_of p = Raise e →
  do_crashes_run h app_binary crashes_dir tr
  = (Raise e, tr ++ concat (map calls_of (pre ++ [p]))).
Proof.
  intros Hsplit Hok He.
  by rewrite do_crashes_run_steps, Hsplit, (file_steps_raise _ _ _ e).
Qed.

(** X18. Every process [do_crashes_run] starts is started on a file of
    the walk whose name does not begin with [oom-] or [timeout-], with
    the command line of the baseline run of that file. *)
Theorem do_crashes_run_calls (tr : list Call) :
  ∃ calls,
    (do_crashes_run h app_binary crashes_dir tr).2 = tr ++ calls
    ∧ ∀ c, c ∈ calls →
        ∃ p, p ∈ paths ∧ skipped p = false
             ∧ call_command c = command h app_binary p.
Proof.
  rewrite do_crashes_run_steps.
  assert (Hcalls : ∀ ps c, c ∈ concat (map calls_of ps) →
            ∃ p, p ∈ ps ∧ skipped p = false
                 ∧ call_command c = command h app_binary p).
  { intros ps c Hc. apply list_elem_of_In, in_concat in Hc as (l & Hl & Hc).
    apply in_map_iff in Hl as (p & <- & Hp).
    apply list_elem_of_In in Hc, Hp. exists p. split; [done|].
    unfold calls_of in Hc. rewrite process_crash_trace in Hc.
    destruct (skipped p); [by apply elem_of_nil in Hc|]. split; [done|].
    simpl in Hc. apply elem_of_cons in Hc as [->|Hc]; [done|].
    apply list_elem_of_In, in_map_iff in Hc as (c0 & <- & _). done. }
  destruct (first_failure paths)
    as [Hok|(pre & p & post & e & Hsplit & Hpre & Hp)].
  - rewrite file_steps_ok by done. eexists. split; [done|]. apply Hcalls.
  - rewrite Hsplit, (file_steps_raise _ _ _ e) by done.
    eexists. split; [done|]. intros c Hc.
    destruct (Hcalls _ c Hc) as (q & Hq & ?). exists q. split; [|done].
    rewrite <- Hsplit in *. rewrite Hsplit.
    apply elem_of_app in Hq as [? | ->%list_elem_of_singleton]; set_solver.
Qed.

End CorpusWalkMore.

(** ** The directive read back *)

(** What a reader of the [FIXREVERTER] value finds after the leading
    [on ]: the fields between spaces, each read as a decimal integer
    of any length. *)
Definition directive_ids (d : string) : list (py Z) :=
  map PyStr.int_literal
    (PyStr.split " " (String.substring 3 (String.length d - 3) d)).

Lemma substring_all (s : string) :
  String.substring 0 (String.length s) s = s.
Proof. induction s as [|a s IH]; [done|]. simpl. by rewrite IH. Qed.

(** X19. The directive written for a non-empty candidate reads back as
    the IDs of the candidate, in the same order; and two candidates with
    the same directive are the same tuple. *)
Theorem directive_round_trip (c c' : list Z) :
  (c ≠ [] → directive_ids (RunCrashes.directive c) = map Ok c)
  ∧ (RunCrashes.directive c = RunCrashes.directive c' → c = c').
Proof.
  split; [|apply directive_inj].
  intros Hne. unfold directive_ids, RunCrashes.directive.
  set (body := PyStr.join " " (map PyStr.str c)).
  change ("on " +:+ body) with (String "o" (String "n" (String " " body))).
  cbn [String.length String.substring].
  rewrite !Nat.sub_succ, Nat.sub_0_r, substring_all.
  unfold body. rewrite (split_join " "%char).
  - rewrite map_map. apply map_ext. intros i. apply int_literal_str.
  - by destruct c.
  - apply Forall_forall. intros p Hp.
    apply list_elem_of_In, in_map_iff in Hp as (i & <- & _).
    apply str_free_of, space_not_int_char.
Qed.

Lemma directive_round_trip_witness :
  directive_ids (RunCrashes.directive [12; -3; 7]) = [Ok 12; Ok (-3); Ok 7]
  ∧ [2; 1] = [2; 1].
Proof.
  destruct (directive_round_trip [12; -3; 7] []) as [Hread _].
  destruct (directive_round_trip [2; 1] [2; 1]) as [_ Hinj].
  split; [by apply Hread|by apply Hinj].
Defined.

(** * More worked runs *)

Ltac slash_free :=
  unfold free_of; simpl;
  repeat (apply not_elem_of_cons; split; [discriminate|]);
  apply not_elem_of_nil.

(** A host whose target prints, on the baseline run of a testcase,
    [out_of] of the testcase path. *)
Definition corpus_host (crash_when : string → bool)
    (out_of : string → string) (filenames : list string) : Host := {|
  UNIT_TIMEOUT := 10;
  RSS_LIMIT_MB := 2048;
  os_environ := ∅;
  set_sanitizer_options := λ env, env;
  new_process_run := λ c,
    match call_env c !! "FIXREVERTER" with
    | None => mkProcessResult 1 (out_of (List.last (call_command c) "")) false
    | Some d =>
        if crash_when d
        then mkProcessResult 1 "ERROR: AddressSanitizer" false
        else mkProcessResult 0 "" false
    end;
  stack_parser_parse := λ _ out,
    if String.eqb out "" then mkCrashInfo None None
    else mkCrashInfo (Some "Heap-buffer-overflow") (Some "frame");
  os_walk := λ dir, [(dir, filenames)];
  os_path_relpath := λ path _, OsPath.basename path;
  set_iter := elements
|}.

Lemma corpus_host_iter crash_when out_of fs :
  set_iter_ok (corpus_host crash_when out_of fs).
Proof. intros X. reflexivity. Qed.

(** Three units: the first triggers 4, the second only reaches 5, the
    third has a line that does not end in an integer. *)
Definition unit_outputs (path : string) : string :=
  if String.eqb path "/out/units/u1" then "a: triggered bug index 4"
  else if String.eqb path "/out/units/oom-u2" then "b: reached bug index 5"
  else "c: triggered bug index 0x5".

Definition host_units : Host :=
  corpus_host (λ _, true) unit_outputs ["u1"; "oom-u2"].
Definition host_units_bad : Host :=
  corpus_host (λ _, true) unit_outputs ["u1"; "u3"; "oom-u2"].

Lemma do_coverage_run_union_witness :
  ∃ total,
    CoverageRun.do_coverage_run host_units "/out/target" "/out/units" []
    = (Ok total,
       [baseline_call host_units "/out/target" "/out/units/u1";
        baseline_call host_units "/out/target" "/out/units/oom-u2"])
    ∧ RunCoverage.triggers total ⊆ RunCoverage.reaches total.
Proof.
  destruct (do_coverage_run_union host_units "/out/target" "/out/units" [])
    as (total & Hrun & _ & _ & Hsub).
  - intros p Hp.
    change (walk_paths host_units "/out/units")
      with ["/out/units/u1"; "/out/units/oom-u2"] in Hp.
    rewrite !elem_of_cons in Hp.
    destruct Hp as [-> | [-> | Hp]];
      [eexists; vm_compute; reflexivity..|by apply elem_of_nil in Hp].
  - exists total. split; [exact Hrun|exact Hsub].
Defined.

Example host_units_run :
  (CoverageRun.do_coverage_run host_units "/out/target" "/out/units" []).1
  = Ok (RunCoverage.mkFixReverterCov {[4; 5]} {[4]}).
Proof. vm_compute. reflexivity. Qed.

Lemma do_coverage_run_aborts_witness :
  CoverageRun.do_coverage_run host_units_bad "/out/target" "/out/units" []
  = (Raise (ValueError "0x5"),
     [baseline_call host_units_bad "/out/target" "/out/units/u1";
      baseline_call host_units_bad "/out/target" "/out/units/u3"]).
Proof.
  apply (do_coverage_run_aborts host_units_bad "/out/target" "/out/units" []
           ["/out/units/u1"] ["/out/units/oom-u2"] "/out/units/u3").
  - reflexivity.
  - intros q Hq. apply list_elem_of_singleton in Hq as ->.
    eexists. vm_compute. reflexivity.
  - vm_compute. reflexivity.
Defined.

(** No trial crashes, and every trial crashes. *)
Definition host_none : Host := demo_host (λ _, false) out_1_2 ["crash-a"].
Definition host_each : Host := demo_host (λ _, true) out_1_2 ["crash-a"].

Lemma process_crash_call_bound_witness :
  (length (RunCrashes.process_crash host_1 "/out/target"
             "/out/crashes/crash-a" "/out/crashes" []).2
   ≤ 0 + 2 ^ size ({[1%Z; 2%Z]} : gset Z))%nat.
Proof.
  apply (process_crash_call_bound host_1 "/out/target"
           "/out/crashes/crash-a" "/out/crashes" [] {[1; 2]}).
  - apply demo_host_iter.
  - vm_compute. reflexivity.
Defined.

Lemma process_crash_worst_case_witness :
  RunCrashes.process_crash host_none "/out/target" "/out/crashes/crash-a"
    "/out/crashes" []
  = (Ok [],
     [] ++ baseline_call host_none "/out/target" "/out/crashes/crash-a"
        :: map (trial_call host_none "/out/target" "/out/crashes/crash-a")
             (candidates host_none {[1; 2]}))
  ∧ length (candidates host_none {[1; 2]})
    = (2 ^ size ({[1%Z; 2%Z]} : gset Z) - 1)%nat.
Proof.
  apply (process_crash_worst_case host_none "/out/target"
           "/out/crashes/crash-a" "/out/crashes" [] {[1; 2]}).
  - apply demo_host_iter.
  - reflexivity.
  - reflexivity.
  - vm_compute. reflexivity.
  - vm_compute. discriminate.
  - intros c _. apply demo_host_crashing.
Defined.

Lemma process_crash_no_repeat_witness :
  ∃ trials,
    (RunCrashes.process_crash host_disjoint "/out/target"
       "/out/crashes/crash-a" "/out/crashes" []).2
    = [] ++ (if skipped "/out/crashes/crash-a" then []
             else baseline_call host_disjoint "/out/target"
                    "/out/crashes/crash-a" :: trials)
    ∧ NoDup trials.
Proof.
  apply (process_crash_no_repeat host_disjoint "/out/target"
           "/out/crashes/crash-a" "/out/crashes" []).
  apply demo_host_iter.
Defined.

Lemma every_trigger_tried_alone_witness :
  trial_call host_1 "/out/target" "/out/crashes/crash-a" [2]
  ∈ (RunCrashes.process_crash host_1 "/out/target" "/out/crashes/crash-a"
       "/out/crashes" []).2
  ∧ (crashing host_1 "/out/target" "/out/crashes/crash-a" [2] = true
     ↔ ∃ res,
         (RunCrashes.process_crash host_1 "/out/target"
            "/out/crashes/crash-a" "/out/crashes" []).1 = Ok res
         ∧ [2] ∈ res).
Proof.
  apply (every_trigger_tried_alone host_1 "/out/target"
           "/out/crashes/crash-a" "/out/crashes" [] {[1; 2]} 2).
  - apply demo_host_iter.
  - reflexivity.
  - reflexivity.
  - vm_compute. reflexivity.
  - set_solver.
Defined.

Lemma process_crash_result_shape_witness :
  NoDup [[2]; [1]] ∧ shorter_first [[2]; [1]]
  ∧ Forall (λ c : list Z, c ≠ [] ∧ NoDup c) [[2]; [1]].
Proof.
  apply (process_crash_result_shape host_disjoint "/out/target"
           "/out/crashes/crash-a" "/out/crashes" []).
  - apply demo_host_iter.
  - vm_compute. reflexivity.
Defined.

Lemma process_crash_malformed_baseline_witness :
  ∃ e,
    RunCrashes.parseFixReverterLog
      (output (new_process_run host_malformed
                 (baseline_call host_malformed "/out/target"
                    "/out/crashes/crash-a")))
    = Raise e
    ∧ RunCrashes.process_crash host_malformed "/out/target"
        "/out/crashes/crash-a" "/out/crashes" []
      = (Raise e,
         [] ++ [baseline_call host_malformed "/out/target"
                  "/out/crashes/crash-a"]).
Proof.
  apply (process_crash_malformed_baseline host_malformed "/out/target"
           "/out/crashes/crash-a" "/out/crashes" []
           "b: triggered bug index 0x5" (ValueError "0x5")).
  - reflexivity.
  - reflexivity.
  - vm_compute. set_solver.
  - vm_compute. exact I.
  - vm_compute. reflexivity.
Defined.

Lemma process_crash_skips_by_name_witness :
  RunCrashes.process_crash host_1 "/out/target"
    (OsPath.join "/out/crashes/oom-dir" "timeout-17") "/out/crashes" []
  = (Ok [], []).
Proof.
  apply (process_crash_skips_by_name host_1 "/out/target" "/out/crashes"
           "/out/crashes/oom-dir" "timeout-17" []).
  - slash_free.
  - right. reflexivity.
Defined.

Lemma process_crash_best_case_witness :
  RunCrashes.process_crash host_each "/out/target" "/out/crashes/crash-a"
    "/out/crashes" []
  = (Ok (map alone (set_iter host_each {[1; 2]})),
     [] ++ baseline_call host_each "/out/target" "/out/crashes/crash-a"
        :: map (trial_call host_each "/out/target" "/out/crashes/crash-a")
             (map alone (set_iter host_each {[1; 2]})))
  ∧ length (map alone (set_iter host_each {[1; 2]}))
    = size ({[1%Z; 2%Z]} : gset Z).
Proof.
  apply (process_crash_best_case host_each "/out/target"
           "/out/crashes/crash-a" "/out/crashes" [] {[1; 2]}).
  - apply demo_host_iter.
  - reflexivity.
  - reflexivity.
  - vm_compute. reflexivity.
  - vm_compute. discriminate.
  - intros i _. apply demo_host_crashing.
Defined.

Lemma do_crashes_run_map_invariant_witness :
  ∃ c',
    ({["1" := RunCrashes.mkCrash "crash-c" [1]]}
       : gmap string RunCrashes.Crash)
      !! RunCrashes._get_crash_key (RunCrashes.mkCrash "crash-a" [1])
    = Some c'
    ∧ RunCrashes.triggers c' ≡ₚ [1].
Proof.
  destruct (do_crashes_run_map_invariant host_1 "/out/target" "/out/crashes"
              [] {["1" := RunCrashes.mkCrash "crash-c" [1]]})
    as [_ Hhas]; [vm_compute; reflexivity|].
  apply (Hhas (RunCrashes.mkCrash "crash-a" [1])).
  change (crash_records host_1 "/out/target" "/out/crashes")
    with [RunCrashes.mkCrash "crash-a" [1]; RunCrashes.mkCrash "crash-c" [1]].
  by left.
Defined.

(** A corpus whose second testcase has a malformed baseline log. *)
Definition crash_outputs (path : string) : string :=
  if String.eqb path "/out/crashes/crash-b" then malformed_output
  else "a: triggered bug index 1".
Definition host_corpus_bad : Host :=
  corpus_host (λ _, true) crash_outputs ["crash-a"; "crash-b"; "crash-c"].

Lemma do_crashes_run_aborts_witness :
  (RunCrashes.do_crashes_run host_corpus_bad "/out/target" "/out/crashes"
     []).1
  = Raise (ValueError "0x5").
Proof.
  rewrite (do_crashes_run_aborts host_corpus_bad "/out/target"
             "/out/crashes" [] ["/out/crashes/crash-a"]
             ["/out/crashes/crash-c"] "/out/crashes/crash-b"
             (ValueError "0x5")).
  - reflexivity.
  - reflexivity.
  - intros q Hq. apply list_elem_of_singleton in Hq as ->.
    eexists. vm_compute. reflexivity.
  - vm_compute. reflexivity.
Defined.

(** * The two filters

    [_filter_crash_type] and [_filter_crash_state] are the same in the
    two modules: each removes the matches of a regular expression, from
    left to right.  The expressions are simple enough for their matches
    to be found by direct tests on the characters.  As elsewhere,
    strings are sequences of 8-bit characters and the tests are those of
    ASCII text. *)

Module CrashFilters.

(** [\s] on ASCII characters. *)
Definition is_re_space (a : ascii) : bool :=
  let n := nat_of_ascii a in
  (Nat.eqb n 32 || (Nat.leb 9 n && Nat.leb n 13)
   || (Nat.leb 28 n && Nat.leb n 31))%bool.

Definition is_re_digit (a : ascii) : bool :=
  let n := nat_of_ascii a in (Nat.leb 48 n && Nat.leb n 57)%bool.

Fixpoint all_digits (s : string) : bool :=
  match s with
  | EmptyString => true
  | String a s' => is_re_digit a && all_digits s'
  end.

(** [([0-9]+|{\*})] matching the whole of [s]. *)
Definition is_size (s : string) : bool :=
  (negb (String.eqb s "") && all_digits s) || String.eqb s "{*}".

Definition newline_str : string := String "010" "".

(** [s] without the newline that ends it, if one does. *)
Fixpoint chop_newline (s : string) : option string :=
  match s with
  | EmptyString => None
  | String a EmptyString =>
      if Ascii.eqb a "010" then Some EmptyString else None
  | String a s' => String a <$> chop_newline s'
  end.

(** [([0-9]+|{\*})$] matching from the start of [rest]: the group has to
    reach the end of the string, or the newline that ends it.  The
    result is what follows the match. *)
Definition size_at_end (rest : string) : option string :=
  if is_size rest then Some EmptyString
  else match chop_newline rest with
       | Some body => if is_size body then Some newline_str else None
       | None => None
       end.

(** [SIZE_REGEX.sub('', crash_type)] with
    [SIZE_REGEX = \s([0-9]+|{\*})$]: the leftmost match is removed, and
    nothing that follows a match can match. *)
Fixpoint _filter_crash_type (crash_type : string) : string :=
  match crash_type with
  | EmptyString => EmptyString
  | String a rest =>
      if is_re_space a then
        match size_at_end rest with
        | Some after => after
        | None => String a (_filter_crash_type rest)
        end
      else String a (_filter_crash_type rest)
  end.

(** The length of the longest prefix of [s] free of [stop], and whether
    [stop] follows it. *)
Fixpoint run_until (stop : ascii) (s : string) : nat * bool :=
  match s with
  | EmptyString => (O, false)
  | String a s' =>
      if Ascii.eqb a stop then (O, true)
      else let '(n, found) := run_until stop s' in (S n, found)
  end.

(** The number of characters that a match of
    [<[^>]+>|<[^\n]+(?=\n)] takes after a [<], when there is one: the
    first alternative takes the characters up to the next [>] and this
    [>], if there is at least one character before it; failing that, the
    second takes the characters up to the next newline and leaves the
    newline, if there is at least one. *)
Definition template_after (rest : string) : option nat :=
  match run_until ">" rest with
  | (S n, true) => Some (S (S n))
  | _ =>
      match run_until "010" rest with
      | (S n, true) => Some (S n)
      | _ => None
      end
  end.

(** [skip] characters are still to be dropped from a match in progress. *)
Fixpoint drop_templates (skip : nat) (s : string) : string :=
  match s with
  | EmptyString => EmptyString
  | String a rest =>
      match skip with
      | S skip' => drop_templates skip' rest
      | O =>
          if Ascii.eqb a "<" then
            match template_after rest with
            | Some n => drop_templates n rest
            | None => String a (drop_templates O rest)
            end
          else String a (drop_templates O rest)
      end
  end.

(** [CPLUSPLUS_TEMPLATE_REGEX.sub('', crash_state)] *)
Definition _filter_crash_state (crash_state : string) : string :=
  drop_templates O crash_state.

End CrashFilters.

Example filter_type_read : CrashFilters._filter_crash_type
  "Heap-buffer-overflow READ 4" = "Heap-buffer-overflow READ".
Proof. reflexivity. Qed.
Example filter_type_star : CrashFilters._filter_crash_type
  "Heap-buffer-overflow WRITE {*}" = "Heap-buffer-overflow WRITE".
Proof. reflexivity. Qed.
Example filter_type_once :
  CrashFilters._filter_crash_type "READ 4 8" = "READ 4".
Proof. reflexivity. Qed.
Example filter_type_newline : CrashFilters._filter_crash_type
  ("READ 4" +:+ CrashFilters.newline_str) = "READ" +:+ CrashFilters.newline_str.
Proof. reflexivity. Qed.
Example filter_type_plain :
  CrashFilters._filter_crash_type "Null-dereference READ" = "Null-dereference READ".
Proof. reflexivity. Qed.
Example filter_state_template : CrashFilters._filter_crash_state
  "std::vector<int>::push_back" = "std::vector::push_back".
Proof. reflexivity. Qed.
Example filter_state_nested : CrashFilters._filter_crash_state
  "map<int, set<int>>::at" = "map>::at".
Proof. reflexivity. Qed.
Example filter_state_open : CrashFilters._filter_crash_state
  ("foo<int" +:+ CrashFilters.newline_str +:+ "bar")
  = "foo" +:+ CrashFilters.newline_str +:+ "bar".
Proof. reflexivity. Qed.
Example filter_state_empty_brackets :
  CrashFilters._filter_crash_state "a<>b" = "a<>b".
Proof. reflexivity. Qed.

(** ** The crash type filter *)

Section FilterType.
Import CrashFilters.

Fixpoint last_char (s : string) : option ascii :=
  match s with
  | EmptyString => None
  | String a EmptyString => Some a
  | String _ s' => last_char s'
  end.

Lemma last_char_cons (a : ascii) (s : string) :
  s ≠ "" → last_char (String a s) = last_char s.
Proof. by destruct s. Qed.

Lemma all_digits_last (s : string) :
  s ≠ "" → all_digits s = true →
  ∃ a, last_char s = Some a ∧ is_re_digit a = true.
Proof.
  induction s as [|a s IH]; intros Hne Hall; [done|].
  simpl in Hall. apply andb_true_iff in Hall as [Ha Hall].
  destruct s as [|b s]; [by exists a|].
  destruct IH as (c & Hc & Hd); [done..|]. by exists c.
Qed.

Lemma is_size_last (s : string) :
  is_size s = true →
  ∃ a, last_char s = Some a ∧ (is_re_digit a = true ∨ a = "}"%char).
Proof.
  unfold is_size. intros [Hd|Hs]%orb_true_iff.
  - apply andb_true_iff in Hd as [Hne Hall].
    destruct (all_digits_last s) as (a & ? & ?); [|done|by eauto].
    intros ->. done.
  - apply String.eqb_eq in Hs as ->. exists "}"%char. auto.
Qed.

Lemma is_size_nonempty (s : string) : is_size s = true → s ≠ "".
Proof. by intros Hs ->. Qed.

Lemma chop_newline_last (s body : string) :
  chop_newline s = Some body → last_char s = Some "010"%char.
Proof.
  revert body. induction s as [|a s IH]; intros body Hc; [done|].
  destruct s as [|b s].
  - simpl in Hc. by destruct (Ascii.eqb_spec a "010") as [->|].
  - change (chop_newline (String a (String b s)))
      with (String a <$> chop_newline (String b s)) in Hc.
    destruct (chop_newline (String b s)) as [body'|] eqn:Hb; [|done].
    by apply (IH body').
Qed.

Lemma size_at_end_last (rest after : string) :
  size_at_end rest = Some after →
  ∃ a, last_char rest = Some a
       ∧ (is_re_digit a = true ∨ a = "}"%char ∨ a = "010"%char).
Proof.
  unfold size_at_end. destruct (is_size rest) eqn:Hs.
  { intros _. destruct (is_size_last rest Hs) as (a & ? & [?|?]); eauto. }
  destruct (chop_newline rest) as [body|] eqn:Hc; [|done].
  intros _. exists "010"%char. split; [by eapply chop_newline_last|auto].
Qed.

(** X20. A crash type whose last character is not a digit, a closing
    brace or a newline is left as it is. *)
Theorem filter_crash_type_unchanged (crash_type : string) :
  (∀ a, last_char crash_type = Some a →
     is_re_digit a = false ∧ a ≠ "}"%char ∧ a ≠ "010"%char) →
  _filter_crash_type crash_type = crash_type.
Proof.
  induction crash_type as [|a rest IH]; intros Hlast; [done|].
  assert (Hrest : _filter_crash_type rest = rest).
  { destruct rest as [|b rest]; [done|]. apply IH. intros c Hc.
    apply Hlast. by rewrite last_char_cons. }
  simpl. destruct (is_re_space a); [|by rewrite Hrest].
  destruct (size_at_end rest) as [after|] eqn:Hm; [|by rewrite Hrest].
  apply size_at_end_last in Hm as (c & Hc & Hbad).
  assert (rest ≠ "") by (by intros ->).
  destruct (Hlast c) as (Hd & Hb & Hn); [by rewrite last_char_cons|].
  destruct Hbad as [?|[?|?]]; congruence.
Qed.

Lemma filter_crash_type_unchanged_witness :
  _filter_crash_type "Null-dereference READ" = "Null-dereference READ".
Proof.
  apply filter_crash_type_unchanged.
  intros a [= <-]. repeat split; discriminate.
Defined.

(** The characters of a size. *)
Definition size_char (a : ascii) : Prop :=
  is_re_digit a = true ∨ a = "{"%char ∨ a = "*"%char ∨ a = "}"%char.

Lemma is_size_chars (s : string) :
  is_size s = true → Forall size_char (list_ascii_of_string s).
Proof.
  unfold is_size. intros [Hd|Hs]%orb_true_iff.
  - apply andb_true_iff in Hd as [_ Hall].
    induction s as [|a s IH]; [constructor|].
    simpl in Hall. apply andb_true_iff in Hall as [Ha Hall].
    simpl. constructor; [by left|by apply IH].
  - apply String.eqb_eq in Hs as ->. unfold size_char. simpl.
    apply Forall_cons; split; [by right; left|].
    apply Forall_cons; split; [by right; right; left|].
    apply Forall_cons; split; [by right; right; right|constructor].
Qed.

Lemma is_size_with (a : ascii) (s : string) :
  ¬ size_char a → a ∈ list_ascii_of_string s → is_size s = false.
Proof.
  intros Ha Hin. destruct (is_size s) eqn:Hs; [|done].
  destruct Ha. by apply (proj1 (Forall_forall _ _) (is_size_chars s Hs)).
Qed.

Lemma space_not_size_char (a : ascii) : is_re_space a = true → ¬ size_char a.
Proof.
  unfold size_char, is_re_space, is_re_digit.
  intros Hsp [Hd|[-> | [-> | ->]]]; try discriminate.
  apply andb_true_iff in Hd as [H1%Nat.leb_le H2%Nat.leb_le].
  apply orb_true_iff in Hsp as [Hsp|Hsp].
  - apply orb_true_iff in Hsp as [Hsp%Nat.eqb_eq|Hsp]; [lia|].
    apply andb_true_iff in Hsp as [_ H3%Nat.leb_le]. lia.
  - apply andb_true_iff in Hsp as [_ H3%Nat.leb_le]. lia.
Qed.

Lemma elem_of_chars_app (a : ascii) (x y : string) :
  a ∈ list_ascii_of_string (x +:+ y)
  ↔ a ∈ list_ascii_of_string x ∨ a ∈ list_ascii_of_string y.
Proof.
  induction x as [|b x IH]; simpl.
  - rewrite elem_of_nil. tauto.
  - change (list_ascii_of_string (String b x +:+ y))
      with (b :: list_ascii_of_string (x +:+ y)).
    rewrite !elem_of_cons, IH. tauto.
Qed.

Lemma chop_newline_app (x y : string) :
  y ≠ "" → chop_newline (x +:+ y) = (λ b, x +:+ b) <$> chop_newline y.
Proof.
  intros Hy. induction x as [|a x IH].
  { change ("" +:+ y) with y. destruct (chop_newline y); reflexivity. }
  change (String a x +:+ y) with (String a (x +:+ y)).
  assert (x +:+ y ≠ "") as Hne by (by destruct x).
  destruct (x +:+ y) as [|b r] eqn:Hxy; [done|].
  change (chop_newline (String a (String b r)))
    with (String a <$> chop_newline (String b r)).
  rewrite IH. by destruct (chop_newline y).
Qed.

Lemma chop_newline_snoc (s : string) :
  chop_newline (s +:+ newline_str) = Some s.
Proof.
  rewrite chop_newline_app by done. simpl.
  f_equal. induction s as [|a s IH]; [done|].
  change (String a s +:+ "") with (String a (s +:+ "")). by rewrite IH.
Qed.

(** No match begins before the white space that precedes the size. *)
Lemma no_size_before (x tail : string) (sp : ascii) :
  is_re_space sp = true → tail ≠ "" →
  size_at_end (x +:+ String sp tail) = None.
Proof.
  intros Hsp Htail. unfold size_at_end.
  pose proof (space_not_size_char sp Hsp) as Hns.
  rewrite (is_size_with sp) by (done || (apply elem_of_chars_app; right; by left)).
  rewrite chop_newline_app by done.
  destruct tail as [|b tail]; [done|].
  change (chop_newline (String sp (String b tail)))
    with (String sp <$> chop_newline (String b tail)).
  destruct (chop_newline (String b tail)) as [body|]; [|done].
  simpl. rewrite (is_size_with sp); [done..|].
  apply elem_of_chars_app. right. by left.
Qed.

(** X21. A white-space character followed by a size, that is by digits
    or by [{*}], is removed with the size from the end of a crash type,
    whatever precedes it; a newline that ends the string is kept. *)
Theorem filter_crash_type_strips (t d : string) (sp : ascii) :
  is_re_space sp = true → is_size d = true →
  _filter_crash_type (t +:+ String sp d) = t
  ∧ _filter_crash_type (t +:+ String sp (d +:+ newline_str))
    = t +:+ newline_str.
Proof.
  intros Hsp Hd. pose proof (is_size_nonempty d Hd) as Hne.
  assert (Hend : size_at_end (d +:+ newline_str) = Some newline_str).
  { unfold size_at_end.
    rewrite (is_size_with "010"%char).
    - by rewrite chop_newline_snoc, Hd.
    - intros [?|[?|[?|?]]]; discriminate.
    - apply elem_of_chars_app. right. by left. }
  induction t as [|a t [IH1 IH2]].
  { simpl. rewrite Hsp. unfold size_at_end at 1. rewrite Hd.
    by rewrite Hend. }
  change (String a t +:+ ?u) with (String a (t +:+ u)).
  simpl. rewrite IH1, IH2.
  rewrite !no_size_before; [by destruct (is_re_space a)|done| |done..].
  by destruct d.
Qed.

Lemma filter_crash_type_strips_witness :
  _filter_crash_type "Heap-buffer-overflow READ 12" = "Heap-buffer-overflow READ"
  ∧ _filter_crash_type "Heap-buffer-overflow WRITE {*}"
    = "Heap-buffer-overflow WRITE".
Proof.
  split.
  - apply (filter_crash_type_strips "Heap-buffer-overflow READ" "12" " ");
      reflexivity.
  - apply (filter_crash_type_strips "Heap-buffer-overflow WRITE" "{*}" " ");
      reflexivity.
Defined.

End FilterType.

(** ** The crash state filter *)

Section FilterState.
Import CrashFilters.

Lemma run_until_found (stop : ascii) (x u : string) :
  free_of stop x →
  run_until stop (x +:+ String stop u) = (String.length x, true).
Proof.
  induction x as [|a x IH]; intros Hx.
  { simpl. by rewrite Ascii.eqb_refl. }
  apply free_of_cons in Hx as [Ha Hx].
  change (String a x +:+ ?v) with (String a (x +:+ v)). simpl.
  destruct (Ascii.eqb_spec a stop); [done|]. by rewrite IH.
Qed.

Lemma run_until_free (stop : ascii) (s : string) :
  free_of stop s → run_until stop s = (String.length s, false).
Proof.
  induction s as [|a s IH]; intros Hs; [done|].
  apply free_of_cons in Hs as [Ha Hs]. simpl.
  destruct (Ascii.eqb_spec a stop); [done|]. by rewrite IH.
Qed.

Lemma drop_skipped (p u : string) :
  drop_templates (String.length p) (p +:+ u) = drop_templates 0 u.
Proof.
  induction p as [|a p IH]; [done|].
  change (String a p +:+ u) with (String a (p +:+ u)). apply IH.
Qed.

Lemma drop_kept (t u : string) :
  free_of "<" t →
  drop_templates 0 (t +:+ u) = t +:+ drop_templates 0 u.
Proof.
  induction t as [|a t IH]; intros Ht; [done|].
  apply free_of_cons in Ht as [Ha Ht].
  change (String a t +:+ ?v) with (String a (t +:+ v)). simpl.
  destruct (Ascii.eqb_spec a "<"); [done|]. by rewrite IH.
Qed.

Lemma drop_unchanged (t : string) :
  free_of "<" t → drop_templates 0 t = t.
Proof.
  induction t as [|a t IH]; intros Ht; [done|].
  apply free_of_cons in Ht as [Ha Ht]. simpl.
  destruct (Ascii.eqb_spec a "<"); [done|]. by rewrite IH.
Qed.

Lemma string_length_app (x y : string) :
  String.length (x +:+ y) = (String.length x + String.length y)%nat.
Proof.
  induction x as [|a x IH]; [done|].
  change (String a x +:+ y) with (String a (x +:+ y)). simpl. by rewrite IH.
Qed.

Lemma free_of_app (sep : ascii) (x y : string) :
  free_of sep (x +:+ y) ↔ free_of sep x ∧ free_of sep y.
Proof. unfold free_of. rewrite elem_of_chars_app. tauto. Qed.

(** X22. The crash state filter leaves a state without [<] as it is;
    it removes a template, that is a [<] followed by at least one
    character other than [>] and then by [>], together with what it
    encloses, and goes on with what follows; and where no [>] follows a
    [<] it removes what goes from this [<] to the end of the line,
    provided the line does not end right after it. *)
Theorem filter_crash_state_templates (t x u : string) :
  free_of "<" t →
  _filter_crash_state t = t
  ∧ (x ≠ "" → free_of ">" x →
     _filter_crash_state (t +:+ String "<" (x +:+ String ">" u))
     = t +:+ _filter_crash_state u)
  ∧ (x ≠ "" → free_of "010" x → free_of ">" (x +:+ String "010" u) →
     _filter_crash_state (t +:+ String "<" (x +:+ String "010" u))
     = t +:+ _filter_crash_state (String "010" u)).
Proof.
  intros Ht. unfold _filter_crash_state. split; [|split].
  - by apply drop_unchanged.
  - intros Hne Hx. rewrite drop_kept by done. f_equal.
    simpl. unfold template_after. rewrite run_until_found by done.
    destruct x as [|a x]; [done|]. cbn [String.length].
    rewrite <- (drop_skipped (String a x +:+ ">") u).
    rewrite string_app_assoc, string_length_app.
    f_equal. simpl. lia.
  - intros Hne Hx Hgt. rewrite drop_kept by done. f_equal.
    simpl. unfold template_after. rewrite (run_until_free ">") by done.
    rewrite run_until_found by done.
    destruct x as [|a x]; [done|].
    rewrite string_length_app. cbn [String.length Nat.add].
    apply (drop_skipped (String a x)).
Qed.

Lemma filter_crash_state_templates_witness :
  _filter_crash_state "std::vector" = "std::vector"
  ∧ _filter_crash_state "std::vector<int>::push_back<long>"
    = "std::vector" +:+ _filter_crash_state "::push_back<long>"
  ∧ _filter_crash_state ("foo<int" +:+ String "010" "bar")
    = "foo" +:+ _filter_crash_state (String "010" "bar").
Proof.
  destruct (filter_crash_state_templates "std::vector" "int"
              "::push_back<long>") as (Hsame & Htemplate & _);
    [slash_free|].
  destruct (filter_crash_state_templates "foo" "int" "bar")
    as (_ & _ & Hline); [slash_free|].
  split; [exact Hsame|]. split.
  - apply Htemplate; [discriminate|slash_free].
  - apply Hline; [discriminate|slash_free|slash_free].
Defined.

End FilterState.

(** ** The crash sets returned are the trials that crashed *)

Section ReturnedTrials.
Import RunCrashes.
Context (h : Host) (app_binary crash_testcase_path crashes_dir : string).

(** X23. Whatever the target does, the list [process_crash] returns is
    the list of the candidates it ran whose run was classified as a
    crash, in the order in which it ran them: nothing is returned that
    was not run, and no crashing trial is forgotten. *)
Theorem process_crash_returns_crashing_trials
    (tr : list Call) (res : list (list Z)) :
  (process_crash h app_binary crash_testcase_path crashes_dir tr).1
  = Ok res →
  ∃ cands,
    (process_crash h app_binary crash_testcase_path crashes_dir tr).2
    = tr ++ (if skipped crash_testcase_path then []
             else baseline_call h app_binary crash_testcase_path
                  :: map (trial_call h app_binary crash_testcase_path) cands)
    ∧ res = List.filter (crashing h app_binary crash_testcase_path) cands.
Proof.
  intros Hres.
  exists (trial_candidates h app_binary crash_testcase_path).
  split; [apply process_crash_trace|].
  rewrite process_crash_run in Hres. unfold trial_candidates.
  destruct (skipped _); simpl in *; [by injection Hres as <-|].
  destruct (negb _); simpl in *; [by injection Hres as <-|].
  destruct (parseFixReverterLog _) as [T|e]; simpl in *; [|done].
  case_bool_decide; simpl in *; injection Hres as <-; [done|].
  by rewrite confirmed_tried.
Qed.

End ReturnedTrials.

Lemma process_crash_returns_crashing_trials_witness :
  ∃ cands,
    (RunCrashes.process_crash host_disjoint "/out/target"
       "/out/crashes/crash-a" "/out/crashes" []).2
    = [] ++ (if skipped "/out/crashes/crash-a" then []
             else baseline_call host_disjoint "/out/target"
                    "/out/crashes/crash-a"
                  :: map (trial_call host_disjoint "/out/target"
                            "/out/crashes/crash-a") cands)
    ∧ [[2]; [1]]
      = List.filter
          (crashing host_disjoint "/out/target" "/out/crashes/crash-a") cands.
Proof.
  apply (process_crash_returns_crashing_trials host_disjoint "/out/target"
           "/out/crashes/crash-a" "/out/crashes" []).
  vm_compute. reflexivity.
Defined.

(** ** The bound on the number of digits *)

Example int_at_limit :
  PyStr.int (string_of_list_ascii (repeat "0"%char 4300)) = Ok 0.
Proof. vm_compute. reflexivity. Qed.

Example int_over_limit :
  PyStr.int (string_of_list_ascii (repeat "0"%char 4301))
  = Raise (ValueErrorDigits 4301).
Proof. vm_compute. reflexivity. Qed.

Lemma prefix_app (p a b : string) :
  String.prefix p a = true → String.prefix p (a +:+ b) = true.
Proof.
  revert a. induction p as [|c p IH]; intros a.
  { intros _. by destruct (a +:+ b). }
  destruct a as [|c' a]; [done|].
  change (String c' a +:+ b) with (String c' (a +:+ b)). simpl.
  destruct (ascii_dec c c'); [apply IH|done].
Qed.

Lemma contains_app (needle a b : string) :
  PyStr.contains needle a = true → PyStr.contains needle (a +:+ b) = true.
Proof.
  induction a as [|c a IH].
  { destruct needle; [|done]. intros _. by destruct b. }
  change (String c a +:+ b) with (String c (a +:+ b)).
  cbn [PyStr.contains]. intros [Hp|Hc]%orb_true_iff; apply orb_true_iff.
  - left. by apply (prefix_app needle (String c a) b).
  - right. by apply IH.
Qed.

(** X24. An ID of more than [int_max_str_digits] digits is refused.
    [int] raises on the last field of a line that ends in a space and
    such an integer; if the line mentions a triggered bug index, both
    parsers raise on every output that holds it, and so does the
    coverage parser if the line mentions a reached bug index. *)
Theorem parse_long_id_raises (output : string) (entry : string * Z) :
  id_line entry ∈ PyStr.split newline output →
  ¬ within_digit_limit entry.2 →
  (∃ n, PyStr.int_max_str_digits < n
        ∧ trailing_id (id_line entry) = Raise (ValueErrorDigits n))
  ∧ (mentions_triggered (id_line entry) →
     ∃ e, RunCrashes.parseFixReverterLog output = Raise e)
  ∧ (cov_matches (id_line entry) →
     ∃ e, RunCoverage.parseFixReverterLog output = Raise e).
Proof.
  intros Hin Hlong.
  destruct (int_str_long entry.2 Hlong) as (n & Hn & Hint).
  rewrite <- trailing_id_str in Hint.
  split; [eauto|]. split; intros Hm.
  - apply crash_parse_lines_raise, Exists_exists. eauto.
  - apply cov_parse_lines_raise, Exists_exists. eauto.
Qed.

Lemma parse_long_id_raises_witness :
  ∃ e,
    RunCrashes.parseFixReverterLog
      (id_line ("a: triggered bug index", 10 ^ PyStr.int_max_str_digits))
    = Raise e.
Proof.
  destruct (parse_long_id_raises
              (id_line ("a: triggered bug index",
                        10 ^ PyStr.int_max_str_digits))
              ("a: triggered bug index", 10 ^ PyStr.int_max_str_digits))
    as (_ & Hcr & _).
  - rewrite (split_free newline); [by left|].
    unfold id_line. cbn [fst snd]. apply free_of_app.
    split; [slash_free|].
    change (" " +:+ ?x) with (String " " x).
    apply free_of_cons. split; [discriminate|].
    apply str_free_of. intros [[d Hd]|Heq]; discriminate.
  - unfold within_digit_limit. cbn [snd].
    rewrite Z.abs_eq by (by apply Z.pow_nonneg). apply Z.lt_irrefl.
  - apply Hcr. apply Is_true_true_2. unfold mentions_triggered, id_line.
    by apply contains_app.
Defined.
